(** * Leaflet flyer-route planner: a shallow embedding of the backend

    The development follows the Python backend file by file:
    [Area] (area.py), [Exports] (export.py), [Graph] (the networkx
    multigraph the pipeline passes around), [Density] (density.py),
    [Partition] (partition.py), [Routing] (routing.py) and [Main]
    (the orchestrator of main.py).  Python floats are modelled by exact
    numbers: rationals [Q] where the code has to run, reals [R] where it
    calls the trigonometric functions of the math module. *)

From Stdlib Require Import ZArith QArith Qround Reals Lra Lia List String.
From stdpp Require Import gmap strings list.
Close Scope Q_scope.
Close Scope R_scope.

(** ** Outcomes of fallible Python code *)

Inductive exn :=
| ValueError
| KeyError
| NetworkXError
| HTTPException (status : Z) (detail : string).

Inductive outcome (A : Type) :=
| Returns (a : A)
| Raises (e : exn).
Arguments Returns {A} a.
Arguments Raises {A} e.

Definition raises {A} (o : outcome A) : Prop :=
  match o with Raises _ => True | Returns _ => False end.

Definition obind {A B} (o : outcome A) (k : A -> outcome B) : outcome B :=
  match o with Returns a => k a | Raises e => Raises e end.

(** ** area.py *)

Module Area.
Local Open Scope R_scope.

(** math.radians *)
Definition radians (deg : R) : R := deg * PI / 180.

(** shapely's Polygon constructor accepts the empty ring and any ring of
    at least three coordinates; one or two coordinates are a ValueError. *)
Definition Polygon (points : list (R * R)) : outcome (list (R * R)) :=
  match points with
  | [_] | [_; _] => Raises ValueError
  | _ => Returns points
  end.

(** The body of the for loop: vertex [i], as shapely's (x, y) = (lng, lat). *)
Definition circle_vertex (center_lat center_lng radius_m : R)
    (num_points : nat) (i : nat) : R * R :=
  let lat_deg_per_m := 1 / 111320 in
  let lng_deg_per_m := 1 / (111320 * cos (radians center_lat)) in
  let angle := (2 * PI * INR i) / INR num_points in
  let lat := center_lat + (radius_m * sin angle * lat_deg_per_m) in
  let lng := center_lng + (radius_m * cos angle * lng_deg_per_m) in
  (lng, lat).

Definition create_circle_polygon (center_lat center_lng radius_m : R)
    (num_points : nat) : outcome (list (R * R)) :=
  Polygon (map (circle_vertex center_lat center_lng radius_m num_points)
               (seq 0 num_points)).

(** The default of the num_points argument. *)
Definition default_num_points : nat := 64.

(** create_polygon_from_points: a list of lat/lng dicts. *)
Record latlng := { lat : R; lng : R }.

Definition create_polygon_from_points (points : list latlng)
    : outcome (list (R * R)) :=
  Polygon (map (fun p => (lng p, lat p)) points).

(** Step 1 of generate_routes (main.py): the request's area is a circle,
    a polygon, or anything else. *)
Inductive area :=
| Circle (center : latlng) (radius_m : R)
| PolygonArea (points : list latlng)
| OtherArea.

Definition create_geometry (a : area) : outcome (list (R * R)) :=
  match a with
  | Circle center radius =>
      create_circle_polygon (lat center) (lng center) radius default_num_points
  | PolygonArea points =>
      if (length points <? 3)%nat
      then Raises (HTTPException 400 "Polygon must have at least 3 points")
      else create_polygon_from_points points
  | OtherArea =>
      Raises (HTTPException 400 "area.type must be 'circle' or 'polygon'")
  end.

End Area.

(** ** export.py *)

Module Exports.

(** A waypoint is the two-element list [lat, lng]. *)
Definition waypoint : Type := Q * Q.

(** The extended slice [l[::step]]: the elements at indices 0, step,
    2*step, ...; [k] counts the elements still to skip. *)
Fixpoint every_nth {A} (step k : nat) (l : list A) : list A :=
  match l with
  | [] => []
  | x :: rest =>
      match k with
      | O => x :: every_nth step (step - 1) rest
      | S k' => every_nth step k' rest
      end
  end.

Definition slice_step {A} (step : nat) (l : list A) : list A :=
  every_nth step 0 l.

Definition max_wp : nat := 23.

(** The subsampling at the head of generate_google_maps_url. *)
Definition sample_waypoints (waypoints : list waypoint) : list waypoint :=
  if (max_wp + 2 <? length waypoints)%nat then
    let step := (length waypoints / max_wp)%nat in
    take max_wp (slice_step step waypoints)
  else waypoints.

(** sampled[1:-1] *)
Definition interior {A} (l : list A) : list A := removelast (tail l).

(** The query parameters of the directions URL. *)
Record directions_url := {
  origin : waypoint;
  destination : waypoint;
  waypoints_param : option (list waypoint);
  travelmode : string
}.

(** generate_google_maps_url, up to the formatting of the text: [None]
    is the empty string returned for fewer than two waypoints. *)
Definition google_maps_directions (waypoints : list waypoint)
    (travel_mode : string) : option directions_url :=
  if (length waypoints <? 2)%nat then None
  else
    let sampled := sample_waypoints waypoints in
    match head sampled, last sampled with
    | Some o, Some d =>
        let mode := if String.eqb travel_mode "walking"
                    then "walking"%string else "driving"%string in
        Some {| origin := o; destination := d;
                waypoints_param :=
                  if (2 <? length sampled)%nat
                  then Some (interior sampled) else None;
                travelmode := mode |}
    | _, _ => None
    end.

Section Render.
(** The text Python's f-string gives a float. *)
Variable repr : Q -> string.

Definition fmt_point (wp : waypoint) : string :=
  (repr (fst wp) ++ "," ++ repr (snd wp))%string.

Fixpoint join (sep : string) (l : list string) : string :=
  match l with
  | [] => ""
  | [s] => s
  | s :: rest => (s ++ sep ++ join sep rest)%string
  end.

Definition render (u : directions_url) : string :=
  match waypoints_param u with
  | Some wps =>
      ("https://www.google.com/maps/dir/?api=1"
       ++ "&origin=" ++ fmt_point (origin u)
       ++ "&destination=" ++ fmt_point (destination u)
       ++ "&waypoints=" ++ join "|" (map fmt_point wps)
       ++ "&travelmode=" ++ travelmode u)%string
  | None =>
      ("https://www.google.com/maps/dir/?api=1"
       ++ "&origin=" ++ fmt_point (origin u)
       ++ "&destination=" ++ fmt_point (destination u)
       ++ "&travelmode=" ++ travelmode u)%string
  end.

Definition generate_google_maps_url (waypoints : list waypoint)
    (travel_mode : string) : string :=
  match google_maps_directions waypoints travel_mode with
  | Some u => render u
  | None => ""
  end.
End Render.

(** The coordinate points a URL encodes: origin, destination and the
    entries of the waypoints parameter. *)
Definition encoded_points (u : directions_url) : nat :=
  2 + match waypoints_param u with Some wps => length wps | None => 0 end.

Definition url_points (waypoints : list waypoint) (travel_mode : string) : nat :=
  match google_maps_directions waypoints travel_mode with
  | Some u => encoded_points u
  | None => 0
  end.

End Exports.

(** ** The road graph (networkx MultiDiGraph and MultiGraph) *)

Module Graph.

Definition node : Type := Z.

(** An OSM tag value: a string, or the non-empty list osmnx produces
    when it merges ways that carry different values. *)
Inductive tag :=
| Scalar (s : string)
| Listed (first : string) (rest : list string).

(** The attribute dictionary of an edge; [None] is an absent key. *)
Record edge_data := {
  e_length : option Q;
  e_name : option tag;
  e_highway : option tag;
  e_geometry : option (list (Q * Q));
  e_estimated_addresses : option Z
}.

Record edge := { src : node; dst : node; key : Z; data : edge_data }.

Record node_data := { x : Q; y : Q }.

(** A MultiDiGraph: its nodes and its edges, both in the order networkx
    iterates over them, and the graph attribute "zone_id". *)
Record graph := {
  nodes : list (node * node_data);
  edges : list edge;
  zone_id : option Z
}.

Definition node_ids (G : graph) : list node := map fst (nodes G).

(** G.nodes[n]; a missing node is a KeyError. *)
Definition node_attrs (G : graph) (n : node) : outcome node_data :=
  match List.find (fun p => Z.eqb (fst p) n) (nodes G) with
  | Some p => Returns (snd p)
  | None => Raises KeyError
  end.

Definition with_data (e : edge) (d : edge_data) : edge :=
  {| src := src e; dst := dst e; key := key e; data := d |}.

Definition set_estimated_addresses (e : edge) (a : Z) : edge :=
  with_data e
    {| e_length := e_length (data e); e_name := e_name (data e);
       e_highway := e_highway (data e); e_geometry := e_geometry (data e);
       e_estimated_addresses := Some a |}.

Definition with_edges (G : graph) (es : list edge) : graph :=
  {| nodes := nodes G; edges := es; zone_id := zone_id G |}.

Definition same_edge (u v : node) (k : Z) (e : edge) : bool :=
  Z.eqb (src e) u && Z.eqb (dst e) v && Z.eqb (key e) k.

(** G.get_edge_data(u, v): the key-to-data dictionary of the edges from
    [u] to [v] in key order, [None] when there is none. *)
Definition get_edge_data (G : graph) (u v : node) : option (list (Z * edge_data)) :=
  match List.filter (fun e => Z.eqb (src e) u && Z.eqb (dst e) v) (edges G) with
  | [] => None
  | es => Some (map (fun e => (key e, data e)) es)
  end.

(** Keeps the first occurrence of every element, in order. *)
Definition add_new (acc : list node) (n : node) : list node :=
  if existsb (Z.eqb n) acc then acc else acc ++ [n].

Definition first_occurrences (l : list node) : list node :=
  fold_left add_new l [].

(** data.get("estimated_addresses", 0) and data.get("length", 0) *)
Definition addresses_of (e : edge) : Z :=
  default 0%Z (e_estimated_addresses (data e)).

Definition length_of (e : edge) : Q := default 0%Q (e_length (data e)).

(** A tag read the way every consumer does: the first element of a list. *)
Definition tag_value (t : tag) : string :=
  match t with Scalar s => s | Listed s _ => s end.

(** int() of a float: truncation toward zero. *)
Definition py_int (q : Q) : Z := Z.quot (Qnum q) (Zpos (Qden q)).

Definition Qltb (a b : Q) : bool := negb (Qle_bool b a).

Definition Qsum (l : list Q) : Q := fold_left Qplus l 0%Q.
Definition Zsum (l : list Z) : Z := fold_left Z.add l 0%Z.

(** *** Traversal views

    generate_simple_route receives either the MultiGraph built by
    to_undirected or a copy of the MultiDiGraph. *)
Inductive route_graph :=
| Undirected (G : graph)
| Directed (G : graph).

Definition rg_graph (R : route_graph) : graph :=
  match R with Undirected G | Directed G => G end.

(** Joins the attribute dictionary of a later edge into an earlier one
    (dict.update): the later value wins where it is present. *)
Definition update_data (old new : edge_data) : edge_data :=
  {| e_length := match e_length new with Some v => Some v | None => e_length old end;
     e_name := match e_name new with Some v => Some v | None => e_name old end;
     e_highway := match e_highway new with Some v => Some v | None => e_highway old end;
     e_geometry := match e_geometry new with Some v => Some v | None => e_geometry old end;
     e_estimated_addresses :=
       match e_estimated_addresses new with
       | Some v => Some v | None => e_estimated_addresses old end |}.

(** Two edges are the same undirected edge when they join the same
    unordered pair of nodes under the same key. *)
Definition same_undirected (e e' : edge) : bool :=
  Z.eqb (key e) (key e') &&
  ((Z.eqb (src e) (src e') && Z.eqb (dst e) (dst e')) ||
   (Z.eqb (src e) (dst e') && Z.eqb (dst e) (src e'))).

(** Two edges join the same pair of nodes. *)
Definition same_ends (e e' : edge) : Prop :=
  (src e = src e' /\ dst e = dst e') \/ (src e = dst e' /\ dst e = src e').

(** MultiGraph.add_edge with an explicit key. *)
Definition add_undirected (acc : list edge) (e : edge) : list edge :=
  if existsb (same_undirected e) acc
  then map (fun e' => if same_undirected e e'
                      then with_data e' (update_data (data e') (data e))
                      else e') acc
  else acc ++ [e].

Definition to_undirected (G : graph) : route_graph :=
  Undirected (with_edges G (fold_left add_undirected (edges G) [])).

Definition copy (G : graph) : route_graph := Directed G.

(** len(G.edges) *)
Definition number_of_edges (R : route_graph) : nat := length (edges (rg_graph R)).

(** The end points of G.edges(). *)
Definition edge_pairs (R : route_graph) : list (node * node) :=
  map (fun e => (src e, dst e)) (edges (rg_graph R)).

Definition successors (G : graph) (n : node) : list node :=
  first_occurrences
    (map dst (List.filter (fun e => Z.eqb (src e) n) (edges G))).

Definition other_end (n : node) (e : edge) : node :=
  if Z.eqb (src e) n then dst e else src e.

(** The neighbours along edges of either direction. *)
Definition adjacent (G : graph) (n : node) : list node :=
  first_occurrences
    (map (other_end n)
         (List.filter (fun e => Z.eqb (src e) n || Z.eqb (dst e) n) (edges G))).

(** G.neighbors(n) *)
Definition neighbors (R : route_graph) (n : node) : list node :=
  match R with
  | Undirected G => adjacent G n
  | Directed G => successors G n
  end.

(** *** Reachability *)

Definition expand (nbrs : node -> list node) (s : gset node) : gset node :=
  s ∪ list_to_set (flat_map nbrs (elements s)).

(** The nodes reached from [u] in at most [n] steps. *)
Definition reach (nbrs : node -> list node) (n : nat) (u : node) : gset node :=
  Nat.iter n (expand nbrs) {[u]}.

(** nx.has_path(G, source, target) *)
Definition has_path (R : route_graph) (source target : node) : bool :=
  bool_decide (target ∈ reach (neighbors R) (length (nodes (rg_graph R))) source).

(** The weakly connected component of a node. *)
Definition component (G : graph) (n : node) : gset node :=
  reach (adjacent G) (length (nodes G)) n.

Definition components_step (G : graph)
    (acc : list (gset node) * gset node) (n : node)
    : list (gset node) * gset node :=
  let '(comps, seen) := acc in
  if bool_decide (n ∈ seen) then acc
  else let c := component G n in (comps ++ [c], seen ∪ c).

(** nx.weakly_connected_components, in node order. *)
Definition weakly_connected_components (G : graph) : list (gset node) :=
  fst (fold_left (components_step G) (node_ids G) ([], ∅)).

(** nx.is_weakly_connected; the null graph is an exception in networkx. *)
Definition is_weakly_connected (G : graph) : bool :=
  match node_ids G with
  | [] => false
  | n :: _ => Nat.eqb (size (component G n)) (length (nodes G))
  end.

(** G.edge_subgraph(edges).copy() *)
Definition edge_subgraph (G : graph) (sel : list (node * node * Z)) : graph :=
  let chosen e := existsb (fun t => same_edge (fst (fst t)) (snd (fst t)) (snd t) e) sel in
  let es := List.filter chosen (edges G) in
  {| nodes := List.filter
                (fun p => existsb (fun e => Z.eqb (src e) (fst p) || Z.eqb (dst e) (fst p)) es)
                (nodes G);
     edges := es;
     zone_id := zone_id G |}.

(** G.subgraph(nodes).copy() *)
Definition subgraph (G : graph) (keep : gset node) : graph :=
  {| nodes := List.filter (fun p => bool_decide (fst p ∈ keep)) (nodes G);
     edges := List.filter (fun e => bool_decide (src e ∈ keep) && bool_decide (dst e ∈ keep))
                          (edges G);
     zone_id := zone_id G |}.

Definition set_zone_id (G : graph) (z : Z) : graph :=
  {| nodes := nodes G; edges := edges G; zone_id := Some z |}.

End Graph.

(** ** network.py *)

Module Network.
Import Graph.

(** The loop that closes fetch_road_network: a missing name or highway
    tag gets its default. *)
Definition default_tags (e : edge) : edge :=
  with_data e
    {| e_length := e_length (data e);
       e_name := match e_name (data e) with
                 | Some n => Some n
                 | None => Some (Scalar "Unnamed Road")
                 end;
       e_highway := match e_highway (data e) with
                    | Some h => Some h
                    | None => Some (Scalar "unclassified")
                    end;
       e_geometry := e_geometry (data e);
       e_estimated_addresses := e_estimated_addresses (data e) |}.

(** fetch_road_network, from the graph that osmnx built for the polygon
    and completed with edge lengths. *)
Definition fetch_road_network (osm : graph) : graph :=
  with_edges osm (map default_tags (edges osm)).

Definition keep_types : list string :=
  ["residential"; "living_street"; "service"; "unclassified"; "tertiary";
   "secondary"; "tertiary_link"; "secondary_link"]%string.

Definition kept (e : edge) : bool :=
  let highway := tag_value (default (Scalar "unknown") (e_highway (data e))) in
  existsb (String.eqb highway) keep_types
  || existsb (String.eqb highway) ["footway"; "path"; "pedestrian"]%string.

(** The edges of other classes are removed, then the isolated nodes. *)
Definition filter_residential_roads (G : graph) : graph :=
  let es := List.filter kept (edges G) in
  {| nodes := List.filter
                (fun p => existsb (fun e => Z.eqb (src e) (fst p) || Z.eqb (dst e) (fst p)) es)
                (nodes G);
     edges := es;
     zone_id := zone_id G |}.

(** Step 2 of generate_routes; without roads the request is refused. *)
Definition road_network (osm : graph) : outcome graph :=
  let G := filter_residential_roads (fetch_road_network osm) in
  if Nat.eqb (length (edges G)) 0
  then Raises (HTTPException 400
                 "No roads found in the specified area. Try a larger area.")
  else Returns G.

End Network.

(** ** density.py *)

Module Density.
Import Graph.

Record building := {
  b_type : string;
  b_levels : option Z;
  b_centroid : Q * Q
}.

Definition estimate_units_per_building (b : building) : Z :=
  let building_type := b_type b in
  let levels := default 1%Z (b_levels b) in
  if existsb (String.eqb building_type) ["apartments"; "residential"; "house"]%string then
    if String.eqb building_type "apartments" then Z.max (4 * levels) 4 else 1%Z
  else if existsb (String.eqb building_type)
            ["detached"; "semidetached_house"; "terrace"]%string then 1%Z
  else 1%Z.

Definition density_map : list (string * Q) :=
  [("residential", 20); ("living_street", 30); ("service", 5);
   ("unclassified", 15); ("tertiary", 10); ("secondary", 5)]%string%Q.

(** dict.get(key, default) on an association list. *)
Fixpoint dict_get {V} (d : list (string * V)) (k : string) (dflt : V) : V :=
  match d with
  | [] => dflt
  | (k', v) :: rest => if String.eqb k' k then v else dict_get rest k dflt
  end.

(** The body of the loop of estimate_from_road_length on one edge. *)
Definition fallback_estimate (e : edge) : Z :=
  let length_m := length_of e in
  let highway_type :=
    tag_value (default (Scalar "residential") (e_highway (data e))) in
  let density := dict_get density_map highway_type 10%Q in
  let estimated := py_int (Qmult (Qdiv length_m 100) density) in
  Z.max estimated 0.

Definition estimate_from_road_length (G : graph) : graph :=
  with_edges G (map (fun e => set_estimated_addresses e (fallback_estimate e))
                    (edges G)).

Definition get_total_estimated_addresses (G : graph) : Z :=
  Zsum (map addresses_of (edges G)).

Section Assign.
(** shapely's point-to-line distance, in planar degrees. *)
Variable distance : Q * Q -> list (Q * Q) -> Q.

(** The line of an edge: its geometry, or the segment between its ends. *)
Definition edge_line (G : graph) (e : edge) : outcome (list (Q * Q)) :=
  match e_geometry (data e) with
  | Some line => Returns line
  | None =>
      obind (node_attrs G (src e)) (fun du =>
      obind (node_attrs G (dst e)) (fun dv =>
      Returns [(x du, y du); (x dv, y dv)]))
  end.

Fixpoint edge_lines (G : graph) (es : list edge)
    : outcome (list (edge * list (Q * Q))) :=
  match es with
  | [] => Returns []
  | e :: rest =>
      obind (edge_line G e) (fun line =>
      obind (edge_lines G rest) (fun lines => Returns ((e, line) :: lines)))
  end.

(** The inner loop: the first edge at minimum distance; [None] stands for
    the initial (inf, None). *)
Definition nearest_step (centroid : Q * Q) (best : option (Q * edge))
    (el : edge * list (Q * Q)) : option (Q * edge) :=
  let dist := distance centroid (snd el) in
  match best with
  | None => Some (dist, fst el)
  | Some (min_dist, _) =>
      if Qltb dist min_dist then Some (dist, fst el) else best
  end.

Definition add_units (u v : node) (k : Z) (units : Z) (e : edge) : edge :=
  if same_edge u v k e
  then set_estimated_addresses e (addresses_of e + units)
  else e.

Definition assign_building (lines : list (edge * list (Q * Q)))
    (max_distance_m : Q) (es : list edge) (b : building) : list edge :=
  let units := estimate_units_per_building b in
  match fold_left (nearest_step (b_centroid b)) lines None with
  | Some (min_dist, nearest_edge) =>
      if Qltb min_dist (Qdiv max_distance_m 111320)
      then map (add_units (src nearest_edge) (dst nearest_edge)
                          (key nearest_edge) units) es
      else es
  | None => es
  end.

Definition assign_buildings_to_edges (G : graph) (buildings : list building)
    (max_distance_m : Q) : outcome graph :=
  let G0 := with_edges G (map (fun e => set_estimated_addresses e 0) (edges G)) in
  match buildings with
  | [] => Returns (estimate_from_road_length G0)
  | _ =>
      obind (edge_lines G0 (edges G0)) (fun lines =>
      Returns (with_edges G0
                 (fold_left (assign_building lines max_distance_m)
                            buildings (edges G0))))
  end.

(** Step 3 of generate_routes (main.py). *)
Definition estimate_density (G : graph) (buildings : list building)
    : outcome graph :=
  obind (assign_buildings_to_edges G buildings 50) (fun G1 =>
  let total_addresses := get_total_estimated_addresses G1 in
  if Z.eqb total_addresses 0
  then Returns (estimate_from_road_length G1)
  else Returns G1).

End Assign.


End Density.

(** ** partition.py *)

Module Partition.
Import Graph.

Record edge_info := {
  ei_edge : node * node * Z;
  ei_x : Q;
  ei_y : Q;
  ei_weight : Q
}.

Definition Qmax (a b : Q) : Q := if Qltb a b then b else a.

(** Counter(votes).most_common(1)[0][0]: the label with the most votes,
    the first one counted among equals; 0 is the initial np.zeros entry. *)
Definition count_votes (votes : list nat) (c : nat) : nat :=
  length (List.filter (Nat.eqb c) votes).

Definition add_label (acc : list nat) (c : nat) : list nat :=
  if existsb (Nat.eqb c) acc then acc else acc ++ [c].

Definition most_common (votes : list nat) : nat :=
  let labels := fold_left add_label votes [] in
  match labels with
  | [] => 0
  | c0 :: rest =>
      fold_left (fun best c =>
                   if (count_votes votes best <? count_votes votes c)%nat
                   then c else best) rest c0
  end.

(** max(components, key=len): the first component of maximal size. *)
Definition largest_component (components : list (gset node)) : option (gset node) :=
  match components with
  | [] => None
  | c0 :: rest =>
      Some (fold_left (fun best c => if (size best <? size c)%nat then c else best)
                      rest c0)
  end.

(** The connectivity repair of one zone. *)
Definition keep_largest_component (sub : graph) : graph :=
  if (0 <? length (edges sub))%nat then
    if negb (is_weakly_connected sub) then
      match largest_component (weakly_connected_components sub) with
      | Some largest => subgraph sub largest
      | None => sub
      end
    else sub
  else sub.

Section KMeans.
(** shapely's geometry.interpolate(0.5, normalized=True). *)
Variable interpolate_half : list (Q * Q) -> Q * Q.
(** KMeans(n_clusters, random_state=42, n_init=10).fit_predict. *)
Variable fit_predict : nat -> list (Q * Q) -> list nat.

Definition edge_features (G : graph) (balance_priority : string) (e : edge)
    : outcome edge_info :=
  obind
    (match e_geometry (data e) with
     | Some line => Returns (interpolate_half line)
     | None =>
         obind (node_attrs G (src e)) (fun du =>
         obind (node_attrs G (dst e)) (fun dv =>
         Returns (Qdiv (Qplus (x du) (x dv)) 2, Qdiv (Qplus (y du) (y dv)) 2)))
     end)
    (fun mid =>
       let weight :=
         if String.eqb balance_priority "density"
         then inject_Z (addresses_of e) else length_of e in
       Returns {| ei_edge := (src e, dst e, key e);
                  ei_x := fst mid; ei_y := snd mid;
                  ei_weight := Qmax weight 1 |}).

Fixpoint all_edge_features (G : graph) (balance_priority : string)
    (es : list edge) : outcome (list edge_info) :=
  match es with
  | [] => Returns []
  | e :: rest =>
      obind (edge_features G balance_priority e) (fun info =>
      obind (all_edge_features G balance_priority rest) (fun infos =>
      Returns (info :: infos)))
  end.

(** np.mean *)
Definition mean (ws : list Q) : Q := Qdiv (Qsum ws) (inject_Z (Z.of_nat (length ws))).

(** The replicated clustering input: every point with the index of the
    edge it comes from. *)
Definition replicate_points (edge_data : list edge_info) : list (nat * (Q * Q)) :=
  let mean_weight := mean (map ei_weight edge_data) in
  flat_map
    (fun ie : nat * edge_info =>
       let repeats := Z.max 1 (py_int (Qdiv (ei_weight (snd ie)) mean_weight)) in
       replicate (Z.to_nat repeats) (fst ie, (ei_x (snd ie), ei_y (snd ie))))
    (combine (seq 0 (length edge_data)) edge_data).

(** The majority vote: the label of every original edge. *)
Definition cluster_labels (num_zones : nat) (edge_data : list edge_info) : list nat :=
  let weighted := replicate_points edge_data in
  let labels_weighted := fit_predict num_zones (map snd weighted) in
  let votes := combine (map fst weighted) labels_weighted in
  map (fun i => most_common (map snd (List.filter (fun v => Nat.eqb (fst v) i) votes)))
      (seq 0 (length edge_data)).

(** The loop over range(num_zones). *)
Definition make_zone (G : graph) (labelled : list (nat * edge_info))
    (zone : nat) : list graph :=
  let zedges := map (fun p => ei_edge (snd p))
                    (List.filter (fun p => Nat.eqb (fst p) zone) labelled) in
  match zedges with
  | [] => []
  | _ =>
      [set_zone_id (keep_largest_component (edge_subgraph G zedges))
                   (Z.of_nat zone)]
  end.

Definition partition_graph_into_zones (G : graph) (num_zones : nat)
    (balance_priority : string) : outcome (list graph) :=
  if Nat.eqb num_zones 1 then Returns [G]
  else
    obind (all_edge_features G balance_priority (edges G)) (fun edge_data =>
    let labels := cluster_labels num_zones edge_data in
    Returns (flat_map (make_zone G (combine labels edge_data))
                      (seq 0 num_zones))).

End KMeans.

(** get_zone_stats(zone)["estimated_addresses"] *)
Definition zone_estimated_addresses (zone : graph) : Z :=
  Zsum (map addresses_of (edges zone)).

End Partition.

(** ** routing.py *)

Module Routing.
Import Graph.

(** tuple(sorted([u, v])): the key of an edge in visited_edges. *)
Definition edge_key (u v : node) : node * node := (Z.min u v, Z.max u v).

(** The local variables of generate_simple_route across its loop. *)
Record walk_state := {
  visited_edges : gset (node * node);
  route : list node;
  current : node;
  iterations : nat
}.

(** One execution of the loop body ends in the next test of the loop
    condition or in a break. *)
Inductive body_result :=
| Continue (s : walk_state)
| Break (s : walk_state).

(** The state one execution of the body leaves. *)
Definition body_state (r : body_result) : walk_state :=
  match r with Continue s | Break s => s end.

Definition max_iterations (G : route_graph) : nat := number_of_edges G * 3 + 100.

Definition loop_cond (G : route_graph) (s : walk_state) : bool :=
  (size (visited_edges s) <? number_of_edges G)%nat &&
  (iterations s <? max_iterations G)%nat.

(** The list [unvisited] built from G.neighbors(current). *)
Definition unvisited_neighbors (G : route_graph) (visited : gset (node * node))
    (cur : node) : list node :=
  List.filter (fun neighbor => negb (bool_decide (edge_key cur neighbor ∈ visited)))
              (neighbors G cur).

(** The keys under which the edges of the graph can be visited. *)
Definition edge_keys (G : route_graph) : gset (node * node) :=
  list_to_set (map (fun uv => edge_key (fst uv) (snd uv)) (edge_pairs G)).

Definition add_unvisited_ends (visited : gset (node * node))
    (acc : gset node) (uv : node * node) : gset node :=
  if bool_decide (edge_key (fst uv) (snd uv) ∈ visited) then acc
  else acc ∪ {[fst uv]} ∪ {[snd uv]}.

Definition nodes_with_unvisited (G : route_graph)
    (visited : gset (node * node)) : gset node :=
  fold_left (add_unvisited_ends visited) (edge_pairs G) ∅.

Section Walk.
(** nx.shortest_path(G, source, target, weight="length"): networkx picks
    one path of least total length. *)
Variable shortest_path : route_graph -> node -> node -> list node.
(** The order in which Python iterates over a set of nodes. *)
Variable iter_set : gset node -> list node.

(** The body of the loop over the targets; [None] is the initial
    (None, None, inf) of best_target, best_path and best_len. *)
Definition consider (G : route_graph) (cur : node)
    (best : option (node * list node)) (target : node)
    : option (node * list node) :=
  if has_path G cur target then
    let path := shortest_path G cur target in
    match best with
    | None => Some (target, path)
    | Some (_, best_path) =>
        if (length path <? length best_path)%nat then Some (target, path) else best
    end
  else best.

(** What the loop over the targets holds in best_target and best_path:
    a target joined to the current node and the path found to it. *)
Definition chosen (G : route_graph) (cur : node) (targets : list node)
    (best : option (node * list node)) : Prop :=
  match best with
  | None => True
  | Some (t, p) =>
      In t targets /\ has_path G cur t = true /\ p = shortest_path G cur t
  end.

Definition loop_body (G : route_graph) (s : walk_state) : body_result :=
  let iterations' := S (iterations s) in
  match unvisited_neighbors G (visited_edges s) (current s) with
  | next_node :: _ =>
      Continue {| visited_edges := {[edge_key (current s) next_node]} ∪ visited_edges s;
                  route := route s ++ [next_node];
                  current := next_node;
                  iterations := iterations' |}
  | [] =>
      let stay := {| visited_edges := visited_edges s; route := route s;
                     current := current s; iterations := iterations' |} in
      let targets := nodes_with_unvisited G (visited_edges s) in
      if bool_decide (targets = ∅) then Break stay
      else
        match fold_left (consider G (current s)) (iter_set targets) None with
        | Some (best_target, _ :: rest) =>
            Continue {| visited_edges := visited_edges s;
                        route := route s ++ rest;
                        current := best_target;
                        iterations := iterations' |}
        | _ => Break stay
        end
  end.

(** The while loop; [fuel] bounds the executions of the body. *)
Fixpoint while_loop (G : route_graph) (fuel : nat) (s : walk_state) : walk_state :=
  if loop_cond G s then
    match fuel with
    | O => s
    | S fuel' =>
        match loop_body G s with
        | Continue s' => while_loop G fuel' s'
        | Break s' => s'
        end
    end
  else s.

(** The loop as Python runs it, with the number of executions of its
    body. *)
Inductive while_exec (G : route_graph) : walk_state -> walk_state -> nat -> Prop :=
| exec_exit s :
    loop_cond G s = false -> while_exec G s s 0
| exec_break s s' :
    loop_cond G s = true -> loop_body G s = Break s' -> while_exec G s s' 1
| exec_continue s s' s'' n :
    loop_cond G s = true -> loop_body G s = Continue s' ->
    while_exec G s' s'' n -> while_exec G s s'' (S n).

Definition initial_state (start_node : node) : walk_state :=
  {| visited_edges := ∅; route := [start_node]; current := start_node;
     iterations := 0 |}.

(** The closing path appended after the loop. *)
Definition close_route (G : route_graph) (start_node : node)
    (return_to_start : bool) (s : walk_state) : list node :=
  if return_to_start && negb (Z.eqb (current s) start_node) then
    if has_path G (current s) start_node
    then route s ++ tail (shortest_path G (current s) start_node)
    else route s
  else route s.

Definition generate_simple_route (G : route_graph) (start_node : node)
    (return_to_start : bool) : list node :=
  close_route G start_node return_to_start
    (while_loop G (max_iterations G) (initial_state start_node)).

End Walk.

(** Two nodes follow one another in the walk under the key [k]. *)
Definition walked (walk : list node) (k : node * node) : Prop :=
  exists i a b, walk !! i = Some a /\ walk !! S i = Some b /\ k = edge_key a b.

(** The invariant of the loop: the walk ends at the current node, which
    is a node of the graph, and every visited key belongs to an edge of
    the graph and was walked. *)
Record walk_inv (G : route_graph) (s : walk_state) : Prop := {
  inv_last : exists front, route s = front ++ [current s];
  inv_node : In (current s) (node_ids (rg_graph G));
  inv_walked : forall k, k ∈ visited_edges s -> walked (route s) k;
  inv_keys : visited_edges s ⊆ edge_keys G
}.

(** *** find_nearest_node *)

Definition nearest_step (point : Q * Q) (best : option (Q * node))
    (nd : node * node_data) : option (Q * node) :=
  let dlat := Qminus (y (snd nd)) (fst point) in
  let dlng := Qminus (x (snd nd)) (snd point) in
  let dist := Qplus (Qmult dlat dlat) (Qmult dlng dlng) in
  match best with
  | None => Some (dist, fst nd)
  | Some (min_dist, _) => if Qltb dist min_dist then Some (dist, fst nd) else best
  end.

(** [None] is Python's None, returned for a graph without nodes. *)
Definition find_nearest_node (G : graph) (point : Q * Q) : option node :=
  option_map snd (fold_left (nearest_step point) (nodes G) None).

(** *** generate_turn_by_turn *)

Record direction := {
  instruction : string;
  distance_m : Q;
  street_name : string;
  step : option nat
}.

(** zip(route_nodes, route_nodes[1:]) *)
Definition consecutive (route_nodes : list node) : list (node * node) :=
  combine route_nodes (tail route_nodes).

(** The attributes of the first parallel edge between two nodes, looked
    up forwards and then backwards. *)
Definition first_edge_data (G : graph) (u v : node) : option edge_data :=
  let found :=
    match get_edge_data G u v with
    | Some d => Some d
    | None => get_edge_data G v u
    end in
  match found with
  | Some ((_, d) :: _) => Some d
  | _ => None
  end.

Definition raw_direction (G : graph) (i : nat) (uv : node * node) : list direction :=
  match first_edge_data G (fst uv) (snd uv) with
  | Some d =>
      let name := tag_value (default (Scalar "Unnamed Road") (e_name d)) in
      let distance := default 0%Q (e_length d) in
      [{| instruction := ((if Nat.eqb i 0 then "Start on " else "Continue on ") ++ name)%string;
          distance_m := distance;
          street_name := name;
          step := None |}]
  | None => []
  end.

Definition add_distance (d : direction) (extra : Q) : direction :=
  {| instruction := instruction d; distance_m := Qplus (distance_m d) extra;
     street_name := street_name d; step := step d |}.

(** The body of the merging loop. *)
Definition merge_step (merged : list direction) (d : direction) : list direction :=
  match last merged with
  | Some m =>
      if String.eqb (street_name m) (street_name d)
      then removelast merged ++ [add_distance m (distance_m d)]
      else merged ++ [d]
  | None => merged ++ [d]
  end.

Definition renumber (i : nat) (d : direction) : direction :=
  {| instruction := if (0 <? i)%nat then ("Turn onto " ++ street_name d)%string
                    else instruction d;
     distance_m := distance_m d;
     street_name := street_name d;
     step := Some (i + 1)%nat |}.

Definition generate_turn_by_turn (G : graph) (route_nodes : list node)
    : list direction :=
  let directions := concat (imap (raw_direction G) (consecutive route_nodes)) in
  let merged := fold_left merge_step directions [] in
  imap renumber merged.

(** *** generate_route_for_zone *)

Record route_data := {
  waypoints : list (Q * Q);
  geometry : list (Q * Q);
  total_distance_m : Q;
  turn_by_turn : list direction
}.

Fixpoint node_waypoints (zone : graph) (route_nodes : list node)
    : outcome (list (Q * Q)) :=
  match route_nodes with
  | [] => Returns []
  | n :: rest =>
      obind (node_attrs zone n) (fun d =>
      obind (node_waypoints zone rest) (fun wps => Returns ((y d, x d) :: wps)))
  end.

(** The length that two consecutive nodes of a walk contribute, if any. *)
Definition pair_distance (G : graph) (uv : node * node) : list Q :=
  match first_edge_data G (fst uv) (snd uv) with
  | Some d => [default 0%Q (e_length d)]
  | None => []
  end.

Definition add_edge_length (zone : graph) (total : Q) (uv : node * node) : Q :=
  match first_edge_data zone (fst uv) (snd uv) with
  | Some d => Qplus total (default 0%Q (e_length d))
  | None => total
  end.

Definition route_distance (zone : graph) (route_nodes : list node) : Q :=
  fold_left (add_edge_length zone) (consecutive route_nodes) 0%Q.

(** The centroid of the zone's nodes, as (lat, lng). *)
Definition zone_centroid (zone : graph) : Q * Q :=
  let lats := map (fun nd => y (snd nd)) (nodes zone) in
  let lngs := map (fun nd => x (snd nd)) (nodes zone) in
  (Qdiv (Qsum lats) (inject_Z (Z.of_nat (length lats))),
   Qdiv (Qsum lngs) (inject_Z (Z.of_nat (length lngs)))).

Definition select_start (zone : graph) (start_point : option (Q * Q)) : option node :=
  match start_point with
  | Some p => find_nearest_node zone p
  | None => find_nearest_node zone (zone_centroid zone)
  end.

Definition route_view (zone : graph) (travel_mode : string) : route_graph :=
  if String.eqb travel_mode "walking" then to_undirected zone else copy zone.

Section Route.
Variable shortest_path : route_graph -> node -> node -> list node.
Variable iter_set : gset node -> list node.

Definition generate_route_for_zone (zone : graph) (start_point : option (Q * Q))
    (return_to_start : bool) (travel_mode : string) : outcome route_data :=
  if Nat.eqb (length (edges zone)) 0 then
    Returns {| waypoints := []; geometry := []; total_distance_m := 0%Q;
               turn_by_turn := [] |}
  else
    match select_start zone start_point with
    | None => Raises NetworkXError
    | Some start_node =>
        let G_route := route_view zone travel_mode in
        let route_nodes :=
          generate_simple_route shortest_path iter_set G_route start_node
                                return_to_start in
        obind (node_waypoints zone route_nodes) (fun wps =>
        Returns {| waypoints := wps;
                   geometry := map (fun p => (snd p, fst p)) wps;
                   total_distance_m := route_distance zone route_nodes;
                   turn_by_turn := generate_turn_by_turn zone route_nodes |})
    end.

End Route.

(** calculate_route_duration *)
Definition calculate_route_duration (distance_m : Q) (travel_mode : string) : Q :=
  let speed_kmh := (if String.eqb travel_mode "walking" then 4 else 30)%Q in
  let distance_km := Qdiv distance_m 1000 in
  let duration_hours := Qdiv distance_km speed_kmh in
  Qmult duration_hours 60.

End Routing.

(** ** main.py: the orchestrator *)

Module Main.
Import Graph.

(** The flyers of one zone before the rounding fix; true division of two
    ints followed by int(). *)
Definition zone_flyers (total_flyers total_zone_addresses : Z) (num_zones : nat)
    (estimated_addresses : Z) : Z :=
  if (0 <? total_zone_addresses)%Z then
    py_int (Qdiv (inject_Z (total_flyers * estimated_addresses))
                 (inject_Z total_zone_addresses))
  else (total_flyers / Z.of_nat num_zones)%Z.

(** flyers_per_route[0] += diff *)
Definition add_to_first (diff : Z) (flyers : list Z) : list Z :=
  match flyers with
  | [] => []
  | f :: rest => (f + diff)%Z :: rest
  end.

(** Step 5 of generate_routes. *)
Definition allocate_flyers (total_flyers : Z) (zones : list graph) : list Z :=
  let zone_stats_list := map Partition.zone_estimated_addresses zones in
  let total_zone_addresses := Zsum zone_stats_list in
  let flyers_per_route :=
    map (zone_flyers total_flyers total_zone_addresses (length zones))
        zone_stats_list in
  let diff := (total_flyers - Zsum flyers_per_route)%Z in
  if Z.eqb diff 0 then flyers_per_route else add_to_first diff flyers_per_route.

Definition zone_colors : list string :=
  ["#e74c3c"; "#3498db"; "#2ecc71"; "#f39c12"; "#9b59b6"; "#1abc9c";
   "#e67e22"; "#34495e"; "#c0392b"; "#2980b9"; "#27ae60"; "#d35400";
   "#8e44ad"; "#16a085"; "#f1c40f"; "#7f8c8d"; "#2c3e50"; "#d63031";
   "#0984e3"; "#00b894"]%string.

Record route := {
  route_id : nat;
  route_zone_id : nat;
  color : string;
  assigned_flyers : Z;
  estimated_addresses : Z;
  total_distance_m : Q;
  estimated_duration_min : Z;
  geometry : list (Q * Q);
  turn_by_turn : list Routing.direction;
  waypoints : list (Q * Q);
  google_maps_url : option Exports.directions_url
}.

Section Routes.
Variable shortest_path : route_graph -> node -> node -> list node.
Variable iter_set : gset node -> list node.

(** The body of the loop of step 6. *)
Definition make_route (start_pt : option (Q * Q)) (return_to_start : bool)
    (travel_mode : string) (i : nat) (zone : graph) (flyers : Z)
    : outcome route :=
  obind (Routing.generate_route_for_zone shortest_path iter_set zone start_pt
           return_to_start travel_mode) (fun route_data =>
  let duration_min :=
    Routing.calculate_route_duration (Routing.total_distance_m route_data)
                                     travel_mode in
  Returns {| route_id := i + 1;
             route_zone_id := i + 1;
             color := default ""%string
                        (zone_colors !! (i mod length zone_colors)%nat);
             assigned_flyers := flyers;
             estimated_addresses := Partition.zone_estimated_addresses zone;
             total_distance_m := Routing.total_distance_m route_data;
             estimated_duration_min := Z.max 1 (py_int duration_min);
             geometry := Routing.geometry route_data;
             turn_by_turn := Routing.turn_by_turn route_data;
             waypoints := Routing.waypoints route_data;
             google_maps_url :=
               Exports.google_maps_directions (Routing.waypoints route_data)
                                              travel_mode |}).

Fixpoint make_routes (start_pt : option (Q * Q)) (return_to_start : bool)
    (travel_mode : string) (i : nat) (zones : list graph) (flyers : list Z)
    : outcome (list route) :=
  match zones, flyers with
  | zone :: zones', f :: flyers' =>
      obind (make_route start_pt return_to_start travel_mode i zone f) (fun r =>
      obind (make_routes start_pt return_to_start travel_mode (S i) zones' flyers')
            (fun rs => Returns (r :: rs)))
  | _, _ => Returns []
  end.

(** Steps 5 and 6 of generate_routes, from the zones of the partition to
    the routes of the job. *)
Definition routes_for_zones (total_flyers : Z) (start_pt : option (Q * Q))
    (return_to_start : bool) (travel_mode : string) (zones : list graph)
    : outcome (list route) :=
  if Nat.eqb (length zones) 0
  then Raises (HTTPException 500 "Failed to create zones")
  else make_routes start_pt return_to_start travel_mode 0 zones
                   (allocate_flyers total_flyers zones).

End Routes.

(** The job store: jobs[job_id] = result.  The exports read nothing of a
    job but its routes. *)
Definition jobs : Type := gmap string (list route).

Definition store_job (store : jobs) (job_id : string) (routes : list route) : jobs :=
  <[job_id := routes]> store.

(** next((r for r in job_data["routes"] if r["route_id"] == route_id), None) *)
Definition find_route (routes : list route) (wanted : Z) : option route :=
  List.find (fun r => Z.eqb (Z.of_nat (route_id r)) wanted) routes.

Record response := {
  content : string;
  media_type : string;
  filename : string
}.

Section ExportGpx.
(** generate_gpx and generate_gpx_for_all_routes (export.py, over gpxpy). *)
Variable generate_gpx : route -> string.
Variable generate_gpx_for_all_routes : list route -> string.
(** An int in an f-string. *)
Variable str : Z -> string.

(** GET /api/export/{job_id}/gpx *)
Definition export_gpx (store : jobs) (job_id : string) (wanted : option Z)
    : outcome response :=
  match store !! job_id with
  | None => Raises (HTTPException 404 "Job not found")
  | Some routes =>
      match wanted with
      | Some k =>
          match find_route routes k with
          | None => Raises (HTTPException 404 "Route not found")
          | Some r =>
              Returns {| content := generate_gpx r;
                         media_type := "application/gpx+xml";
                         filename := ("route_" ++ str k ++ ".gpx")%string |}
          end
      | None =>
          Returns {| content := generate_gpx_for_all_routes routes;
                     media_type := "application/gpx+xml";
                     filename := "all_routes.gpx" |}
      end
  end.

End ExportGpx.
End Main.

(** ** Reference instances of the library behaviour left open above *)

Module Reference.
Import Graph.

(** The directed arcs a traversal may follow, with their lengths. *)
Definition arcs (R : route_graph) : list (node * node * Q) :=
  match R with
  | Directed G => map (fun e => (src e, dst e, length_of e)) (edges G)
  | Undirected G =>
      flat_map (fun e => [(src e, dst e, length_of e); (dst e, src e, length_of e)])
               (edges G)
  end.

(** One Bellman-Ford relaxation of an arc; the table maps a node to the
    length of the best path found so far and that path. *)
Definition relax (table : gmap node (Q * list node)) (arc : node * node * Q)
    : gmap node (Q * list node) :=
  let '(a, b, len) := arc in
  match table !! a with
  | None => table
  | Some (da, pa) =>
      let candidate := (Qplus da len, pa ++ [b]) in
      match table !! b with
      | None => <[b := candidate]> table
      | Some (db, _) =>
          if Qltb (Qplus da len) db then <[b := candidate]> table else table
      end
  end.

Definition relax_all (R : route_graph) (table : gmap node (Q * list node))
    : gmap node (Q * list node) :=
  fold_left relax (arcs R) table.

(** A path of least total length; the empty list when there is none. *)
Definition shortest_path (R : route_graph) (source target : node) : list node :=
  let table := Nat.iter (length (nodes (rg_graph R))) (relax_all R)
                        {[source := (0%Q, [source])]} in
  match table !! target with
  | Some (_, path) => path
  | None => []
  end.

Definition iter_set (s : gset node) : list node := elements s.

End Reference.

(** ** Sample inputs *)

Module Samples.
Import Graph.
Local Open Scope Z_scope.

Definition road (name : string) (len : Q) (addresses : Z) : edge_data :=
  {| e_length := Some len; e_name := Some (Scalar name);
     e_highway := Some (Scalar "residential"); e_geometry := None;
     e_estimated_addresses := Some addresses |}.

Definition at_ (n : node) (lat lng : Q) : node * node_data :=
  (n, {| x := lng; y := lat |}).

Definition arc (u v : node) (d : edge_data) : edge :=
  {| src := u; dst := v; key := 0; data := d |}.

(** Two one-way streets that meet at node 1: 1 -> 2 and 3 -> 1. *)
Definition one_way_fork : graph :=
  {| nodes := [at_ 1 0 0; at_ 2 1 0; at_ 3 (-1) 0];
     edges := [arc 1 2 (road "Elm Street" 100 1); arc 3 1 (road "Oak Street" 100 1)];
     zone_id := Some 0%Z |}.

(** Two streets without a common node. *)
Definition two_roads : graph :=
  {| nodes := [at_ 1 0 0; at_ 2 0 1; at_ 3 5 0; at_ 4 5 1];
     edges := [arc 1 2 (road "Elm Street" 100 1); arc 3 4 (road "Oak Street" 100 1)];
     zone_id := None |}.

(** A block of three streets, two of them sharing a name. *)
Definition triangle : graph :=
  {| nodes := [at_ 1 0 0; at_ 2 0 1; at_ 3 1 0];
     edges := [arc 1 2 (road "Elm Street" 100 3); arc 2 3 (road "Elm Street" 150 2);
               arc 3 1 (road "Oak Street" 120 4)];
     zone_id := Some 0%Z |}.

(** A zone of a single street with a given address estimate. *)
Definition street_zone (addresses : Z) : graph :=
  {| nodes := [at_ 1 0 0; at_ 2 0 1];
     edges := [arc 1 2 (road "Elm Street" 100 addresses)];
     zone_id := Some 0%Z |}.

(** A graph without edges. *)
Definition empty_zone : graph := {| nodes := []; edges := []; zone_id := None |}.

(** An edge whose length does not divide evenly. *)
Definition service_lane : edge :=
  arc 1 2 {| e_length := Some (250 # 3)%Q; e_name := None;
             e_highway := Some (Listed "service" ["residential"%string]);
             e_geometry := None; e_estimated_addresses := None |}.

Definition lane_graph : graph :=
  {| nodes := [at_ 1 0 0; at_ 2 0 1]; edges := [service_lane]; zone_id := None |}.

(** [n] waypoints along a meridian. *)
Definition meridian (n : nat) : list Exports.waypoint :=
  map (fun i => (inject_Z (Z.of_nat i), 0%Q)) (seq 0%nat n).

End Samples.

(** ** The flyer allocation in the words of the specification *)

Module Spec.
Import Graph.
Local Open Scope Z_scope.




(** A walk traverses an edge when the two ends of the edge follow one
    another in it, in either order. *)
Definition traverses (walk : list node) (e : edge) : Prop :=
  exists i a b, walk !! i = Some a /\ walk !! S i = Some b /\
    ((a = src e /\ b = dst e) \/ (a = dst e /\ b = src e)).

(** Any two nodes of the graph are joined by a path the traversal may
    follow. *)
Definition path_connected (R : route_graph) : Prop :=
  forall u v, In u (node_ids (rg_graph R)) -> In v (node_ids (rg_graph R)) ->
    has_path R u v = true.

(** The zone is weakly connected: its undirected projection is connected. *)
Definition weakly_connected (zone : graph) : Prop :=
  path_connected (to_undirected zone).

(** The zone is strongly connected: connected along the edge directions. *)
Definition strongly_connected (zone : graph) : Prop :=
  path_connected (copy zone).

(** What the walk relies on from nx.shortest_path: between two nodes
    joined by a path it returns a list that starts at the source and ends
    at the target. *)
Definition returns_paths
    (shortest_path : route_graph -> node -> node -> list node)
    (R : route_graph) : Prop :=
  forall u v, In u (node_ids (rg_graph R)) -> In v (node_ids (rg_graph R)) ->
    has_path R u v = true ->
    exists rest, shortest_path R u v = u :: rest /\ last (u :: rest) = Some v.

(** Iterating over a set yields its elements, in whatever order. *)
Definition iterates_elements (iter_set : gset node -> list node) : Prop :=
  forall (s : gset node) (n : node), In n (iter_set s) <-> n ∈ s.

(** The loop was left before its counter reached the cap. *)
Definition cap_not_reached (R : route_graph) (s : Routing.walk_state) : Prop :=
  (Routing.iterations s < Routing.max_iterations R)%nat.

(** Every edge of a graph joins two of its nodes. *)
Definition well_formed (G : graph) : Prop :=
  forall e, In e (edges G) -> In (src e) (node_ids G) /\ In (dst e) (node_ids G).

(** No two adjacent steps carry the same street name. *)
Fixpoint no_repeated_street (steps : list Routing.direction) : Prop :=
  match steps with
  | a :: (b :: _) as rest =>
      Routing.street_name a <> Routing.street_name b /\ no_repeated_street rest
  | _ => True
  end.

End Spec.

(** ** Further notions in which properties of the code are stated *)

Module Laws.
Import Graph.

(** Consecutive nodes of the walk are neighbours in the graph: joined by
    an edge in the undirected view, by an edge from the first to the
    second in the directed one. *)
Fixpoint follows_edges (R : route_graph) (walk : list node) : Prop :=
  match walk with
  | a :: (b :: _) as rest => In b (neighbors R a) /\ follows_edges R rest
  | _ => True
  end.

(** nx.shortest_path in full: between two nodes joined by a path it
    returns a list that starts at the source, ends at the target and
    goes from neighbour to neighbour. *)
Definition returns_walks
    (shortest_path : route_graph -> node -> node -> list node)
    (R : route_graph) : Prop :=
  forall u v, In u (node_ids (rg_graph R)) -> In v (node_ids (rg_graph R)) ->
    has_path R u v = true ->
    exists rest, shortest_path R u v = u :: rest /\
                 last (u :: rest) = Some v /\
                 follows_edges R (u :: rest).


(** The loop counter stays within twice the visited keys, plus one after
    a bridge, which ends at a node with an unvisited edge. *)
Definition paced (R : route_graph) (s : Routing.walk_state) : Prop :=
  Routing.visited_edges s ⊆ Routing.edge_keys R /\
  ((Routing.iterations s <= 2 * size (Routing.visited_edges s))%nat \/
   ((Routing.iterations s <= 2 * size (Routing.visited_edges s) + 1)%nat /\
    Routing.unvisited_neighbors R (Routing.visited_edges s)
      (Routing.current s) <> [])).

(** The walk so far goes from neighbour to neighbour through nodes of
    the graph and ends at the current node. *)
Record sound_walk (R : route_graph) (s : Routing.walk_state) : Prop := {
  sound_last : exists front, Routing.route s = front ++ [Routing.current s];
  sound_node : In (Routing.current s) (node_ids (rg_graph R));
  sound_steps : follows_edges R (Routing.route s)
}.

(** All of an edge but its address estimate. *)
Definition edge_frame (e : edge)
    : node * node * Z * option Q * option tag * option tag * option (list (Q * Q)) :=
  (src e, dst e, key e, e_length (data e), e_name (data e), e_highway (data e),
   e_geometry (data e)).

(** An edge with an address estimate that is not negative. *)
Definition counted (e : edge) : Prop :=
  exists a, e_estimated_addresses (data e) = Some a /\ (0 <= a)%Z.

(** The identity of an edge in a multigraph: its ends and its key. *)
Definition edge_id (e : edge) : node * node * Z := (src e, dst e, key e).

(** The nearest edge of a building, as the inner loop of
    assign_buildings_to_edges finds it. *)
Definition nearest_edge (distance : Q * Q -> list (Q * Q) -> Q)
    (lines : list (edge * list (Q * Q))) (b : Density.building)
    : option (Q * edge) :=
  fold_left (Density.nearest_step distance (Density.b_centroid b)) lines None.

(** The building is counted: it has a nearest edge, closer than the
    threshold. *)
Definition accepted (distance : Q * Q -> list (Q * Q) -> Q)
    (lines : list (edge * list (Q * Q))) (max_distance_m : Q)
    (b : Density.building) : bool :=
  match nearest_edge distance lines b with
  | Some (min_dist, _) => Qltb min_dist (Qdiv max_distance_m 111320)
  | None => false
  end.

(** A set of nodes that no adjacency leads out of. *)
Definition closed_under (nbrs : node -> list node) (c : gset node) : Prop :=
  forall u v, u ∈ c -> In v (nbrs u) -> v ∈ c.

(** Adjacency that reads the same in both directions. *)
Definition symmetric (nbrs : node -> list node) : Prop :=
  forall u v, In v (nbrs u) -> In u (nbrs v).

End Laws.

(** * Theorems *)

(** ** Arithmetic of the exact model *)

Section Sums.
Import Graph.
Local Open Scope Z_scope.

Lemma Zsum_from (l : list Z) (a : Z) : fold_left Z.add l a = a + Zsum l.
Proof.
  unfold Zsum. revert a. induction l as [|b l IH]; intros a; cbn [fold_left].
  - lia.
  - rewrite (IH (a + b)), (IH (0 + b)). lia.
Qed.

Lemma Zsum_cons (a : Z) (l : list Z) : Zsum (a :: l) = a + Zsum l.
Proof. unfold Zsum at 1. simpl. apply Zsum_from. Qed.






End Sums.

(** ** C1: flyer allocation *)

Section Flyers.
Import Graph.
Local Open Scope Z_scope.






Lemma allocate_flyers_length (total_flyers : Z) (zones : list graph) :
  length (Main.allocate_flyers total_flyers zones) = length zones.
Proof.
  unfold Main.allocate_flyers.
  match goal with |- context [map ?f ?l] => set (fl := map f l) end.
  assert (length fl = length zones) by (subst fl; now rewrite !length_map).
  destruct (Z.eqb _ 0); [assumption|].
  destruct fl; simpl in *; assumption.
Qed.

Section Routes.
Variable shortest_path : route_graph -> node -> node -> list node.
Variable iter_set : gset node -> list node.


End Routes.
End Flyers.




(** ** C7: the road-length fallback *)

Section Fallback.
Import Graph.




End Fallback.



(** ** C3: zones of the partition *)

(** With one zone requested the graph is handed back as it is. *)
Lemma partition_single_zone interpolate_half fit_predict (G : Graph.graph)
    (balance_priority : string) :
  Partition.partition_graph_into_zones interpolate_half fit_predict G 1
    balance_priority = Returns [G].
Proof. reflexivity. Qed.

(** C3 at K = 1: two streets left without a common node by the road
    filter come back as one zone, and that zone is not weakly
    connected. *)
Theorem single_zone_not_connected :
  forall interpolate_half fit_predict,
    Partition.partition_graph_into_zones interpolate_half fit_predict
      Samples.two_roads 1 "density" = Returns [Samples.two_roads] /\
    Graph.is_weakly_connected Samples.two_roads = false /\
    Graph.has_path (Graph.to_undirected Samples.two_roads) 1%Z 3%Z = false.
Proof. intros. split; [reflexivity|]. vm_compute. split; reflexivity. Qed.

(** ** C4: the Google Maps URL *)

Section Url.
Import Exports.

Lemma interior_length {A} (l : list A) : length (interior l) = (length l - 2)%nat.
Proof.
  unfold interior. destruct l as [|a l]; [reflexivity|].
  cbn [tail]. rewrite removelast_firstn_len, length_take. simpl. lia.
Qed.

Lemma url_points_bound (waypoints : list waypoint) (travel_mode : string) :
  (url_points waypoints travel_mode <= Nat.max 2 (length (sample_waypoints waypoints)))%nat.
Proof.
  unfold url_points, google_maps_directions.
  destruct (length waypoints <? 2)%nat; [lia|].
  destruct (head (sample_waypoints waypoints)); [|lia].
  destruct (last (sample_waypoints waypoints)); [|lia].
  unfold encoded_points. cbn [waypoints_param].
  destruct (2 <? length (sample_waypoints waypoints))%nat; [|lia].
  rewrite interior_length. lia.
Qed.

(** The sampled branch, and lists of at most 23 waypoints, respect the
    limit. *)
Lemma url_points_sampled (waypoints : list waypoint) (travel_mode : string) :
  (length waypoints <= 23 \/ 25 < length waypoints)%nat ->
  (url_points waypoints travel_mode <= 23)%nat.
Proof.
  intros Hlen. pose proof (url_points_bound waypoints travel_mode) as Hb.
  unfold sample_waypoints, max_wp in Hb.
  destruct (Nat.ltb_spec (23 + 2) (length waypoints)) as [Hlt|Hge].
  - rewrite length_take in Hb. lia.
  - lia.
Qed.

End Url.


(** ** C5: the circle polygon *)

Section Circle.
Import Area.
Local Open Scope R_scope.

Lemma Polygon_accepts (points : list (R * R)) :
  (3 <= length points)%nat -> Polygon points = Returns points.
Proof.
  destruct points as [|a [|b [|c l]]]; simpl; intros H; try lia; reflexivity.
Qed.

End Circle.

(** C5, as amended: create_circle_polygon validates nothing.  For every
    centre, every radius (r <= 0 included) and every n >= 3 it returns
    the n-gon whose vertex i is, as (lng, lat), the equirectangular
    placement of the angle 2*pi*i/n. *)
Theorem circle_polygon_vertices (lat0 lng0 r : R) (n : nat) :
  (3 <= n)%nat ->
  exists points,
    Area.create_circle_polygon lat0 lng0 r n = Returns points /\
    length points = n /\
    forall i, (i < n)%nat ->
      points !! i =
      Some ((lng0 + (r * cos (2 * PI * INR i / INR n))
                    / (111320 * cos (lat0 * PI / 180)))%R,
            (lat0 + (r * sin (2 * PI * INR i / INR n)) / 111320)%R).
Proof.
  intros Hn. unfold Area.create_circle_polygon.
  eexists. split; [apply Polygon_accepts; rewrite length_map, length_seq; exact Hn|].
  split; [now rewrite length_map, length_seq|].
  intros i Hi. rewrite list_lookup_fmap, lookup_seq_lt by exact Hi.
  cbn [fmap option_fmap option_map Nat.add].
  unfold Area.circle_vertex, Area.radians. f_equal. f_equal.
  - unfold Rdiv. ring.
  - unfold Rdiv. ring.
Qed.

Lemma circle_polygon_vertices_witness :
  exists points,
    Area.create_circle_polygon 0 0 (-1) 64 = Returns points /\ length points = 64%nat.
Proof.
  destruct (circle_polygon_vertices 0 0 (-1) 64) as (points & Hret & Hlen & _).
  - lia.
  - exists points. split; assumption.
Defined.

(** C5 as stated fails: a circle of radius 0 (and one centred at latitude
    91) is accepted, by create_circle_polygon and by the geometry step of
    generate_routes. *)
Lemma circle_validation_counterexample :
  (0 <= 0)%R /\ (Rabs 91 > 90)%R /\
  ~ raises (Area.create_circle_polygon 0 0 0 Area.default_num_points) /\
  ~ raises (Area.create_circle_polygon 91 0 1000 Area.default_num_points) /\
  ~ raises (Area.create_geometry (Area.Circle {| Area.lat := 0; Area.lng := 0 |} 0)).
Proof.
  split; [lra|]. split; [rewrite Rabs_right; lra|].
  unfold Area.create_geometry, Area.create_circle_polygon, Area.default_num_points.
  cbn [seq map Area.Polygon raises Area.lat Area.lng]. tauto.
Qed.

(** ** C10: a zone without edges *)

(** C10: for a zone with zero edges generate_route_for_zone returns the
    record with no waypoints, no coordinates, distance 0 and no steps. *)
Theorem empty_zone_route
    (shortest_path : Graph.route_graph -> Graph.node -> Graph.node -> list Graph.node)
    (iter_set : gset Graph.node -> list Graph.node)
    (zone : Graph.graph) (start_point : option (Q * Q)) (return_to_start : bool)
    (travel_mode : string) :
  length (Graph.edges zone) = 0%nat ->
  Routing.generate_route_for_zone shortest_path iter_set zone start_point
    return_to_start travel_mode =
  Returns {| Routing.waypoints := []; Routing.geometry := [];
             Routing.total_distance_m := 0; Routing.turn_by_turn := [] |}.
Proof.
  intros Hlen. unfold Routing.generate_route_for_zone. now rewrite Hlen.
Qed.

Lemma empty_zone_route_witness :
  Routing.generate_route_for_zone Reference.shortest_path Reference.iter_set
    Samples.empty_zone None true "driving" =
  Returns {| Routing.waypoints := []; Routing.geometry := [];
             Routing.total_distance_m := 0; Routing.turn_by_turn := [] |}.
Proof. apply (empty_zone_route _ _ Samples.empty_zone). reflexivity. Defined.
(** ** C8 and C9: the loop of generate_simple_route *)

Section WalkLoop.
Import Graph Routing.
Variable shortest_path : route_graph -> node -> node -> list node.
Variable iter_set : gset node -> list node.
Variable G : route_graph.

Abbreviation loop_body := (Routing.loop_body shortest_path iter_set G).
Abbreviation while_loop := (Routing.while_loop shortest_path iter_set G).
Abbreviation while_exec := (Routing.while_exec shortest_path iter_set G).

Lemma loop_body_iterations (s : walk_state) :
  iterations (body_state (loop_body s)) = S (iterations s).
Proof.
  unfold Routing.loop_body.
  destruct (unvisited_neighbors G (visited_edges s) (current s)); [|reflexivity].
  destruct (bool_decide _); [reflexivity|].
  destruct (fold_left _ _ _) as [[t [|c rest]]|]; reflexivity.
Qed.

(** The body only ever appends to the route. *)
Lemma loop_body_route (s : walk_state) :
  exists more, route (body_state (loop_body s)) = route s ++ more.
Proof.
  unfold Routing.loop_body.
  destruct (unvisited_neighbors G (visited_edges s) (current s)) as [|n ns].
  - destruct (bool_decide _); [exists []; cbn; now rewrite app_nil_r|].
    destruct (fold_left _ _ _) as [[t [|c rest]]|]; cbn;
      eauto using app_nil_r; exists []; now rewrite app_nil_r.
  - cbn. eauto.
Qed.

Lemma loop_cond_iterations (s : walk_state) :
  loop_cond G s = true -> (iterations s < max_iterations G)%nat.
Proof.
  unfold loop_cond. intros H. apply andb_prop in H as [_ H].
  now apply Nat.ltb_lt in H.
Qed.

(** With fuel for the iterations the counter still allows, the function
    computes the run of the loop. *)
Lemma while_loop_exec (fuel : nat) (s : walk_state) :
  (max_iterations G - iterations s <= fuel)%nat ->
  exists n, while_exec s (while_loop fuel s) n /\
            (n <= max_iterations G - iterations s)%nat.
Proof.
  revert s. induction fuel as [|fuel IH]; intros s Hfuel.
  - cbn. destruct (loop_cond G s) eqn:Hc.
    + apply loop_cond_iterations in Hc. lia.
    + exists 0%nat. split; [now constructor|lia].
  - cbn. destruct (loop_cond G s) eqn:Hc.
    + pose proof (loop_cond_iterations s Hc) as Hlt.
      pose proof (loop_body_iterations s) as Hit.
      destruct (loop_body s) as [s'|s'] eqn:Hb; cbn in Hit.
      * destruct (IH s') as (n & Hexec & Hn); [lia|].
        exists (S n). split; [eapply exec_continue; eauto|lia].
      * exists 1%nat. split; [eapply exec_break; eauto|lia].
    + exists 0%nat. split; [now constructor|lia].
Qed.

(** The run of the loop is unique. *)
Lemma while_exec_functional (s s1 s2 : walk_state) (n1 n2 : nat) :
  while_exec s s1 n1 -> while_exec s s2 n2 -> s1 = s2 /\ n1 = n2.
Proof.
  intros H1. revert s2 n2.
  induction H1 as [s Hc|s s' Hc Hb|s s' s'' n Hc Hb _ IH]; intros s2 n2 H2;
    inversion H2 as [? Hc2|? t Hc2 Hb2|? t t' m Hc2 Hb2 Hrest]; subst;
    try congruence; auto.
  - split; congruence.
  - assert (s' = t) by congruence. subst.
    destruct (IH _ _ Hrest); subst; auto.
Qed.

(** An invariant of the state that the body preserves holds when the
    loop is left. *)
Lemma while_exec_invariant (P : walk_state -> Prop) (s s' : walk_state) (n : nat) :
  (forall s, P s -> loop_cond G s = true -> P (body_state (loop_body s))) ->
  while_exec s s' n -> P s -> P s'.
Proof.
  intros Hstep Hexec. induction Hexec as [s Hc|s s' Hc Hb|s s' s'' n Hc Hb _ IH];
    intros HP; auto.
  - specialize (Hstep s HP Hc). now rewrite Hb in Hstep.
  - apply IH. specialize (Hstep s HP Hc). now rewrite Hb in Hstep.
Qed.

Lemma generate_simple_route_run (start_node : node) (return_to_start : bool) :
  exists s n,
    while_exec (initial_state start_node) s n /\
    (n <= max_iterations G)%nat /\
    generate_simple_route shortest_path iter_set G start_node return_to_start =
    close_route shortest_path G start_node return_to_start s.
Proof.
  destruct (while_loop_exec (max_iterations G) (initial_state start_node))
    as (n & Hexec & Hn); [lia|].
  eexists _, n. split; [exact Hexec|]. split; [lia|reflexivity].
Qed.

Lemma close_route_prefix (start_node : node) (return_to_start : bool)
    (s : walk_state) :
  exists more,
    close_route shortest_path G start_node return_to_start s = route s ++ more.
Proof.
  unfold close_route.
  destruct (return_to_start && _); [|exists []; now rewrite app_nil_r].
  destruct (has_path _ _ _); [eauto|exists []; now rewrite app_nil_r].
Qed.

Lemma generate_simple_route_head (start_node : node) (return_to_start : bool) :
  exists rest,
    generate_simple_route shortest_path iter_set G start_node return_to_start =
    start_node :: rest.
Proof.
  destruct (generate_simple_route_run start_node return_to_start)
    as (s & n & Hexec & _ & ->).
  assert (Hroute : exists rest, route s = start_node :: rest).
  { eapply (while_exec_invariant (fun s => exists rest, route s = start_node :: rest));
      [|exact Hexec|exists []; reflexivity].
    intros s0 [rest Hr] _. destruct (loop_body_route s0) as [more ->].
    rewrite Hr. cbn. eauto. }
  destruct Hroute as [rest Hr].
  destruct (close_route_prefix start_node return_to_start s) as [more ->].
  rewrite Hr. cbn. eauto.
Qed.

End WalkLoop.

(** C8: generate_simple_route terminates on every graph and from every
    start node, and its loop runs its body at most 3*|E| + 100 times: the
    loop has a run of at most that many iterations, and the route
    returned is the one that run leaves, closed as requested. *)
Theorem walk_terminates
    (shortest_path : Graph.route_graph -> Graph.node -> Graph.node -> list Graph.node)
    (iter_set : gset Graph.node -> list Graph.node)
    (G : Graph.route_graph) (start_node : Graph.node) (return_to_start : bool) :
  exists (s : Routing.walk_state) (n : nat),
    Routing.while_exec shortest_path iter_set G
      (Routing.initial_state start_node) s n /\
    (n <= 3 * Graph.number_of_edges G + 100)%nat /\
    Routing.generate_simple_route shortest_path iter_set G start_node
      return_to_start =
    Routing.close_route shortest_path G start_node return_to_start s.
Proof.
  destruct (generate_simple_route_run shortest_path iter_set G start_node
              return_to_start) as (s & n & Hexec & Hn & Heq).
  exists s, n. unfold Routing.max_iterations in Hn.
  split; [exact Hexec|]. split; [lia|exact Heq].
Qed.

Section FirstWaypoint.
Import Graph Routing.

Lemma node_waypoints_head (zone : graph) (n : node) (rest : list node)
    (wps : list (Q * Q)) :
  node_waypoints zone (n :: rest) = Returns wps ->
  exists d, node_attrs zone n = Returns d /\ head wps = Some (y d, x d).
Proof.
  cbn. destruct (node_attrs zone n) as [d|]; [|discriminate]. cbn.
  destruct (node_waypoints zone rest); [|discriminate]. cbn.
  intros H. inversion H; subst. eauto.
Qed.

End FirstWaypoint.

(** C9: on a graph that contains the start node the walk of
    generate_simple_route is non-empty and begins with the start node;
    hence a route generated for a zone with at least one edge has as its
    first waypoint the (lat, lng) of the selected start node, whatever
    return_to_start and travel_mode are. *)
Theorem route_begins_at_start
    (shortest_path : Graph.route_graph -> Graph.node -> Graph.node -> list Graph.node)
    (iter_set : gset Graph.node -> list Graph.node) :
  (forall (G : Graph.route_graph) (start_node : Graph.node) (return_to_start : bool),
     In start_node (Graph.node_ids (Graph.rg_graph G)) ->
     exists rest,
       Routing.generate_simple_route shortest_path iter_set G start_node
         return_to_start = start_node :: rest) /\
  (forall (zone : Graph.graph) (start_point : option (Q * Q))
          (return_to_start : bool) (travel_mode : string) (r : Routing.route_data),
     (0 < length (Graph.edges zone))%nat ->
     Routing.generate_route_for_zone shortest_path iter_set zone start_point
       return_to_start travel_mode = Returns r ->
     exists start_node d,
       Routing.select_start zone start_point = Some start_node /\
       Graph.node_attrs zone start_node = Returns d /\
       head (Routing.waypoints r) = Some (Graph.y d, Graph.x d)).
Proof.
  split.
  - intros G start_node return_to_start _. apply generate_simple_route_head.
  - intros zone start_point return_to_start travel_mode r Hedges Hret.
    unfold Routing.generate_route_for_zone in Hret.
    destruct (Nat.eqb_spec (length (Graph.edges zone)) 0) as [Hz|_]; [lia|].
    destruct (Routing.select_start zone start_point) as [start_node|];
      [|discriminate].
    destruct (generate_simple_route_head shortest_path iter_set
                (Routing.route_view zone travel_mode) start_node return_to_start)
      as [rest Hhead].
    rewrite Hhead in Hret.
    destruct (Routing.node_waypoints zone (start_node :: rest)) as [wps|] eqn:Hw;
      [|discriminate].
    cbn in Hret. inversion Hret; subst. cbn.
    destruct (node_waypoints_head _ _ _ _ Hw) as (d & Hd & Hh). eauto.
Qed.

Lemma route_begins_at_start_witness :
  (exists rest,
     Routing.generate_simple_route Reference.shortest_path Reference.iter_set
       (Graph.copy Samples.triangle) 1%Z true = 1%Z :: rest) /\
  (exists r,
     Routing.generate_route_for_zone Reference.shortest_path Reference.iter_set
       Samples.triangle None true "driving" = Returns r /\
     head (Routing.waypoints r) = Some (0%Q, 0%Q)).
Proof.
  destruct (route_begins_at_start Reference.shortest_path Reference.iter_set)
    as [Hwalk Hroute].
  split.
  - apply (Hwalk (Graph.copy Samples.triangle) 1%Z true). cbn. auto.
  - eexists. split; [vm_compute; reflexivity|].
    match goal with |- head (Routing.waypoints ?r) = _ =>
      destruct (Hroute Samples.triangle None true "driving"%string r)
        as (start_node & d & Hs & Hd & Hh)
    end.
    + cbn. lia.
    + vm_compute. reflexivity.
    + vm_compute in Hs. injection Hs as <-. vm_compute in Hd.
      injection Hd as <-. vm_compute. reflexivity.
Defined.

(** ** C6: turn-by-turn merging *)

Section Rationals.
Import Graph.

(** Sums of rationals are compared as fractions, numerator and
    denominator, not only in value. *)
Lemma Qplus_assoc_eq (a b c : Q) : Qplus (Qplus a b) c = Qplus a (Qplus b c).
Proof.
  destruct a as [an ad], b as [bn bd], c as [cn cd]. unfold Qplus. cbn.
  f_equal; [|apply eq_sym, Pos.mul_assoc].
  rewrite !Pos2Z.inj_mul. ring.
Qed.

Lemma Qplus_0_l_eq (a : Q) : Qplus 0 a = a.
Proof.
  destruct a as [an ad]. unfold Qplus. cbn. f_equal. lia.
Qed.

Lemma Qplus_0_r_eq (a : Q) : Qplus a 0 = a.
Proof.
  destruct a as [an ad]. unfold Qplus. cbn. f_equal.
  - rewrite Z.mul_1_r. apply Z.add_0_r.
  - apply Pos.mul_1_r.
Qed.

Lemma Qsum_from (l : list Q) (a : Q) : fold_left Qplus l a = Qplus a (Qsum l).
Proof.
  unfold Qsum. revert a. induction l as [|b l IH]; intros a; cbn [fold_left].
  - now rewrite Qplus_0_r_eq.
  - rewrite (IH (Qplus a b)), (IH (Qplus 0 b)), Qplus_0_l_eq.
    apply Qplus_assoc_eq.
Qed.

Lemma Qsum_cons (a : Q) (l : list Q) : Qsum (a :: l) = Qplus a (Qsum l).
Proof.
  unfold Qsum at 1. cbn [fold_left]. now rewrite Qsum_from, Qplus_0_l_eq.
Qed.

Lemma Qsum_app (l l' : list Q) : Qsum (l ++ l') = Qplus (Qsum l) (Qsum l').
Proof.
  unfold Qsum at 1. rewrite fold_left_app. fold (Qsum l). apply Qsum_from.
Qed.

Lemma Qsum_snoc (l : list Q) (a : Q) : Qsum (l ++ [a]) = Qplus (Qsum l) a.
Proof.
  rewrite Qsum_app. f_equal. unfold Qsum. cbn. apply Qplus_0_l_eq.
Qed.

End Rationals.

Section Merging.
Import Graph Routing.

Lemma no_repeated_snoc (steps : list direction) (d : direction) :
  Spec.no_repeated_street (steps ++ [d]) <->
  Spec.no_repeated_street steps /\
  last (map street_name steps) <> Some (street_name d).
Proof.
  induction steps as [|a [|b steps] IH].
  - cbn. split; [intros _; split; [exact I|discriminate]|tauto].
  - cbn. split.
    + intros [Hne _]. split; [exact I|congruence].
    + intros [_ Hne]. split; [congruence|exact I].
  - change ((a :: b :: steps) ++ [d]) with (a :: ((b :: steps) ++ [d])).
    cbn [Spec.no_repeated_street app] in *.
    change (last (map street_name (a :: b :: steps)))
      with (last (map street_name (b :: steps))).
    tauto.
Qed.

Lemma last_map {A B} (f : A -> B) (l : list A) : last (map f l) = f <$> last l.
Proof.
  induction l as [|a [|b l] IH]; [reflexivity..|]. exact IH.
Qed.

Lemma last_decompose {A} (l : list A) (m : A) :
  last l = Some m -> l = removelast l ++ [m].
Proof.
  intros H. destruct (last_Some l m) as [[l' ->] _]; [exact H|].
  now rewrite removelast_last.
Qed.

(** The merging loop keeps adjacent names apart and the total distance. *)
Lemma merge_step_spec (merged : list direction) (d : direction) :
  Spec.no_repeated_street merged ->
  Spec.no_repeated_street (merge_step merged d) /\
  Qsum (map distance_m (merge_step merged d)) =
  Qplus (Qsum (map distance_m merged)) (distance_m d).
Proof.
  intros Hinv. unfold merge_step.
  destruct (last merged) as [m|] eqn:Hlast.
  - destruct (String.eqb_spec (street_name m) (street_name d)) as [Heq|Hne].
    + pose proof (last_decompose _ _ Hlast) as Hdec.
      set (front := removelast merged) in *. rewrite Hdec in Hinv |- *.
      apply no_repeated_snoc in Hinv as [Hfront Hm]. split.
      * apply no_repeated_snoc. split; [exact Hfront|exact Hm].
      * rewrite !map_app. cbn [map add_distance distance_m].
        rewrite !Qsum_snoc. apply eq_sym, Qplus_assoc_eq.
    + split.
      * apply no_repeated_snoc. split; [exact Hinv|].
        rewrite last_map, Hlast. cbn. congruence.
      * rewrite map_app. apply Qsum_snoc.
  - split.
    + apply no_repeated_snoc. split; [exact Hinv|].
      rewrite last_map, Hlast. discriminate.
    + rewrite map_app. apply Qsum_snoc.
Qed.

Lemma merge_fold_spec (directions merged : list direction) :
  Spec.no_repeated_street merged ->
  Spec.no_repeated_street (fold_left merge_step directions merged) /\
  Qsum (map distance_m (fold_left merge_step directions merged)) =
  Qplus (Qsum (map distance_m merged)) (Qsum (map distance_m directions)).
Proof.
  revert merged. induction directions as [|d directions IH]; intros merged Hinv.
  - cbn. split; [exact Hinv|]. now rewrite Qplus_0_r_eq.
  - cbn [fold_left map]. destruct (merge_step_spec merged d Hinv) as [Hstep Hsum].
    destruct (IH _ Hstep) as [Hrest Hsum']. split; [exact Hrest|].
    rewrite Hsum', Hsum, Qsum_cons. apply Qplus_assoc_eq.
Qed.

(** Renumbering touches neither the names nor the distances. *)
Lemma imap_renumber_names (f : nat -> nat) (steps : list direction) :
  map street_name (imap (fun i => renumber (f i)) steps) = map street_name steps.
Proof.
  revert f. induction steps as [|a steps IH]; intros f; [reflexivity|].
  cbn. f_equal. apply (IH (f ∘ S)).
Qed.

Lemma imap_renumber_distances (f : nat -> nat) (steps : list direction) :
  map distance_m (imap (fun i => renumber (f i)) steps) = map distance_m steps.
Proof.
  revert f. induction steps as [|a steps IH]; intros f; [reflexivity|].
  cbn. f_equal. apply (IH (f ∘ S)).
Qed.

Lemma no_repeated_names (steps steps' : list direction) :
  map street_name steps = map street_name steps' ->
  Spec.no_repeated_street steps -> Spec.no_repeated_street steps'.
Proof.
  revert steps'. induction steps as [|a steps IH]; intros [|a' steps'] Hn H;
    try discriminate; try exact I.
  destruct steps as [|b steps]; destruct steps' as [|b' steps'];
    try discriminate; try exact I.
  injection Hn as Ha Hb Hrest.
  change (street_name a' <> street_name b' /\ Spec.no_repeated_street (b' :: steps')).
  change (street_name a <> street_name b /\ Spec.no_repeated_street (b :: steps)) in H.
  destruct H as [Hne H]. split; [congruence|].
  apply IH; [cbn; congruence|exact H].
Qed.

Lemma raw_directions_distances (G : graph) (f : nat -> nat)
    (pairs : list (node * node)) :
  map distance_m (concat (imap (fun i => raw_direction G (f i)) pairs)) =
  concat (map (pair_distance G) pairs).
Proof.
  revert f. induction pairs as [|uv pairs IH]; intros f; [reflexivity|].
  cbn [imap concat map]. rewrite map_app. f_equal; [|apply (IH (f ∘ S))].
  unfold raw_direction, pair_distance.
  destruct (first_edge_data G (fst uv) (snd uv)); reflexivity.
Qed.

Lemma route_distance_sum (G : graph) (pairs : list (node * node)) (total : Q) :
  fold_left (add_edge_length G) pairs total =
  Qplus total (Qsum (concat (map (pair_distance G) pairs))).
Proof.
  revert total. induction pairs as [|uv pairs IH]; intros total.
  - cbn. now rewrite Qplus_0_r_eq.
  - cbn [fold_left map concat]. rewrite IH, Qsum_app.
    unfold add_edge_length, pair_distance.
    destruct (first_edge_data G (fst uv) (snd uv)) as [d|].
    + rewrite Qsum_cons. change (Qsum []) with 0%Q.
      rewrite Qplus_0_r_eq. apply Qplus_assoc_eq.
    + change (Qsum []) with 0%Q. now rewrite Qplus_0_l_eq.
Qed.

(** The steps of a walk: merged names, and the distance of the walk. *)
Lemma generate_turn_by_turn_spec (G : graph) (route_nodes : list node) :
  Spec.no_repeated_street (generate_turn_by_turn G route_nodes) /\
  Qsum (map distance_m (generate_turn_by_turn G route_nodes)) =
  route_distance G route_nodes.
Proof.
  unfold generate_turn_by_turn, route_distance.
  destruct (merge_fold_spec
              (concat (imap (raw_direction G) (consecutive route_nodes))) [] I)
    as [Hnames Hsum].
  split.
  - eapply no_repeated_names; [|exact Hnames].
    symmetry. apply (imap_renumber_names (fun i => i)).
  - rewrite (imap_renumber_distances (fun i => i)), Hsum.
    rewrite (raw_directions_distances G (fun i => i)), route_distance_sum.
    reflexivity.
Qed.

End Merging.

(** C6: in the turn_by_turn list of a generated route no two adjacent
    steps share a street name, and the distance_m of the steps sum to the
    route's total_distance_m (exactly, in the arithmetic of fractions
    that stands for the floats). *)
Theorem turn_by_turn_merged
    (shortest_path : Graph.route_graph -> Graph.node -> Graph.node -> list Graph.node)
    (iter_set : gset Graph.node -> list Graph.node)
    (zone : Graph.graph) (start_point : option (Q * Q)) (return_to_start : bool)
    (travel_mode : string) (r : Routing.route_data) :
  Routing.generate_route_for_zone shortest_path iter_set zone start_point
    return_to_start travel_mode = Returns r ->
  Spec.no_repeated_street (Routing.turn_by_turn r) /\
  Graph.Qsum (map Routing.distance_m (Routing.turn_by_turn r)) =
  Routing.total_distance_m r.
Proof.
  unfold Routing.generate_route_for_zone. intros Hret.
  destruct (Nat.eqb (length (Graph.edges zone)) 0).
  { inversion Hret; subst. cbn. split; [exact I|reflexivity]. }
  destruct (Routing.select_start zone start_point) as [start_node|];
    [|discriminate].
  destruct (Routing.node_waypoints zone _) as [wps|]; [|discriminate].
  cbn in Hret. inversion Hret; subst. cbn [Routing.turn_by_turn Routing.total_distance_m].
  apply generate_turn_by_turn_spec.
Qed.

Lemma turn_by_turn_merged_witness :
  exists r,
    Routing.generate_route_for_zone Reference.shortest_path Reference.iter_set
      Samples.triangle None true "walking" = Returns r /\
    map Routing.street_name (Routing.turn_by_turn r) =
      ["Elm Street"; "Oak Street"]%string /\
    Graph.Qsum (map Routing.distance_m (Routing.turn_by_turn r)) =
    Routing.total_distance_m r.
Proof.
  eexists. split; [vm_compute; reflexivity|]. split; [vm_compute; reflexivity|].
  eapply (turn_by_turn_merged Reference.shortest_path Reference.iter_set
            Samples.triangle None true "walking").
  vm_compute. reflexivity.
Defined.

(** ** C2: coverage of the edges *)

(** C2 as stated fails in driving mode: the one-way streets 1 -> 2 and
    3 -> 1 form a weakly connected zone; the walk from node 1 goes to
    node 2, finds no node with an unvisited edge that it can reach, and
    stops after two iterations (the cap is 106) without the edge
    3 -> 1. *)
Lemma driving_coverage_counterexample :
  let zone := Samples.one_way_fork in
  let G := Graph.copy zone in
  let final :=
    Routing.while_loop Reference.shortest_path Reference.iter_set G
      (Routing.max_iterations G) (Routing.initial_state 1%Z) in
  let walk :=
    Routing.generate_simple_route Reference.shortest_path Reference.iter_set G
      1%Z false in
  Spec.weakly_connected zone /\
  Graph.is_weakly_connected zone = true /\
  Routing.select_start zone None = Some 1%Z /\
  Routing.route_view zone "driving" = G /\
  Routing.iterations final = 2%nat /\
  Spec.cap_not_reached G final /\
  walk = [1; 2]%Z /\
  In (Samples.arc 3%Z 1%Z (Samples.road "Oak Street" 100%Q 1%Z)) (Graph.edges zone) /\
  ~ Spec.traverses walk (Samples.arc 3%Z 1%Z (Samples.road "Oak Street" 100%Q 1%Z)).
Proof.
  cbv zeta. split.
  { intros u v Hu Hv. cbn in Hu, Hv.
    destruct Hu as [<-|[<-|[<-|[]]]]; destruct Hv as [<-|[<-|[<-|[]]]];
      vm_compute; reflexivity. }
  split; [vm_compute; reflexivity|].
  split; [vm_compute; reflexivity|].
  split; [reflexivity|].
  split; [vm_compute; reflexivity|].
  split; [vm_compute; lia|].
  split; [vm_compute; reflexivity|].
  split; [cbn; auto|].
  assert (Hwalk : Routing.generate_simple_route Reference.shortest_path
                    Reference.iter_set (Graph.copy Samples.one_way_fork) 1%Z false
                  = [1; 2]%Z) by (vm_compute; reflexivity).
  rewrite Hwalk. intros (i & a & b & Ha & Hb & Hab).
  destruct i as [|[|i]]; cbn in Ha, Hb; try discriminate.
  injection Ha as <-. injection Hb as <-. cbn in Hab.
  destruct Hab as [[? ?]|[? ?]]; discriminate.
Qed.

Section GraphFacts.
Import Graph Routing.

Lemma add_new_fold (l acc : list node) (n : node) :
  In n (fold_left add_new l acc) <-> In n acc \/ In n l.
Proof.
  revert acc. induction l as [|m l IH]; intros acc; cbn [fold_left].
  - cbn. tauto.
  - rewrite IH. unfold add_new.
    destruct (existsb (Z.eqb m) acc) eqn:Hex.
    + apply existsb_exists in Hex as (m' & Hm' & Heq).
      apply Z.eqb_eq in Heq. subst m'. cbn. intuition (subst; auto).
    + rewrite in_app_iff. cbn. intuition (subst; auto).
Qed.

Lemma first_occurrences_In (l : list node) (n : node) :
  In n (first_occurrences l) <-> In n l.
Proof. unfold first_occurrences. rewrite add_new_fold. cbn. tauto. Qed.

(** A neighbour is the other end of an edge of the graph. *)
Lemma neighbors_edge (G : route_graph) (cur nb : node) :
  In nb (neighbors G cur) ->
  exists e, In e (edges (rg_graph G)) /\
            ((src e = cur /\ dst e = nb) \/ (src e = nb /\ dst e = cur)).
Proof.
  destruct G as [G|G]; cbn [neighbors rg_graph]; unfold adjacent, successors;
    rewrite first_occurrences_In, in_map_iff; intros (e & Hnb & He);
    apply filter_In in He as [He Hcond]; exists e; (split; [exact He|]).
  - unfold other_end in Hnb. apply orb_prop in Hcond.
    destruct (Z.eqb_spec (src e) cur) as [Hs|Hs]; [left; auto|].
    destruct Hcond as [Hc|Hc]; [discriminate|].
    apply Z.eqb_eq in Hc. right. auto.
  - apply Z.eqb_eq in Hcond. left. auto.
Qed.

Lemma edge_key_sym (u v : node) : edge_key u v = edge_key v u.
Proof. unfold edge_key. f_equal; lia. Qed.

Lemma edge_key_inj (a b c d : node) :
  edge_key a b = edge_key c d -> (a = c /\ b = d) \/ (a = d /\ b = c).
Proof. unfold edge_key. intros [= Hmin Hmax]. lia. Qed.

Lemma edge_keys_spec (G : route_graph) (k : node * node) :
  k ∈ edge_keys G <->
  exists e, In e (edges (rg_graph G)) /\ k = edge_key (src e) (dst e).
Proof.
  unfold edge_keys, edge_pairs. rewrite elem_of_list_to_set, list_elem_of_In.
  rewrite map_map, in_map_iff. cbn. split; intros (e & H1 & H2); eauto.
Qed.

Lemma size_list_to_set_le (l : list (node * node)) :
  (size (list_to_set l : gset (node * node)) <= length l)%nat.
Proof.
  induction l as [|k l IH]; cbn [list_to_set length].
  - rewrite size_empty. lia.
  - destruct (decide (k ∈ (list_to_set l : gset (node * node)))) as [Hin|Hout].
    + assert (Heq : {[k]} ∪ list_to_set l = (list_to_set l : gset (node * node))).
      { apply subseteq_union_1_L. now apply singleton_subseteq_l. }
      rewrite Heq. lia.
    + rewrite size_union by set_solver. rewrite size_singleton. lia.
Qed.

Lemma size_edge_keys (G : route_graph) :
  (size (edge_keys G) <= number_of_edges G)%nat.
Proof.
  unfold edge_keys, edge_pairs, number_of_edges.
  etransitivity; [apply size_list_to_set_le|]. now rewrite !length_map.
Qed.

(** The targets of a bridge are ends of edges with an unvisited key, and
    there is one as long as such an edge is left. *)
Lemma add_unvisited_ends_fold (visited : gset (node * node))
    (pairs : list (node * node)) (acc : gset node) (n : node) :
  n ∈ fold_left (add_unvisited_ends visited) pairs acc <->
  n ∈ acc \/ exists uv, In uv pairs /\ (edge_key (fst uv) (snd uv) ∉ visited) /\
                        (n = fst uv \/ n = snd uv).
Proof.
  revert acc. induction pairs as [|uv pairs IH]; intros acc; cbn [fold_left].
  - split; [auto|]. intros [H|(uv & [] & _)]. exact H.
  - rewrite IH. unfold add_unvisited_ends. case_bool_decide as Hv.
    + split.
      * intros [H|(uv' & Hin & Hk & Hn)]; [auto|].
        right. exists uv'. cbn. auto.
      * intros [H|(uv' & [<-|Hin] & Hk & Hn)]; [auto|contradiction|].
        right. exists uv'. auto.
    + rewrite !elem_of_union, !elem_of_singleton. split.
      * intros [[[H|H]|H]|(uv' & Hin & Hk & Hn)]; [auto| | |].
        -- right. exists uv. cbn. auto.
        -- right. exists uv. cbn. auto.
        -- right. exists uv'. cbn. auto.
      * intros [H|(uv' & [<-|Hin] & Hk & Hn)]; [auto| |].
        -- left. tauto.
        -- right. exists uv'. auto.
Qed.

Lemma nodes_with_unvisited_spec (G : route_graph) (visited : gset (node * node))
    (n : node) :
  n ∈ nodes_with_unvisited G visited <->
  exists e, In e (edges (rg_graph G)) /\ (edge_key (src e) (dst e) ∉ visited) /\
            (n = src e \/ n = dst e).
Proof.
  unfold nodes_with_unvisited, edge_pairs. rewrite add_unvisited_ends_fold.
  split.
  - intros [H|(uv & Hin & Hk & Hn)]; [set_solver|].
    apply in_map_iff in Hin as (e & <- & He). eauto.
  - intros (e & He & Hk & Hn). right. exists (src e, dst e).
    split; [|auto]. apply in_map_iff. eauto.
Qed.

End GraphFacts.

Section Coverage.
Import Graph Routing.
Variable shortest_path : route_graph -> node -> node -> list node.
Variable iter_set : gset node -> list node.
Variable G : route_graph.
Hypothesis iter_ok : Spec.iterates_elements iter_set.
Hypothesis paths_ok : Spec.returns_paths shortest_path G.
Hypothesis wf : Spec.well_formed (rg_graph G).
Hypothesis connected : Spec.path_connected G.

Abbreviation N := (node_ids (rg_graph G)).
Abbreviation body := (Routing.loop_body shortest_path iter_set G).

Abbreviation walk_inv := (Routing.walk_inv G).
Abbreviation chosen := (Routing.chosen shortest_path G).

Lemma walked_app (walk more : list node) (k : node * node) :
  walked walk k -> walked (walk ++ more) k.
Proof.
  intros (i & a & b & Ha & Hb & Hk). exists i, a, b.
  split; [|split; [|exact Hk]]; now apply lookup_app_l_Some.
Qed.

Lemma walked_last (front : list node) (a b : node) :
  walked ((front ++ [a]) ++ [b]) (edge_key a b).
Proof.
  exists (length front), a, b. split; [|split; [|reflexivity]].
  - rewrite <- app_assoc. cbn [app]. now apply list_lookup_middle.
  - rewrite lookup_app_r; rewrite length_app; cbn [length]; [|lia].
    now replace (S (length front) - (length front + 1))%nat with 0%nat by lia.
Qed.

Lemma consider_fold_chosen (cur : node) (all l : list node)
    (best : option (node * list node)) :
  (forall t, In t l -> In t all) -> chosen cur all best ->
  chosen cur all (fold_left (consider shortest_path G cur) l best).
Proof.
  revert best. induction l as [|t l IH]; intros best Hsub Hbest; [exact Hbest|].
  cbn [fold_left]. apply IH; [intros; apply Hsub; now right|].
  unfold consider. destruct (has_path G cur t) eqn:Hp; [|exact Hbest].
  destruct best as [[t0 p0]|].
  - destruct (_ <? _)%nat; [|exact Hbest].
    cbn. split; [apply Hsub; now left|auto].
  - cbn. split; [apply Hsub; now left|auto].
Qed.

Lemma consider_fold_some (cur : node) (l : list node)
    (best : option (node * list node)) :
  is_Some best -> is_Some (fold_left (consider shortest_path G cur) l best).
Proof.
  revert best. induction l as [|t l IH]; intros best Hbest; [exact Hbest|].
  cbn [fold_left]. apply IH. unfold consider.
  destruct (has_path G cur t); [|exact Hbest].
  destruct best as [[t0 p0]|]; [|eauto]. destruct (_ <? _)%nat; eauto.
Qed.

Lemma consider_fold_found (cur : node) (l : list node) :
  l <> [] -> (forall t, In t l -> has_path G cur t = true) ->
  is_Some (fold_left (consider shortest_path G cur) l None).
Proof.
  destruct l as [|t l]; [congruence|]. intros _ Hpaths. cbn [fold_left].
  apply consider_fold_some. unfold consider.
  rewrite (Hpaths t) by now left. eauto.
Qed.

Lemma target_is_node (visited : gset (node * node)) (t : node) :
  t ∈ nodes_with_unvisited G visited -> In t N.
Proof.
  rewrite nodes_with_unvisited_spec. intros (e & He & _ & [->| ->]);
    apply (wf e He).
Qed.

Lemma unvisited_neighbor_edge (visited : gset (node * node)) (cur nb : node) :
  In nb (unvisited_neighbors G visited cur) ->
  In nb N /\ edge_key cur nb ∈ edge_keys G.
Proof.
  unfold unvisited_neighbors. intros Hin. apply filter_In in Hin as [Hin _].
  apply neighbors_edge in Hin as (e & He & Hends).
  destruct (wf e He) as [Hs Hd]. split.
  - destruct Hends as [[_ <-]|[<- _]]; assumption.
  - apply edge_keys_spec. exists e. split; [exact He|].
    destruct Hends as [[<- <-]|[<- <-]]; [reflexivity|apply edge_key_sym].
Qed.

(** The body of the loop preserves the invariant. *)
Lemma loop_body_inv (s : walk_state) :
  walk_inv s -> walk_inv (body_state (body s)).
Proof.
  intros [[front Hlast] Hnode Hwalked Hkeys].
  assert (Hstay : walk_inv {| visited_edges := visited_edges s; route := route s;
                              current := current s;
                              iterations := S (iterations s) |}).
  { split; cbn; eauto. }
  unfold Routing.loop_body.
  destruct (unvisited_neighbors G (visited_edges s) (current s)) as [|nb nbs] eqn:Hun.
  - case_bool_decide as Hempty; [exact Hstay|].
    set (targets := nodes_with_unvisited G (visited_edges s)) in *.
    pose proof (consider_fold_chosen (current s) (iter_set targets)
                  (iter_set targets) None (fun _ H => H) I) as Hchosen.
    destruct (fold_left _ _ _) as [[t [|c rest]]|]; try exact Hstay.
    cbn in Hchosen. destruct Hchosen as (Ht & Hpath & Hsp).
    apply iter_ok in Ht. apply target_is_node in Ht.
    destruct (paths_ok (current s) t Hnode Ht Hpath) as (rest' & Heq & Hend).
    rewrite Heq in Hsp. injection Hsp as -> ->.
    cbn [body_state]. split; cbn.
    + rewrite Hlast, <- app_assoc. cbn.
      apply last_decompose in Hend. rewrite Hend.
      exists (front ++ removelast (current s :: rest')).
      now rewrite <- app_assoc.
    + exact Ht.
    + intros k Hk. apply walked_app. auto.
    + exact Hkeys.
  - destruct (unvisited_neighbor_edge (visited_edges s) (current s) nb)
      as [Hnb Hkey]; [rewrite Hun; now left|].
    cbn [body_state]. split; cbn.
    + eauto.
    + exact Hnb.
    + intros k Hk. apply elem_of_union in Hk as [Hk|Hk].
      * apply elem_of_singleton in Hk as ->. rewrite Hlast. apply walked_last.
      * apply walked_app. auto.
    + apply union_subseteq. split; [|exact Hkeys].
      now apply singleton_subseteq_l.
Qed.

(** Once every key is visited every edge has been walked. *)
Lemma all_visited_covered (s : walk_state) :
  walk_inv s -> edge_keys G ⊆ visited_edges s ->
  forall e, In e (edges (rg_graph G)) -> Spec.traverses (route s) e.
Proof.
  intros Hinv Hall e He.
  destruct (inv_walked G s Hinv (edge_key (src e) (dst e)))
    as (i & a & b & Ha & Hb & Hk).
  { apply Hall, edge_keys_spec. eauto. }
  exists i, a, b. split; [exact Ha|]. split; [exact Hb|].
  apply eq_sym, edge_key_inj in Hk. tauto.
Qed.

Lemma exit_all_visited (s : walk_state) :
  walk_inv s -> loop_cond G s = false -> Spec.cap_not_reached G s ->
  edge_keys G ⊆ visited_edges s.
Proof.
  intros Hinv Hcond Hcap. unfold loop_cond in Hcond. unfold Spec.cap_not_reached in Hcap.
  apply andb_false_iff in Hcond as [Hsize|Hit].
  - apply Nat.ltb_ge in Hsize. pose proof (size_edge_keys G) as Hk.
    pose proof (inv_keys G s Hinv) as Hsub.
    assert (Heq : visited_edges s = edge_keys G).
    { apply set_subseteq_size_eq; [exact Hsub|lia]. }
    now rewrite Heq.
  - apply Nat.ltb_ge in Hit. lia.
Qed.

(** A break happens only when no edge is left. *)
Lemma break_all_visited (s s' : walk_state) :
  walk_inv s -> body s = Break s' ->
  edge_keys G ⊆ visited_edges s /\ route s' = route s.
Proof.
  intros Hinv. pose proof (inv_node G s Hinv) as Hnode. unfold Routing.loop_body.
  destruct (unvisited_neighbors G (visited_edges s) (current s)) as [|nb nbs];
    [|discriminate].
  set (targets := nodes_with_unvisited G (visited_edges s)).
  case_bool_decide as Hempty.
  - intros [= <-]. split; [|reflexivity].
    intros k Hk. apply edge_keys_spec in Hk as (e & He & ->).
    destruct (decide (edge_key (src e) (dst e) ∈ visited_edges s)) as [Hv|Hv];
      [exact Hv|].
    assert (Hin : src e ∈ targets).
    { apply nodes_with_unvisited_spec. eauto. }
    rewrite Hempty in Hin. set_solver.
  - assert (Hlist : iter_set targets <> []).
    { destruct (set_choose_L targets Hempty) as [t Ht].
      apply iter_ok in Ht. intros Hnil. now rewrite Hnil in Ht. }
    assert (Hpaths : forall t, In t (iter_set targets) ->
                               has_path G (current s) t = true).
    { intros t Ht. apply iter_ok in Ht. apply target_is_node in Ht.
      now apply connected. }
    pose proof (consider_fold_found (current s) _ Hlist Hpaths) as [[t p] Hfound].
    pose proof (consider_fold_chosen (current s) (iter_set targets)
                  (iter_set targets) None (fun _ H => H) I) as Hchosen.
    rewrite Hfound in *. cbn in Hchosen. destruct Hchosen as (Ht & Hpath & ->).
    apply iter_ok in Ht. apply target_is_node in Ht.
    destruct (paths_ok (current s) t Hnode Ht Hpath) as (rest' & -> & _).
    discriminate.
Qed.

Lemma run_covers (s0 s : walk_state) (n : nat) :
  Routing.while_exec shortest_path iter_set G s0 s n ->
  walk_inv s0 -> Spec.cap_not_reached G s ->
  forall e, In e (edges (rg_graph G)) -> Spec.traverses (route s) e.
Proof.
  induction 1 as [s Hc|s s' Hc Hb|s s' s'' n Hc Hb _ IH]; intros Hinv Hcap.
  - apply all_visited_covered; [exact Hinv|]. now apply exit_all_visited.
  - destruct (break_all_visited s s' Hinv Hb) as [Hall Hroute].
    rewrite Hroute. now apply all_visited_covered.
  - apply IH; [|exact Hcap]. pose proof (loop_body_inv s Hinv) as H.
    now rewrite Hb in H.
Qed.

Lemma initial_inv (start_node : node) :
  In start_node N -> walk_inv (initial_state start_node).
Proof.
  intros Hstart. split; cbn.
  - exists []. reflexivity.
  - exact Hstart.
  - intros k Hk. set_solver.
  - set_solver.
Qed.

Lemma traverses_app (walk more : list node) (e : edge) :
  Spec.traverses walk e -> Spec.traverses (walk ++ more) e.
Proof.
  intros (i & a & b & Ha & Hb & Hk). exists i, a, b.
  split; [|split; [|exact Hk]]; now apply lookup_app_l_Some.
Qed.

(** On a graph connected by the paths the walk may follow, a walk that
    ends before the cap has gone along every edge. *)
Lemma connected_walk_covers (start_node : node) (return_to_start : bool) :
  In start_node N ->
  Spec.cap_not_reached G
    (Routing.while_loop shortest_path iter_set G (max_iterations G)
       (initial_state start_node)) ->
  forall e, In e (edges (rg_graph G)) ->
    Spec.traverses
      (generate_simple_route shortest_path iter_set G start_node return_to_start) e.
Proof.
  intros Hstart Hcap e He.
  destruct (while_loop_exec shortest_path iter_set G (max_iterations G)
              (initial_state start_node)) as (n & Hexec & _); [lia|].
  unfold generate_simple_route.
  destruct (close_route_prefix shortest_path G start_node return_to_start
              (Routing.while_loop shortest_path iter_set G (max_iterations G)
                 (initial_state start_node))) as [more ->].
  apply traverses_app. eapply run_covers; eauto using initial_inv.
Qed.

End Coverage.

Section Projection.
Import Graph Routing.

Lemma same_ends_refl (e : edge) : same_ends e e.
Proof. left. auto. Qed.

Lemma same_ends_sym (e e' : edge) : same_ends e e' -> same_ends e' e.
Proof. unfold same_ends. intuition congruence. Qed.

Lemma same_ends_trans (e1 e2 e3 : edge) :
  same_ends e1 e2 -> same_ends e2 e3 -> same_ends e1 e3.
Proof. unfold same_ends. intuition congruence. Qed.

Lemma same_undirected_ends (e e' : edge) :
  same_undirected e e' = true -> same_ends e e'.
Proof.
  unfold same_undirected, same_ends. intros H.
  apply andb_prop in H as [_ H]. apply orb_prop in H as [H|H];
    apply andb_prop in H as [H1 H2]; apply Z.eqb_eq in H1, H2; auto.
Qed.

(** Adding an edge to the undirected graph keeps the pairs of nodes that
    were joined and joins the ends of the new edge. *)
Lemma add_undirected_keeps (acc : list edge) (e x : edge) :
  In x acc \/ x = e -> exists e', In e' (add_undirected acc e) /\ same_ends x e'.
Proof.
  unfold add_undirected. destruct (existsb (same_undirected e) acc) eqn:Hex.
  - intros [Hx| ->].
    + exists (if same_undirected e x
              then with_data x (update_data (data x) (data e)) else x).
      split; [apply in_map_iff; eauto|].
      destruct (same_undirected e x); left; cbn; auto.
    + apply existsb_exists in Hex as (e0 & He0 & Hsame).
      exists (with_data e0 (update_data (data e0) (data e))). split.
      * apply in_map_iff. exists e0. now rewrite Hsame.
      * apply same_undirected_ends in Hsame.
        unfold same_ends in *. cbn. exact Hsame.
  - intros Hx. exists x. split; [|apply same_ends_refl].
    apply in_app_iff. cbn. destruct Hx as [Hx| ->]; auto.
Qed.

Lemma add_undirected_from (acc : list edge) (e e' : edge) :
  In e' (add_undirected acc e) ->
  exists x, (In x acc \/ x = e) /\ same_ends e' x.
Proof.
  unfold add_undirected. destruct (existsb (same_undirected e) acc).
  - intros Hin. apply in_map_iff in Hin as (x & <- & Hx). exists x.
    split; [auto|]. destruct (same_undirected e x); left; cbn; auto.
  - intros Hin. apply in_app_iff in Hin as [Hin|[<-|[]]];
      eauto using same_ends_refl.
Qed.

Lemma fold_undirected_keeps (l acc : list edge) (x : edge) :
  In x acc \/ In x l ->
  exists e', In e' (fold_left add_undirected l acc) /\ same_ends x e'.
Proof.
  revert acc x. induction l as [|e l IH]; intros acc x Hx; cbn [fold_left].
  - destruct Hx as [Hx|[]]. eauto using same_ends_refl.
  - assert (Hstep : exists y, In y (add_undirected acc e) /\ same_ends x y \/
                              In x l).
    { destruct Hx as [Hx|[->|Hx]].
      - destruct (add_undirected_keeps acc e x) as (y & ? & ?); eauto.
      - destruct (add_undirected_keeps acc x x) as (y & ? & ?); eauto.
      - exists x. auto. }
    destruct Hstep as (y & [[Hy Hxy]|Hl]).
    + destruct (IH (add_undirected acc e) y) as (e' & He' & Hye'); [auto|].
      eauto using same_ends_trans.
    + apply IH. auto.
Qed.

Lemma fold_undirected_from (l acc : list edge) (e' : edge) :
  In e' (fold_left add_undirected l acc) ->
  exists x, (In x acc \/ In x l) /\ same_ends e' x.
Proof.
  revert acc. induction l as [|e l IH]; intros acc Hin; cbn [fold_left] in Hin.
  - eauto using same_ends_refl.
  - apply IH in Hin as (y & [Hy|Hy] & He'y).
    + apply add_undirected_from in Hy as (x & Hx & Hyx). exists x.
      split; [|eauto using same_ends_trans].
      destruct Hx as [Hx|Hx]; [now left|right; left; congruence].
    + exists y. cbn. auto.
Qed.

(** The view the walk runs on has the nodes of the zone and, end for
    end, its edges. *)
Lemma route_view_nodes (zone : graph) (travel_mode : string) :
  node_ids (rg_graph (route_view zone travel_mode)) = node_ids zone.
Proof. unfold route_view. destruct (String.eqb _ _); reflexivity. Qed.

Lemma route_view_keeps (zone : graph) (travel_mode : string) (e : edge) :
  In e (edges zone) ->
  exists e', In e' (edges (rg_graph (route_view zone travel_mode))) /\
             same_ends e e'.
Proof.
  unfold route_view. destruct (String.eqb _ _); cbn.
  - intros He. apply fold_undirected_keeps. auto.
  - eauto using same_ends_refl.
Qed.

Lemma route_view_from (zone : graph) (travel_mode : string) (e' : edge) :
  In e' (edges (rg_graph (route_view zone travel_mode))) ->
  exists e, In e (edges zone) /\ same_ends e' e.
Proof.
  unfold route_view. destruct (String.eqb _ _); cbn.
  - intros He. apply fold_undirected_from in He as (x & [[]|Hx] & Hs). eauto.
  - eauto using same_ends_refl.
Qed.

Lemma route_view_well_formed (zone : graph) (travel_mode : string) :
  Spec.well_formed zone ->
  Spec.well_formed (rg_graph (route_view zone travel_mode)).
Proof.
  intros Hwf e' He'. rewrite route_view_nodes.
  apply route_view_from in He' as (e & He & Hs). destruct (Hwf e He) as [H1 H2].
  destruct Hs as [[-> ->]|[-> ->]]; auto.
Qed.

Lemma traverses_same_ends (walk : list node) (e e' : edge) :
  same_ends e e' -> Spec.traverses walk e' -> Spec.traverses walk e.
Proof.
  intros Hs (i & a & b & Ha & Hb & Hab). exists i, a, b.
  split; [exact Ha|]. split; [exact Hb|].
  unfold same_ends in Hs. intuition congruence.
Qed.

Lemma elements_iterates : Spec.iterates_elements Reference.iter_set.
Proof.
  intros s n. unfold Reference.iter_set.
  now rewrite <- list_elem_of_In, elem_of_elements.
Qed.

End Projection.

(** C2, as amended: when the zone is connected along the paths the walk
    may follow (weakly connected in walking mode, where the walk runs on
    the undirected projection; strongly connected in driving mode, where
    it runs on the directed multigraph) and the loop is left before the
    iteration cap of 3*|E| + 100, the walk of generate_simple_route goes
    along every edge of the zone, parallel edges included. *)
Theorem connected_zone_covered
    (shortest_path : Graph.route_graph -> Graph.node -> Graph.node -> list Graph.node)
    (iter_set : gset Graph.node -> list Graph.node)
    (zone : Graph.graph) (travel_mode : string)
    (start_node : Graph.node) (return_to_start : bool) :
  let G := Routing.route_view zone travel_mode in
  Spec.iterates_elements iter_set ->
  Spec.returns_paths shortest_path G ->
  Spec.well_formed zone ->
  In start_node (Graph.node_ids zone) ->
  (if String.eqb travel_mode "walking"
   then Spec.weakly_connected zone else Spec.strongly_connected zone) ->
  Spec.cap_not_reached G
    (Routing.while_loop shortest_path iter_set G (Routing.max_iterations G)
       (Routing.initial_state start_node)) ->
  forall e, In e (Graph.edges zone) ->
    Spec.traverses
      (Routing.generate_simple_route shortest_path iter_set G start_node
         return_to_start) e.
Proof.
  intros G Hiter Hpaths Hwf Hstart Hconn Hcap e He.
  destruct (route_view_keeps zone travel_mode e He) as (e' & He' & Hsame).
  apply (traverses_same_ends _ e e' Hsame).
  apply connected_walk_covers; auto.
  - now apply route_view_well_formed.
  - subst G. unfold Routing.route_view in *.
    destruct (String.eqb travel_mode "walking"); exact Hconn.
  - subst G. now rewrite route_view_nodes.
Qed.

Lemma connected_zone_covered_witness :
  Spec.traverses
    (Routing.generate_simple_route Reference.shortest_path Reference.iter_set
       (Routing.route_view Samples.triangle "walking") 1%Z false)
    (Samples.arc 3%Z 1%Z (Samples.road "Oak Street" 120%Q 4%Z)) /\
  Routing.generate_simple_route Reference.shortest_path Reference.iter_set
    (Routing.route_view Samples.triangle "walking") 1%Z false = [1; 2; 3; 1]%Z.
Proof.
  split; [|vm_compute; reflexivity].
  apply (connected_zone_covered Reference.shortest_path Reference.iter_set
           Samples.triangle "walking" 1%Z false).
  - exact elements_iterates.
  - intros u v Hu Hv _. cbn in Hu, Hv.
    destruct Hu as [<-|[<-|[<-|[]]]]; destruct Hv as [<-|[<-|[<-|[]]]];
      vm_compute; eexists; split; reflexivity.
  - intros e He. cbn in He. destruct He as [<-|[<-|[<-|[]]]]; cbn; auto.
  - cbn. auto.
  - intros u v Hu Hv. cbn in Hu, Hv.
    destruct Hu as [<-|[<-|[<-|[]]]]; destruct Hv as [<-|[<-|[<-|[]]]];
      vm_compute; reflexivity.
  - vm_compute. lia.
  - cbn. auto.
Defined.

(** * Further properties of the code *)

(** ** routing.py: the pace of the walk on an undirected graph *)

Section Pace.
Import Graph Routing.
Variable shortest_path : route_graph -> node -> node -> list node.
Variable iter_set : gset node -> list node.
Variable g : graph.
Hypothesis iter_ok : Spec.iterates_elements iter_set.

Abbreviation U := (Undirected g).
Abbreviation ubody := (Routing.loop_body shortest_path iter_set (Undirected g)).

(** An unvisited neighbour is reached over an edge whose key is new. *)
Lemma unvisited_neighbor_key (R : route_graph) (visited : gset (node * node))
    (cur nb : node) :
  In nb (unvisited_neighbors R visited cur) ->
  (edge_key cur nb ∉ visited) /\ edge_key cur nb ∈ edge_keys R.
Proof.
  unfold unvisited_neighbors. intros Hin. apply filter_In in Hin as [Hin Hnew].
  split.
  - apply negb_true_iff, bool_decide_eq_false in Hnew. exact Hnew.
  - apply neighbors_edge in Hin as (e & He & Hends).
    apply edge_keys_spec. exists e. split; [exact He|].
    destruct Hends as [[<- <-]|[<- <-]]; [reflexivity|apply edge_key_sym].
Qed.

(** In the undirected view a node at an unvisited edge has an unvisited
    neighbour. *)
Lemma target_has_unvisited_neighbor (visited : gset (node * node)) (t : node) :
  t ∈ nodes_with_unvisited U visited ->
  unvisited_neighbors U visited t <> [].
Proof.
  rewrite nodes_with_unvisited_spec. intros (e & He & Hnew & Ht).
  cbn [rg_graph] in He.
  assert (Hin : In (other_end t e) (unvisited_neighbors U visited t)).
  { unfold unvisited_neighbors. apply filter_In. split.
    - cbn [neighbors]. unfold adjacent. apply first_occurrences_In.
      apply in_map. apply filter_In. split; [exact He|].
      destruct Ht as [->| ->]; rewrite Z.eqb_refl; [reflexivity|apply orb_true_r].
    - apply negb_true_iff, bool_decide_eq_false.
      unfold other_end. destruct (Z.eqb_spec (src e) t) as [Hs|Hs].
      + now rewrite <- Hs.
      + destruct Ht as [->| ->]; [congruence|]. now rewrite edge_key_sym.
  }
  intros Hnil. now rewrite Hnil in Hin.
Qed.

Lemma paced_continue (s s' : walk_state) :
  ubody s = Continue s' -> Laws.paced U s -> Laws.paced U s'.
Proof.
  intros Hbody [Hkeys Hpace]. unfold Routing.loop_body in Hbody.
  destruct (unvisited_neighbors U (visited_edges s) (current s)) as [|nb nbs] eqn:Hun.
  - case_bool_decide as Hempty; [discriminate|].
    set (targets := nodes_with_unvisited U (visited_edges s)) in *.
    pose proof (consider_fold_chosen shortest_path U (current s)
                  (iter_set targets) (iter_set targets) None (fun _ H => H) I)
      as Hchosen.
    destruct (fold_left _ _ _) as [[t [|c rest]]|]; try discriminate.
    injection Hbody as <-. cbn in Hchosen. destruct Hchosen as (Ht & _ & _).
    apply iter_ok in Ht. apply target_has_unvisited_neighbor in Ht.
    split; cbn; [exact Hkeys|]. right. split; [|exact Ht].
    destruct Hpace as [Hp|[_ Hne]]; [lia|congruence].
  - injection Hbody as <-.
    destruct (unvisited_neighbor_key U (visited_edges s) (current s) nb)
      as [Hnew Hkey]; [rewrite Hun; now left|].
    split; cbn.
    + apply union_subseteq. split; [now apply singleton_subseteq_l|exact Hkeys].
    + left. rewrite size_union by (now apply disjoint_singleton_l).
      rewrite size_singleton.
      destruct Hpace as [Hp|[Hp _]]; lia.
Qed.

Lemma paced_bound (s : walk_state) :
  Laws.paced U s -> (iterations s <= 2 * number_of_edges U + 1)%nat.
Proof.
  intros [Hkeys Hpace]. pose proof (subseteq_size _ _ Hkeys) as Hsize.
  pose proof (size_edge_keys U) as Hedges.
  destruct Hpace as [Hp|[Hp _]]; lia.
Qed.

Lemma paced_run (s0 s : walk_state) (n : nat) :
  Routing.while_exec shortest_path iter_set U s0 s n -> Laws.paced U s0 ->
  (iterations s <= 2 * number_of_edges U + 2)%nat.
Proof.
  induction 1 as [s Hc|s s' Hc Hb|s s' s'' n Hc Hb _ IH]; intros Hpaced.
  - apply paced_bound in Hpaced. lia.
  - apply paced_bound in Hpaced.
    pose proof (loop_body_iterations shortest_path iter_set U s) as Hit.
    rewrite Hb in Hit. cbn in Hit. lia.
  - apply IH. eapply paced_continue; eauto.
Qed.

Lemma paced_initial (start_node : node) : Laws.paced U (initial_state start_node).
Proof.
  split; cbn; [set_solver|]. left. rewrite size_empty. lia.
Qed.

Lemma undirected_walk_pace (start_node : node) :
  (iterations (Routing.while_loop shortest_path iter_set U (max_iterations U)
                 (initial_state start_node))
   <= 2 * number_of_edges U + 2)%nat.
Proof.
  destruct (while_loop_exec shortest_path iter_set U (max_iterations U)
              (initial_state start_node)) as (n & Hexec & _); [lia|].
  eapply paced_run; [exact Hexec|apply paced_initial].
Qed.

End Pace.

Lemma walking_view_pace
    (shortest_path : Graph.route_graph -> Graph.node -> Graph.node -> list Graph.node)
    (iter_set : gset Graph.node -> list Graph.node)
    (zone : Graph.graph) (start_node : Graph.node) :
  Spec.iterates_elements iter_set ->
  let G := Routing.route_view zone "walking" in
  let final := Routing.while_loop shortest_path iter_set G
                 (Routing.max_iterations G) (Routing.initial_state start_node) in
  (Routing.iterations final <= 2 * Graph.number_of_edges G + 2)%nat /\
  Spec.cap_not_reached G final.
Proof.
  intros Hiter G final.
  assert (Hpace : (Routing.iterations final <= 2 * Graph.number_of_edges G + 2)%nat).
  { subst final G. apply undirected_walk_pace. exact Hiter. }
  split; [exact Hpace|]. unfold Spec.cap_not_reached, Routing.max_iterations. lia.
Qed.

(** X1: in walking mode the loop of generate_simple_route never runs into
    its cap: on the undirected projection of any zone, connected or not,
    it ends after at most 2*|E| + 2 iterations, below 3*|E| + 100,
    whatever path nx.shortest_path returns. *)
Theorem walking_cap_never_reached
    (shortest_path : Graph.route_graph -> Graph.node -> Graph.node -> list Graph.node)
    (iter_set : gset Graph.node -> list Graph.node)
    (zone : Graph.graph) (start_node : Graph.node) :
  Spec.iterates_elements iter_set ->
  let G := Routing.route_view zone "walking" in
  let final := Routing.while_loop shortest_path iter_set G
                 (Routing.max_iterations G) (Routing.initial_state start_node) in
  (Routing.iterations final <= 2 * Graph.number_of_edges G + 2)%nat /\
  Spec.cap_not_reached G final.
Proof. exact (walking_view_pace shortest_path iter_set zone start_node). Qed.

Lemma walking_cap_never_reached_witness :
  Spec.cap_not_reached (Routing.route_view Samples.two_roads "walking")
    (Routing.while_loop Reference.shortest_path Reference.iter_set
       (Routing.route_view Samples.two_roads "walking")
       (Routing.max_iterations (Routing.route_view Samples.two_roads "walking"))
       (Routing.initial_state 1%Z)).
Proof.
  apply (walking_cap_never_reached Reference.shortest_path Reference.iter_set
           Samples.two_roads 1%Z elements_iterates).
Defined.

(** X2: in walking mode a weakly connected zone is covered without any
    condition on the cap: the walk of generate_simple_route goes along
    every edge of the zone. *)
Theorem walking_covers_connected_zone
    (shortest_path : Graph.route_graph -> Graph.node -> Graph.node -> list Graph.node)
    (iter_set : gset Graph.node -> list Graph.node)
    (zone : Graph.graph) (start_node : Graph.node) (return_to_start : bool) :
  let G := Routing.route_view zone "walking" in
  Spec.iterates_elements iter_set ->
  Spec.returns_paths shortest_path G ->
  Spec.well_formed zone ->
  In start_node (Graph.node_ids zone) ->
  Spec.weakly_connected zone ->
  forall e, In e (Graph.edges zone) ->
    Spec.traverses
      (Routing.generate_simple_route shortest_path iter_set G start_node
         return_to_start) e.
Proof.
  intros G Hiter Hpaths Hwf Hstart Hconn e He.
  destruct (route_view_keeps zone "walking" e He) as (e' & He' & Hsame).
  apply (traverses_same_ends _ e e' Hsame).
  assert (Hstart' : In start_node (Graph.node_ids (Graph.rg_graph G))).
  { unfold G. now rewrite route_view_nodes. }
  exact (connected_walk_covers shortest_path iter_set G Hiter Hpaths
           (route_view_well_formed zone "walking" Hwf) Hconn start_node
           return_to_start Hstart'
           (proj2 (walking_view_pace shortest_path iter_set zone
                     start_node Hiter)) e' He').
Qed.

Lemma walking_covers_connected_zone_witness :
  Spec.traverses
    (Routing.generate_simple_route Reference.shortest_path Reference.iter_set
       (Routing.route_view Samples.triangle "walking") 2%Z true)
    (Samples.arc 1%Z 2%Z (Samples.road "Elm Street" 100%Q 3%Z)).
Proof.
  apply (walking_covers_connected_zone Reference.shortest_path Reference.iter_set
           Samples.triangle 2%Z true).
  - exact elements_iterates.
  - intros u v Hu Hv _. cbn in Hu, Hv.
    destruct Hu as [<-|[<-|[<-|[]]]]; destruct Hv as [<-|[<-|[<-|[]]]];
      vm_compute; eexists; split; reflexivity.
  - intros e He. cbn in He. destruct He as [<-|[<-|[<-|[]]]]; cbn; auto.
  - cbn. auto.
  - intros u v Hu Hv. cbn in Hu, Hv.
    destruct Hu as [<-|[<-|[<-|[]]]]; destruct Hv as [<-|[<-|[<-|[]]]];
      vm_compute; reflexivity.
  - cbn. auto.
Defined.

(** ** routing.py: find_nearest_node *)

Section Nearest.
Import Graph Routing.







End Nearest.



(** ** routing.py: the walk follows the edges of the graph *)

Section SoundWalk.
Import Graph Routing.
Variable shortest_path : route_graph -> node -> node -> list node.
Variable iter_set : gset node -> list node.
Variable G : route_graph.
Hypothesis iter_ok : Spec.iterates_elements iter_set.
Hypothesis walks_ok : Laws.returns_walks shortest_path G.
Hypothesis wf : Spec.well_formed (rg_graph G).

Lemma follows_edges_cons (a b : node) (rest : list node) :
  Laws.follows_edges G (a :: b :: rest) <->
  In b (neighbors G a) /\ Laws.follows_edges G (b :: rest).
Proof. reflexivity. Qed.

(** Two walks that share an end point join into one. *)
Lemma follows_edges_join (front rest : list node) (a : node) :
  Laws.follows_edges G (front ++ [a]) -> Laws.follows_edges G (a :: rest) ->
  Laws.follows_edges G (front ++ a :: rest).
Proof.
  intros Hfront Hrest. induction front as [|x front IH]; [exact Hrest|].
  destruct front as [|y front].
  - cbn [app] in *. apply follows_edges_cons. split; [apply Hfront|exact Hrest].
  - change ((x :: y :: front) ++ a :: rest) with (x :: y :: (front ++ a :: rest)).
    change ((x :: y :: front) ++ [a]) with (x :: y :: (front ++ [a])) in Hfront.
    apply follows_edges_cons in Hfront as [Hxy Hfront].
    apply follows_edges_cons. split; [exact Hxy|]. apply IH. exact Hfront.
Qed.

Lemma follows_edges_snoc (front : list node) (a b : node) :
  Laws.follows_edges G (front ++ [a]) -> In b (neighbors G a) ->
  Laws.follows_edges G ((front ++ [a]) ++ [b]).
Proof.
  intros Hfront Hb. rewrite <- app_assoc. cbn [app].
  apply follows_edges_join; [exact Hfront|]. cbn. auto.
Qed.

Lemma neighbor_is_node (a b : node) : In b (neighbors G a) -> In b (node_ids (rg_graph G)).
Proof.
  intros Hb. apply neighbors_edge in Hb as (e & He & Hends).
  destruct (wf e He) as [Hs Hd]. destruct Hends as [[_ <-]|[<- _]]; assumption.
Qed.

(** The nodes of a walk that starts in the graph are nodes of the graph. *)
Lemma follows_edges_nodes (walk : list node) (a : node) :
  In a (node_ids (rg_graph G)) -> Laws.follows_edges G (a :: walk) ->
  forall n, In n (a :: walk) -> In n (node_ids (rg_graph G)).
Proof.
  revert a. induction walk as [|b walk IH]; intros a Ha Hwalk n Hn.
  - destruct Hn as [<-|[]]. exact Ha.
  - apply follows_edges_cons in Hwalk as [Hab Hwalk].
    destruct Hn as [<-|Hn]; [exact Ha|].
    apply (IH b); [now apply (neighbor_is_node a)|exact Hwalk|exact Hn].
Qed.

Lemma returns_walks_paths : Spec.returns_paths shortest_path G.
Proof.
  intros u v Hu Hv Hp. destruct (walks_ok u v Hu Hv Hp) as (rest & H1 & H2 & _).
  eauto.
Qed.

(** The body of the loop keeps the walk on the edges of the graph. *)
Lemma loop_body_sound (s : walk_state) :
  Laws.sound_walk G s ->
  Laws.sound_walk G (body_state (Routing.loop_body shortest_path iter_set G s)).
Proof.
  intros [[front Hlast] Hnode Hsteps].
  assert (Hstay : Laws.sound_walk G
                    {| visited_edges := visited_edges s; route := route s;
                       current := current s; iterations := S (iterations s) |}).
  { split; cbn; eauto. }
  unfold Routing.loop_body.
  destruct (unvisited_neighbors G (visited_edges s) (current s)) as [|nb nbs] eqn:Hun.
  - case_bool_decide as Hempty; [exact Hstay|].
    set (targets := nodes_with_unvisited G (visited_edges s)) in *.
    pose proof (consider_fold_chosen shortest_path G (current s)
                  (iter_set targets) (iter_set targets) None (fun _ H => H) I)
      as Hchosen.
    destruct (fold_left _ _ _) as [[t [|c rest]]|]; try exact Hstay.
    cbn in Hchosen. destruct Hchosen as (Ht & Hpath & Hsp).
    apply iter_ok in Ht. apply (target_is_node G wf) in Ht.
    destruct (walks_ok (current s) t Hnode Ht Hpath) as (rest' & Heq & Hend & Hwalk).
    rewrite Heq in Hsp. injection Hsp as -> ->.
    cbn [body_state]. split; cbn.
    + rewrite Hlast, <- app_assoc. cbn.
      apply last_decompose in Hend. rewrite Hend.
      exists (front ++ removelast (current s :: rest')).
      now rewrite <- app_assoc.
    + exact Ht.
    + rewrite Hlast, <- app_assoc. cbn [app].
      apply follows_edges_join; [now rewrite <- Hlast|exact Hwalk].
  - assert (Hnb : In nb (neighbors G (current s))).
    { assert (Hin : In nb (unvisited_neighbors G (visited_edges s) (current s)))
        by (rewrite Hun; now left).
      unfold unvisited_neighbors in Hin. now apply filter_In in Hin as [Hin _]. }
    cbn [body_state]. split; cbn.
    + eauto.
    + now apply (neighbor_is_node (current s)).
    + rewrite Hlast. apply follows_edges_snoc; [now rewrite <- Hlast|exact Hnb].
Qed.

Lemma run_sound (s0 s : walk_state) (n : nat) :
  Routing.while_exec shortest_path iter_set G s0 s n ->
  Laws.sound_walk G s0 -> Laws.sound_walk G s.
Proof.
  intros Hexec. apply (while_exec_invariant shortest_path iter_set G
                         (Laws.sound_walk G) s0 s n); [|exact Hexec].
  intros s1 Hs1 _. now apply loop_body_sound.
Qed.

Lemma initial_sound (start_node : node) :
  In start_node (node_ids (rg_graph G)) ->
  Laws.sound_walk G (initial_state start_node).
Proof. intros Hstart. split; cbn; [exists []; reflexivity|exact Hstart|exact I]. Qed.

Lemma final_sound (start_node : node) :
  In start_node (node_ids (rg_graph G)) ->
  Laws.sound_walk G
    (Routing.while_loop shortest_path iter_set G (max_iterations G)
       (initial_state start_node)).
Proof.
  intros Hstart.
  destruct (while_loop_exec shortest_path iter_set G (max_iterations G)
              (initial_state start_node)) as (n & Hexec & _); [lia|].
  eapply run_sound; [exact Hexec|now apply initial_sound].
Qed.

(** The walk returned: it follows the edges, and it ends at the start
    node when that was asked for and a path back exists. *)
Lemma generate_simple_route_sound (start_node : node) (return_to_start : bool) :
  In start_node (node_ids (rg_graph G)) ->
  let walk := generate_simple_route shortest_path iter_set G start_node
                return_to_start in
  Laws.follows_edges G walk /\
  exists front c, walk = front ++ [c] /\ In c (node_ids (rg_graph G)) /\
    (return_to_start = true -> c = start_node \/ has_path G c start_node = false).
Proof.
  intros Hstart walk. subst walk. unfold generate_simple_route.
  destruct (final_sound start_node Hstart) as [[front Hlast] Hnode Hsteps].
  set (s := Routing.while_loop shortest_path iter_set G (max_iterations G)
              (initial_state start_node)) in *.
  unfold close_route.
  destruct return_to_start; cbn [andb].
  - destruct (Z.eqb_spec (current s) start_node) as [Heq|Hne]; cbn [negb].
    + split; [exact Hsteps|]. exists front, (current s). auto.
    + destruct (has_path G (current s) start_node) eqn:Hp.
      * destruct (walks_ok (current s) start_node Hnode Hstart Hp)
          as (rest & Heq & Hend & Hwalk).
        rewrite Heq. cbn [tail]. rewrite Hlast, <- app_assoc. cbn [app]. split.
        -- apply follows_edges_join; [now rewrite <- Hlast|exact Hwalk].
        -- apply last_decompose in Hend. rewrite Hend.
           exists (front ++ removelast (current s :: rest)), start_node.
           rewrite <- app_assoc. auto.
      * split; [exact Hsteps|]. exists front, (current s). auto.
  - split; [exact Hsteps|]. exists front, (current s).
    split; [exact Hlast|]. split; [exact Hnode|discriminate].
Qed.

End SoundWalk.

(** X4: with nx.shortest_path returning paths of the graph, the walk of
    generate_simple_route goes from neighbour to neighbour (along an
    edge; in driving mode along its direction) and stays on nodes of the
    graph. *)
Theorem walk_follows_edges
    (shortest_path : Graph.route_graph -> Graph.node -> Graph.node -> list Graph.node)
    (iter_set : gset Graph.node -> list Graph.node)
    (G : Graph.route_graph) (start_node : Graph.node) (return_to_start : bool) :
  Spec.iterates_elements iter_set ->
  Laws.returns_walks shortest_path G ->
  Spec.well_formed (Graph.rg_graph G) ->
  In start_node (Graph.node_ids (Graph.rg_graph G)) ->
  let walk := Routing.generate_simple_route shortest_path iter_set G start_node
                return_to_start in
  Laws.follows_edges G walk /\
  forall n, In n walk -> In n (Graph.node_ids (Graph.rg_graph G)).
Proof.
  intros Hiter Hwalks Hwf Hstart walk.
  destruct (generate_simple_route_sound shortest_path iter_set G Hiter Hwalks Hwf
              start_node return_to_start Hstart) as [Hsteps _].
  fold walk in Hsteps. split; [exact Hsteps|].
  destruct (generate_simple_route_head shortest_path iter_set G start_node
              return_to_start) as [rest Hhead].
  fold walk in Hhead. rewrite Hhead in *.
  now apply (follows_edges_nodes G Hwf rest start_node).
Qed.

(** X5: when return_to_start is set the walk ends at the start node,
    unless no path leads back from where the loop stopped. *)
Theorem walk_returns_to_start
    (shortest_path : Graph.route_graph -> Graph.node -> Graph.node -> list Graph.node)
    (iter_set : gset Graph.node -> list Graph.node)
    (G : Graph.route_graph) (start_node : Graph.node) :
  Spec.iterates_elements iter_set ->
  Laws.returns_walks shortest_path G ->
  Spec.well_formed (Graph.rg_graph G) ->
  In start_node (Graph.node_ids (Graph.rg_graph G)) ->
  exists c,
    last (Routing.generate_simple_route shortest_path iter_set G start_node true)
    = Some c /\
    (c = start_node \/ Graph.has_path G c start_node = false) /\
    (Spec.path_connected G -> c = start_node).
Proof.
  intros Hiter Hwalks Hwf Hstart.
  destruct (generate_simple_route_sound shortest_path iter_set G Hiter Hwalks Hwf
              start_node true Hstart) as [_ (front & c & Heq & Hc & Hend)].
  exists c. rewrite Heq, last_snoc. split; [reflexivity|].
  specialize (Hend eq_refl). split; [exact Hend|].
  intros Hconn. destruct Hend as [Hend|Hend]; [exact Hend|].
  rewrite (Hconn c start_node Hc Hstart) in Hend. discriminate.
Qed.

Section TriangleInstance.
Import Graph.

(** The reference instances meet the contracts on the sample block, in
    both views. *)
Lemma triangle_walks (travel_mode : string) :
  Laws.returns_walks Reference.shortest_path
    (Routing.route_view Samples.triangle travel_mode).
Proof.
  unfold Routing.route_view.
  destruct (String.eqb travel_mode "walking"); intros u v Hu Hv _;
    cbn in Hu, Hv;
    destruct Hu as [<-|[<-|[<-|[]]]]; destruct Hv as [<-|[<-|[<-|[]]]];
    vm_compute; eexists; (split; [reflexivity|]); (split; [reflexivity|]);
    intuition congruence.
Qed.

Lemma triangle_well_formed (travel_mode : string) :
  Spec.well_formed (rg_graph (Routing.route_view Samples.triangle travel_mode)).
Proof.
  apply route_view_well_formed. intros e He. cbn in He.
  destruct He as [<-|[<-|[<-|[]]]]; cbn; auto.
Qed.

Lemma triangle_node (travel_mode : string) (n : node) :
  In n [1; 2; 3]%Z ->
  In n (node_ids (rg_graph (Routing.route_view Samples.triangle travel_mode))).
Proof. rewrite route_view_nodes. exact (fun H => H). Qed.

End TriangleInstance.

Lemma walk_follows_edges_witness :
  Laws.follows_edges (Routing.route_view Samples.triangle "driving")
    (Routing.generate_simple_route Reference.shortest_path Reference.iter_set
       (Routing.route_view Samples.triangle "driving") 2%Z true) /\
  Routing.generate_simple_route Reference.shortest_path Reference.iter_set
    (Routing.route_view Samples.triangle "driving") 2%Z true = [2; 3; 1; 2]%Z.
Proof.
  split; [|vm_compute; reflexivity].
  apply (walk_follows_edges Reference.shortest_path Reference.iter_set
           (Routing.route_view Samples.triangle "driving") 2%Z true
           elements_iterates (triangle_walks "driving")
           (triangle_well_formed "driving")).
  apply triangle_node. cbn. auto.
Defined.

Lemma walk_returns_to_start_witness :
  exists c,
    last (Routing.generate_simple_route Reference.shortest_path Reference.iter_set
            (Routing.route_view Samples.triangle "walking") 3%Z true) = Some c /\
    (c = 3%Z \/ Graph.has_path (Routing.route_view Samples.triangle "walking") c 3%Z
                = false).
Proof.
  destruct (walk_returns_to_start Reference.shortest_path Reference.iter_set
              (Routing.route_view Samples.triangle "walking") 3%Z
              elements_iterates (triangle_walks "walking")
              (triangle_well_formed "walking"))
    as (c & Hlast & Hend & _).
  - apply triangle_node. cbn. auto.
  - exists c. split; assumption.
Defined.

(** ** routing.py: generate_route_for_zone on a well-formed zone *)

Section RouteRecord.
Import Graph Routing.

Lemma node_attrs_total (G : graph) (n : node) :
  In n (node_ids G) -> exists d, node_attrs G n = Returns d.
Proof.
  unfold node_attrs, node_ids. intros Hn.
  match goal with |- context [List.find ?f ?l] =>
    destruct (List.find f l) as [p|] eqn:Hfind end; [eauto|].
  apply in_map_iff in Hn as (p & <- & Hp).
  apply (find_none _ _ Hfind) in Hp. cbn in Hp. now rewrite Z.eqb_refl in Hp.
Qed.






End RouteRecord.



(** ** density.py: what the estimate writes and what it keeps *)

Section DensityFrame.
Import Graph.
Local Open Scope Z_scope.

Lemma estimate_units_positive (b : Density.building) :
  1 <= Density.estimate_units_per_building b.
Proof.
  unfold Density.estimate_units_per_building.
  destruct (existsb _ _); [|destruct (existsb _ _); lia].
  destruct (String.eqb _ _); lia.
Qed.

Abbreviation counted := Laws.counted.

Lemma counted_addresses (e : edge) : counted e -> 0 <= addresses_of e.
Proof. intros (a & Ha & Hpos). unfold addresses_of. now rewrite Ha. Qed.

Lemma fallback_counted (es : list edge) :
  Forall counted (map (fun e => set_estimated_addresses e (Density.fallback_estimate e)) es).
Proof.
  apply Forall_map, List.Forall_forall. intros e _. eexists. split; [reflexivity|].
  unfold Density.fallback_estimate. lia.
Qed.

Lemma fallback_frame (es : list edge) :
  map Laws.edge_frame
      (map (fun e => set_estimated_addresses e (Density.fallback_estimate e)) es)
  = map Laws.edge_frame es.
Proof. rewrite map_map. apply map_ext. reflexivity. Qed.

Lemma add_units_counted (u v : node) (k units : Z) (e : edge) :
  1 <= units -> counted e -> counted (Density.add_units u v k units e).
Proof.
  intros Hunits He. unfold Density.add_units.
  destruct (same_edge u v k e); [|exact He].
  eexists. split; [reflexivity|]. apply counted_addresses in He. lia.
Qed.

Lemma add_units_frame (u v : node) (k units : Z) (e : edge) :
  Laws.edge_frame (Density.add_units u v k units e) = Laws.edge_frame e.
Proof. unfold Density.add_units. destruct (same_edge u v k e); reflexivity. Qed.

Section Distance.
Variable distance : Q * Q -> list (Q * Q) -> Q.

Lemma assign_building_kept lines (max_distance_m : Q) (es : list edge)
    (b : Density.building) :
  Forall counted es ->
  Forall counted (Density.assign_building distance lines max_distance_m es b) /\
  map Laws.edge_frame (Density.assign_building distance lines max_distance_m es b)
  = map Laws.edge_frame es.
Proof.
  intros Hes. unfold Density.assign_building.
  destruct (fold_left _ lines None) as [[min_dist nearest]|]; [|auto].
  destruct (Qltb _ _); [|auto]. split.
  - apply Forall_map. eapply Forall_impl; [exact Hes|].
    intros e He. apply add_units_counted; [apply estimate_units_positive|exact He].
  - rewrite map_map. apply map_ext. intros e. apply add_units_frame.
Qed.

Lemma assign_fold_kept lines (max_distance_m : Q)
    (buildings : list Density.building) (es : list edge) :
  Forall counted es ->
  Forall counted (fold_left (Density.assign_building distance lines max_distance_m)
                            buildings es) /\
  map Laws.edge_frame (fold_left (Density.assign_building distance lines max_distance_m)
                                 buildings es)
  = map Laws.edge_frame es.
Proof.
  revert es. induction buildings as [|b bs IH]; intros es Hes; [auto|].
  cbn [fold_left].
  destruct (assign_building_kept lines max_distance_m es b Hes) as [Hc Hf].
  destruct (IH _ Hc) as [Hc' Hf']. split; [exact Hc'|]. now rewrite Hf'.
Qed.

Lemma zeroed_counted (es : list edge) :
  Forall counted (map (fun e => set_estimated_addresses e 0) es).
Proof.
  apply Forall_map, List.Forall_forall. intros e _. eexists. split; [reflexivity|lia].
Qed.

Lemma zeroed_frame (es : list edge) :
  map Laws.edge_frame (map (fun e => set_estimated_addresses e 0) es)
  = map Laws.edge_frame es.
Proof. rewrite map_map. apply map_ext. reflexivity. Qed.

Lemma assign_buildings_kept (G G1 : graph) (buildings : list Density.building)
    (max_distance_m : Q) :
  Density.assign_buildings_to_edges distance G buildings max_distance_m = Returns G1 ->
  nodes G1 = nodes G /\ Forall counted (edges G1) /\
  map Laws.edge_frame (edges G1) = map Laws.edge_frame (edges G).
Proof.
  unfold Density.assign_buildings_to_edges. destruct buildings as [|b bs].
  - intros [= <-]. cbn [Density.estimate_from_road_length with_edges nodes edges].
    split; [reflexivity|]. split; [apply fallback_counted|].
    now rewrite fallback_frame, zeroed_frame.
  - destruct (Density.edge_lines _ _) as [lines|]; [|discriminate].
    cbn [obind]. intros [= <-]. cbn [with_edges nodes edges].
    destruct (assign_fold_kept lines max_distance_m (b :: bs) _
                (zeroed_counted (edges G))) as [Hc Hf].
    split; [reflexivity|]. split; [exact Hc|].
    etransitivity; [exact Hf|apply zeroed_frame].
Qed.

Lemma estimate_density_kept (G G' : graph) (buildings : list Density.building) :
  Density.estimate_density distance G buildings = Returns G' ->
  nodes G' = nodes G /\ Forall counted (edges G') /\
  map Laws.edge_frame (edges G') = map Laws.edge_frame (edges G).
Proof.
  unfold Density.estimate_density.
  destruct (Density.assign_buildings_to_edges _ _ _ _) as [G1|] eqn:HG1;
    [|discriminate].
  destruct (assign_buildings_kept _ _ _ _ HG1) as (Hn & Hc & Hf).
  cbn [obind]. destruct (Z.eqb _ 0); intros [= <-]; [|auto].
  cbn [Density.estimate_from_road_length with_edges nodes edges].
  split; [exact Hn|]. split; [apply fallback_counted|]. now rewrite fallback_frame.
Qed.

End Distance.
End DensityFrame.

Section Conservation.
Import Graph.
Local Open Scope Z_scope.
Variable distance : Q * Q -> list (Q * Q) -> Q.

Abbreviation total es := (Zsum (map addresses_of es)).

Lemma same_edge_id (u v : node) (k : Z) (e : edge) :
  same_edge u v k e = true <-> Laws.edge_id e = (u, v, k).
Proof.
  unfold same_edge, Laws.edge_id. rewrite !andb_true_iff, !Z.eqb_eq.
  split; [intros [[-> ->] ->]; reflexivity|intros [= -> -> ->]; auto].
Qed.

Lemma add_units_absent (u v : node) (k units : Z) (es : list edge) :
  ~ In (u, v, k) (map Laws.edge_id es) ->
  map (Density.add_units u v k units) es = es.
Proof.
  induction es as [|e es IH]; intros Hout; [reflexivity|]. cbn [map] in *.
  rewrite IH by (intros H; apply Hout; now right). f_equal.
  unfold Density.add_units. destruct (same_edge u v k e) eqn:Hsame; [|reflexivity].
  apply same_edge_id in Hsame. exfalso. apply Hout. now left.
Qed.

(** Adding the units of a building to its edge raises the total by just
    these units: the edge is in the graph once. *)
Lemma add_units_total (u v : node) (k units : Z) (es : list edge) :
  List.NoDup (map Laws.edge_id es) -> In (u, v, k) (map Laws.edge_id es) ->
  total (map (Density.add_units u v k units) es) = total es + units.
Proof.
  induction es as [|e es IH]; intros Hnodup Hin; [destruct Hin|].
  cbn [map] in *. apply List.NoDup_cons_iff in Hnodup as [Hfresh Hnodup].
  rewrite !Zsum_cons. unfold Density.add_units at 1.
  destruct (same_edge u v k e) eqn:Hsame.
  - apply same_edge_id in Hsame. rewrite add_units_absent by congruence.
    unfold addresses_of at 1. cbn. lia.
  - destruct Hin as [Hin|Hin].
    + apply same_edge_id in Hin. congruence.
    + rewrite IH by assumption. lia.
Qed.

Lemma edge_lines_edges (G : graph) (es : list edge) lines :
  Density.edge_lines G es = Returns lines -> map fst lines = es.
Proof.
  revert lines. induction es as [|e es IH]; intros lines; cbn.
  - now intros [= <-].
  - destruct (Density.edge_line G e) as [line|]; [|discriminate]. cbn.
    destruct (Density.edge_lines G es) as [ls|]; [|discriminate]. cbn.
    intros [= <-]. cbn. f_equal. now apply IH.
Qed.

Lemma nearest_fold_edge (centroid : Q * Q) lines (best : option (Q * edge)) :
  forall d e,
    fold_left (Density.nearest_step distance centroid) lines best = Some (d, e) ->
    best = Some (d, e) \/ In e (map fst lines).
Proof.
  revert best. induction lines as [|l lines IH]; intros best d e; cbn [fold_left].
  - auto.
  - intros H. apply IH in H as [H|H]; [|right; now right].
    unfold Density.nearest_step in H. destruct best as [[m e0]|].
    + destruct (Qltb _ m); [|now left]. injection H as _ <-. right. now left.
    + injection H as _ <-. right. now left.
Qed.

Lemma assign_building_total lines (max_distance_m : Q) (es : list edge)
    (b : Density.building) :
  List.NoDup (map Laws.edge_id es) ->
  (forall e, In e (map fst lines) -> In (Laws.edge_id e) (map Laws.edge_id es)) ->
  total (Density.assign_building distance lines max_distance_m es b) =
  total es + (if Laws.accepted distance lines max_distance_m b
              then Density.estimate_units_per_building b else 0).
Proof.
  intros Hnodup Hlines. unfold Density.assign_building, Laws.accepted, Laws.nearest_edge.
  destruct (fold_left _ lines None) as [[min_dist nearest]|] eqn:Hfold; [|lia].
  destruct (Qltb _ _); [|lia].
  apply nearest_fold_edge in Hfold as [Hbad|Hin]; [discriminate|].
  apply add_units_total; [exact Hnodup|]. now apply Hlines.
Qed.

Lemma edge_id_frame (es es' : list edge) :
  map Laws.edge_frame es = map Laws.edge_frame es' ->
  map Laws.edge_id es = map Laws.edge_id es'.
Proof.
  intros H.
  assert (Hid : forall l, map Laws.edge_id l
                          = map (fun f => let '(u, v, k, _, _, _, _) := f in (u, v, k))
                                (map Laws.edge_frame l)).
  { intros l. rewrite map_map. apply map_ext. reflexivity. }
  now rewrite (Hid es), (Hid es'), H.
Qed.

Lemma assign_fold_total lines (max_distance_m : Q)
    (buildings : list Density.building) (es : list edge) :
  List.NoDup (map Laws.edge_id es) ->
  (forall e, In e (map fst lines) -> In (Laws.edge_id e) (map Laws.edge_id es)) ->
  Forall Laws.counted es ->
  total (fold_left (Density.assign_building distance lines max_distance_m)
                   buildings es) =
  total es +
  Zsum (map (fun b => if Laws.accepted distance lines max_distance_m b
                      then Density.estimate_units_per_building b else 0) buildings).
Proof.
  revert es. induction buildings as [|b bs IH]; intros es Hnodup Hlines Hes.
  - cbn [fold_left map]. change (Zsum []) with 0. lia.
  - cbn [fold_left map].
    destruct (assign_building_kept distance lines max_distance_m es b Hes)
      as [Hc Hf].
    apply edge_id_frame in Hf.
    rewrite IH; [|now rewrite Hf|now rewrite Hf|exact Hc].
    rewrite assign_building_total by assumption. rewrite Zsum_cons. lia.
Qed.

Lemma zeroed_total (es : list edge) :
  total (map (fun e => set_estimated_addresses e 0) es) = 0.
Proof.
  induction es as [|e es IH]; [reflexivity|]. cbn [map]. rewrite Zsum_cons, IH.
  reflexivity.
Qed.

End Conservation.

(** X7: the density step of generate_routes rewrites estimated_addresses
    and nothing else: the nodes and, edge by edge, the ends, key, length,
    name, highway and geometry are those of the input graph; and every
    edge ends with an estimate that is present and not negative. *)
Theorem density_rewrites_only_addresses
    (distance : Q * Q -> list (Q * Q) -> Q) (G G' : Graph.graph)
    (buildings : list Density.building) :
  Density.estimate_density distance G buildings = Returns G' ->
  Graph.nodes G' = Graph.nodes G /\
  map Laws.edge_frame (Graph.edges G') = map Laws.edge_frame (Graph.edges G) /\
  Forall Laws.counted (Graph.edges G').
Proof.
  intros Hret.
  destruct (estimate_density_kept distance G G' buildings Hret) as (Hn & Hc & Hf).
  auto.
Qed.

Lemma density_rewrites_only_addresses_witness :
  exists G',
    Density.estimate_density (fun _ _ => 0%Q) Samples.triangle
      [{| Density.b_type := "apartments"; Density.b_levels := Some 3%Z;
          Density.b_centroid := (0, 0)%Q |}] = Returns G' /\
    Graph.nodes G' = Graph.nodes Samples.triangle /\
    Forall Laws.counted (Graph.edges G').
Proof.
  eexists. split; [vm_compute; reflexivity|].
  match goal with |- Graph.nodes ?g = _ /\ _ =>
    destruct (density_rewrites_only_addresses (fun _ _ => 0%Q) Samples.triangle g
                [{| Density.b_type := "apartments"; Density.b_levels := Some 3%Z;
                    Density.b_centroid := (0, 0)%Q |}])
      as (Hn & _ & Hc)
  end.
  - vm_compute. reflexivity.
  - split; assumption.
Defined.

(** X8: density conservation.  When buildings were fetched and no two
    edges of the graph share ends and key, assign_buildings_to_edges
    leaves a total of estimated_addresses equal to the sum of the unit
    estimates of the buildings whose nearest edge is closer than
    max_distance_m / 111320; the other buildings add nothing. *)
Theorem density_conservation
    (distance : Q * Q -> list (Q * Q) -> Q) (G G1 : Graph.graph)
    (buildings : list Density.building) (max_distance_m : Q) :
  buildings <> [] ->
  List.NoDup (map Laws.edge_id (Graph.edges G)) ->
  Density.assign_buildings_to_edges distance G buildings max_distance_m
    = Returns G1 ->
  let G0 := Graph.with_edges G
              (map (fun e => Graph.set_estimated_addresses e 0) (Graph.edges G)) in
  exists lines,
    Density.edge_lines G0 (Graph.edges G0) = Returns lines /\
    Density.get_total_estimated_addresses G1 =
    Graph.Zsum
      (map (fun b => if Laws.accepted distance lines max_distance_m b
                     then Density.estimate_units_per_building b else 0%Z)
           buildings).
Proof.
  intros Hne Hnodup Hret G0. unfold Density.assign_buildings_to_edges in Hret.
  fold G0 in Hret. destruct buildings as [|b bs]; [congruence|].
  destruct (Density.edge_lines G0 (Graph.edges G0)) as [lines|] eqn:Hlines;
    [|discriminate].
  cbn [obind] in Hret. injection Hret as <-. exists lines. split; [reflexivity|].
  unfold Density.get_total_estimated_addresses. cbn [Graph.edges Graph.with_edges].
  apply edge_lines_edges in Hlines.
  assert (Hids : map Laws.edge_id (Graph.edges G0) = map Laws.edge_id (Graph.edges G)).
  { apply edge_id_frame. subst G0. cbn. apply zeroed_frame. }
  assert (H1 : List.NoDup (map Laws.edge_id (Graph.edges G0))) by now rewrite Hids.
  assert (H2 : forall e, In e (map fst lines) ->
                         In (Laws.edge_id e) (map Laws.edge_id (Graph.edges G0))).
  { intros e He. rewrite Hlines in He. now apply in_map. }
  assert (H3 : Forall Laws.counted (Graph.edges G0)).
  { subst G0. cbn. apply zeroed_counted. }
  pose proof (assign_fold_total distance lines max_distance_m (b :: bs)
                (Graph.edges G0) H1 H2 H3) as Ht.
  etransitivity; [exact Ht|].
  subst G0. cbn [Graph.edges Graph.with_edges]. rewrite zeroed_total. lia.
Qed.

Lemma density_conservation_witness :
  exists G1,
    Density.assign_buildings_to_edges
      (fun c line => match line with
                     | (lx, _) :: _ => Qmult (Qminus (fst c) lx) (Qminus (fst c) lx)
                     | [] => 1%Q end)
      Samples.triangle
      [{| Density.b_type := "apartments"; Density.b_levels := Some 3%Z;
          Density.b_centroid := (0, 0)%Q |};
       {| Density.b_type := "house"; Density.b_levels := None;
          Density.b_centroid := (50, 50)%Q |}] 50 = Returns G1 /\
    Density.get_total_estimated_addresses G1 = 12%Z.
Proof.
  eexists. split; [vm_compute; reflexivity|].
  match goal with |- Density.get_total_estimated_addresses ?g = _ =>
    destruct (density_conservation
                (fun c line => match line with
                               | (lx, _) :: _ =>
                                   Qmult (Qminus (fst c) lx) (Qminus (fst c) lx)
                               | [] => 1%Q end)
                Samples.triangle g
                [{| Density.b_type := "apartments"; Density.b_levels := Some 3%Z;
                    Density.b_centroid := (0, 0)%Q |};
                 {| Density.b_type := "house"; Density.b_levels := None;
                    Density.b_centroid := (50, 50)%Q |}] 50)
      as (lines & Hlines & Htotal)
  end.
  - discriminate.
  - vm_compute. repeat constructor; cbn; intuition congruence.
  - vm_compute. reflexivity.
  - rewrite Htotal. vm_compute in Hlines. injection Hlines as <-.
    vm_compute. reflexivity.
Defined.

(** ** network.py: the graph that leaves the road-network step *)

Section Tags.
Import Graph.

(** The highway tag survives every step of the density estimate. *)
Lemma default_tags_highway (e : edge) :
  is_Some (e_highway (data (Network.default_tags e))).
Proof. cbn. destruct (e_highway (data e)); eauto. Qed.




Section Distance.
Variable distance : Q * Q -> list (Q * Q) -> Q.






End Distance.
End Tags.

Section Ingest.
Import Graph.

Lemma filter_keeps_nodes_of_edges (G : graph) :
  Spec.well_formed G -> Spec.well_formed (Network.filter_residential_roads G).
Proof.
  intros Hwf e He. cbn [Network.filter_residential_roads edges] in He.
  pose proof He as Hkept. apply filter_In in Hkept as [HeG _].
  destruct (Hwf e HeG) as [Hs Hd].
  unfold node_ids in *. cbn [Network.filter_residential_roads nodes].
  split.
  - apply in_map_iff in Hs as ([n d] & Hp & Hin). cbn in Hp. subst n.
    apply in_map_iff. exists (src e, d).
    split; [reflexivity|]. apply filter_In. split; [exact Hin|].
    apply existsb_exists. exists e. split; [exact He|].
    cbn. now rewrite Z.eqb_refl.
  - apply in_map_iff in Hd as ([n d] & Hp & Hin). cbn in Hp. subst n.
    apply in_map_iff. exists (dst e, d).
    split; [reflexivity|]. apply filter_In. split; [exact Hin|].
    apply existsb_exists. exists e. split; [exact He|].
    cbn. rewrite Z.eqb_refl. apply orb_true_r.
Qed.

Lemma fetch_well_formed (osm : graph) :
  Spec.well_formed osm -> Spec.well_formed (Network.fetch_road_network osm).
Proof.
  intros Hwf e He. cbn in He. apply in_map_iff in He as (e0 & <- & He0).
  exact (Hwf e0 He0).
Qed.

End Ingest.

(** X9: the graph that the road-network step hands on has at least one
    edge; every edge of it is an edge of the provider's graph with its
    ends, key, length and geometry, carries a name and a highway tag, and
    is of a class the filter keeps; every node is an end of one of its
    edges; and it is well formed when the provider's graph is. *)
Theorem road_network_invariants (osm G : Graph.graph) :
  Network.road_network osm = Returns G ->
  Graph.edges G <> [] /\
  (forall e, In e (Graph.edges G) ->
     (exists e0, In e0 (Graph.edges osm) /\ e = Network.default_tags e0) /\
     is_Some (Graph.e_name (Graph.data e)) /\
     is_Some (Graph.e_highway (Graph.data e)) /\
     Network.kept e = true) /\
  (forall n, In n (Graph.node_ids G) ->
     In n (Graph.node_ids osm) /\
     exists e, In e (Graph.edges G) /\ (Graph.src e = n \/ Graph.dst e = n)) /\
  (Spec.well_formed osm -> Spec.well_formed G).
Proof.
  unfold Network.road_network.
  destruct (Nat.eqb_spec
              (length (Graph.edges (Network.filter_residential_roads
                                      (Network.fetch_road_network osm)))) 0)
    as [Hz|Hnz]; [discriminate|].
  intros [= <-]. split; [|split; [|split]].
  - intros Hnil. rewrite Hnil in Hnz. now apply Hnz.
  - intros e He. cbn in He. apply filter_In in He as [He Hkept].
    apply in_map_iff in He as (e0 & <- & He0).
    split; [eauto|]. split; [|split; [|exact Hkept]].
    + cbn. destruct (Graph.e_name (Graph.data e0)); eauto.
    + apply default_tags_highway.
  - intros n Hn. unfold Graph.node_ids in Hn.
    cbn [Network.filter_residential_roads Graph.nodes] in Hn.
    apply in_map_iff in Hn as (p & <- & Hp). apply filter_In in Hp as [Hp Hex].
    split; [now apply in_map|].
    apply existsb_exists in Hex as (e & He & Hends). exists e.
    split; [exact He|]. apply orb_prop in Hends.
    destruct Hends as [H|H]; apply Z.eqb_eq in H; auto.
  - intros Hwf. now apply filter_keeps_nodes_of_edges, fetch_well_formed.
Qed.

Lemma road_network_invariants_witness :
  exists G, Network.road_network Samples.lane_graph = Returns G /\
            Graph.edges G <> [].
Proof.
  eexists. split; [vm_compute; reflexivity|].
  match goal with |- Graph.edges ?g <> [] =>
    destruct (road_network_invariants Samples.lane_graph g) as [Hne _];
      [vm_compute; reflexivity|exact Hne]
  end.
Defined.



(** ** main.py: the rounding difference and the route records *)

Section Rounding.
Import Graph.
Local Open Scope Z_scope.




End Rounding.



Section RouteRecords.
Import Graph.
Variable shortest_path : route_graph -> node -> node -> list node.
Variable iter_set : gset node -> list node.


Lemma zone_colors_length : length Main.zone_colors = 20%nat.
Proof. reflexivity. Qed.

Lemma palette_lookup (i : nat) :
  Main.zone_colors !! (i mod length Main.zone_colors)%nat =
  Some (default ""%string (Main.zone_colors !! (i mod length Main.zone_colors)%nat)).
Proof.
  assert (Hk : (i mod length Main.zone_colors < length Main.zone_colors)%nat).
  { apply Nat.mod_upper_bound. rewrite zone_colors_length. discriminate. }
  revert Hk. generalize (i mod length Main.zone_colors)%nat. intros k Hk.
  destruct (Main.zone_colors !! k) as [c|] eqn:Hc; [reflexivity|].
  apply lookup_ge_None in Hc. lia.
Qed.

(** Route [j] of the answer: its number, its colour, its duration. *)
Lemma make_routes_records start_pt return_to_start travel_mode
    (zones : list graph) (flyers : list Z) (i : nat) (routes : list Main.route) :
  length flyers = length zones ->
  Main.make_routes shortest_path iter_set start_pt return_to_start travel_mode
    i zones flyers = Returns routes ->
  length routes = length zones /\
  forall j r, routes !! j = Some r ->
    Main.route_id r = (i + j + 1)%nat /\
    Main.route_zone_id r = (i + j + 1)%nat /\
    Main.zone_colors !! ((i + j) mod length Main.zone_colors)%nat
      = Some (Main.color r) /\
    (1 <= Main.estimated_duration_min r)%Z.
Proof.
  revert flyers i routes.
  induction zones as [|zone zones IH]; intros [|f flyers] i routes Hlen Hret;
    cbn [length] in Hlen; cbn [Main.make_routes] in Hret; try discriminate.
  - injection Hret as <-. split; [reflexivity|]. intros j r Hj. discriminate.
  - unfold Main.make_route in Hret.
    destruct (Routing.generate_route_for_zone _ _ zone _ _ _) as [rd|]; [|discriminate].
    cbn [obind] in Hret.
    destruct (Main.make_routes _ _ _ _ _ (S i) zones flyers) as [rs|] eqn:Hrs;
      [|discriminate].
    cbn [obind] in Hret. injection Hret as <-.
    destruct (IH flyers (S i) rs ltac:(lia) Hrs) as [Hl Hrec].
    split; [cbn; lia|]. intros [|j] r Hj.
    + injection Hj as <-.
      cbn [Main.route_id Main.route_zone_id Main.color Main.estimated_duration_min].
      rewrite Nat.add_0_r.
      split; [lia|]. split; [lia|]. split; [apply palette_lookup|lia].
    + cbn in Hj. destruct (Hrec j r Hj) as (H1 & H2 & H3 & H4).
      replace (i + S j)%nat with (S i + j)%nat by lia. auto.
Qed.

End RouteRecords.



(** ** export.py: which waypoints the Google Maps URL encodes *)

Section UrlPoints.
Import Exports.

Lemma every_nth_lookup {A} (step k i : nat) (l : list A) :
  (1 <= step)%nat -> every_nth step k l !! i = l !! (k + i * step)%nat.
Proof.
  intros Hstep. revert k i. induction l as [|x l IH]; intros k i.
  - cbn. now rewrite !lookup_nil.
  - cbn [every_nth]. destruct k as [|k].
    + destruct i as [|i]; [reflexivity|]. cbn [lookup list_lookup].
      rewrite IH. cbn [Nat.add Nat.mul].
      replace (step + i * step)%nat with (S (step - 1 + i * step)) by lia.
      reflexivity.
    + rewrite IH. reflexivity.
Qed.

Lemma slice_step_lookup {A} (step i : nat) (l : list A) :
  (1 <= step)%nat -> slice_step step l !! i = l !! (i * step)%nat.
Proof. intros Hstep. unfold slice_step. now rewrite every_nth_lookup. Qed.

(** The sampled list: 23 waypoints, one every [step]. *)
Lemma sample_waypoints_sampled (waypoints : list waypoint) :
  (25 < length waypoints)%nat ->
  let step := (length waypoints / 23)%nat in
  (1 <= step)%nat /\ (22 * step < length waypoints - 1)%nat /\
  length (sample_waypoints waypoints) = 23%nat /\
  forall i, (i < 23)%nat ->
    sample_waypoints waypoints !! i = waypoints !! (i * step)%nat.
Proof.
  intros Hlen step.
  assert (Hstep : (1 <= step)%nat).
  { subst step. apply Nat.div_le_lower_bound; lia. }
  assert (Hmul : (23 * step <= length waypoints)%nat).
  { subst step. apply Nat.Div0.mul_div_le. }
  assert (Hlast : (22 * step < length waypoints - 1)%nat) by lia.
  assert (Hlookup : forall i, (i < 23)%nat ->
            sample_waypoints waypoints !! i = waypoints !! (i * step)%nat).
  { intros i Hi. unfold sample_waypoints, max_wp.
    destruct (Nat.ltb_spec (23 + 2) (length waypoints)) as [_|Hge]; [|lia].
    fold step. rewrite lookup_take_lt by exact Hi. now apply slice_step_lookup. }
  split; [exact Hstep|]. split; [exact Hlast|]. split; [|exact Hlookup].
  assert (Hle : (length (sample_waypoints waypoints) <= 23)%nat).
  { unfold sample_waypoints, max_wp.
    destruct (Nat.ltb_spec (23 + 2) (length waypoints)) as [_|Hge]; [|lia].
    rewrite length_take. lia. }
  assert (Hsome : is_Some (sample_waypoints waypoints !! 22%nat)).
  { rewrite Hlookup by lia. apply lookup_lt_is_Some. lia. }
  apply lookup_lt_is_Some in Hsome. lia.
Qed.

Lemma interior_lookup {A} (l : list A) (i : nat) :
  (i + 2 < length l)%nat -> interior l !! i = l !! S i.
Proof.
  intros Hi. unfold interior. destruct l as [|a l]; [cbn in Hi; lia|].
  cbn [tail]. cbn in Hi. rewrite removelast_firstn_len.
  rewrite lookup_take_lt by lia. reflexivity.
Qed.

Lemma last_lookup_length {A} (l : list A) : last l = l !! (length l - 1)%nat.
Proof.
  induction l as [|a [|b l] IH]; [reflexivity..|].
  cbn [length] in *. rewrite last_cons_cons, IH.
  replace (S (S (length l)) - 1)%nat with (S (S (length l) - 1)) by lia.
  reflexivity.
Qed.

(** A list of two or more elements is its first, its interior and its
    last. *)
Lemma list_ends {A} (l : list A) :
  (2 <= length l)%nat ->
  exists o d, head l = Some o /\ last l = Some d /\ l = o :: interior l ++ [d].
Proof.
  destruct l as [|o t]; [cbn; lia|]. intros Hlen. cbn in Hlen.
  destruct (last t) as [d|] eqn:Hd.
  - exists o, d. split; [reflexivity|]. split.
    + destruct t; [discriminate|]. now rewrite last_cons_cons.
    + unfold interior. cbn [tail]. f_equal. now apply last_decompose.
  - apply last_None in Hd. subst t. cbn in Hlen. lia.
Qed.

End UrlPoints.

(** X13: for 2 to 25 waypoints generate_google_maps_url encodes the whole
    list: the origin is the first waypoint, the destination the last, the
    waypoints parameter (absent for two points) holds the ones between,
    in order; the travel mode is walking only for "walking". *)
Theorem url_encodes_short_lists (waypoints : list Exports.waypoint)
    (travel_mode : string) :
  (2 <= length waypoints <= 25)%nat ->
  exists u,
    Exports.google_maps_directions waypoints travel_mode = Some u /\
    Exports.origin u :: default [] (Exports.waypoints_param u)
      ++ [Exports.destination u] = waypoints /\
    (Exports.waypoints_param u = None <-> length waypoints = 2%nat) /\
    Exports.travelmode u =
      (if String.eqb travel_mode "walking" then "walking" else "driving")%string.
Proof.
  intros [Hlow Hhigh]. unfold Exports.google_maps_directions.
  destruct (Nat.ltb_spec (length waypoints) 2) as [Hlt|_]; [lia|].
  assert (Hs : Exports.sample_waypoints waypoints = waypoints).
  { unfold Exports.sample_waypoints, Exports.max_wp.
    destruct (Nat.ltb_spec (23 + 2) (length waypoints)); [lia|reflexivity]. }
  rewrite Hs. destruct (list_ends waypoints Hlow) as (o & d & -> & -> & Heq).
  eexists. split; [reflexivity|]. cbn [Exports.origin Exports.destination
                                        Exports.waypoints_param Exports.travelmode].
  split; [|split; [|reflexivity]].
  - destruct (Nat.ltb_spec 2 (length waypoints)) as [Hgt|Hle]; cbn [default].
    + symmetry. exact Heq.
    + assert (Hint : length (Exports.interior waypoints) = 0%nat)
        by (rewrite interior_length; lia).
      etransitivity; [|symmetry; exact Heq].
      destruct (Exports.interior waypoints); [reflexivity|discriminate].
  - destruct (Nat.ltb_spec 2 (length waypoints)) as [Hgt|Hle];
      split; intros H; try discriminate; try reflexivity; try lia.
Qed.

Lemma url_encodes_short_lists_witness :
  exists u,
    Exports.google_maps_directions (Samples.meridian 25) "cycling" = Some u /\
    Exports.origin u :: default [] (Exports.waypoints_param u)
      ++ [Exports.destination u] = Samples.meridian 25 /\
    Exports.travelmode u = "driving"%string.
Proof.
  destruct (url_encodes_short_lists (Samples.meridian 25) "cycling")
    as (u & Hu & Hall & _ & Hmode).
  - cbn. lia.
  - exists u. split; [exact Hu|]. split; [exact Hall|exact Hmode].
Defined.

(** X14: for more than 25 waypoints generate_google_maps_url encodes
    exactly 23 points, the k-th of them being waypoint k * step of the
    route with step = len // 23.  Its destination is waypoint 22 * step,
    which always lies before the last waypoint: the end of a sampled
    route is never in the URL. *)
Theorem url_samples_long_lists (waypoints : list Exports.waypoint)
    (travel_mode : string) :
  (25 < length waypoints)%nat ->
  let step := (length waypoints / 23)%nat in
  exists u via,
    Exports.google_maps_directions waypoints travel_mode = Some u /\
    Exports.waypoints_param u = Some via /\ length via = 21%nat /\
    Exports.encoded_points u = 23%nat /\
    waypoints !! 0%nat = Some (Exports.origin u) /\
    (forall k, (k < 21)%nat -> via !! k = waypoints !! ((k + 1) * step)%nat) /\
    waypoints !! (22 * step)%nat = Some (Exports.destination u) /\
    (22 * step < length waypoints - 1)%nat.
Proof.
  intros Hlen step.
  destruct (sample_waypoints_sampled waypoints Hlen)
    as (Hstep & Hlast & Hlen23 & Hlookup).
  fold step in Hstep, Hlast, Hlookup.
  unfold Exports.google_maps_directions.
  destruct (Nat.ltb_spec (length waypoints) 2) as [Hlt|_]; [lia|].
  set (sampled := Exports.sample_waypoints waypoints) in *.
  destruct (list_ends sampled ltac:(lia)) as (o & d & Ho & Hd & Heq).
  rewrite Ho, Hd. rewrite Hlen23. cbn [Nat.ltb Nat.leb].
  eexists. exists (Exports.interior sampled). split; [reflexivity|].
  assert (Hvia : length (Exports.interior sampled) = 21%nat)
    by (rewrite interior_length; lia).
  unfold Exports.encoded_points.
  cbn [Exports.waypoints_param Exports.origin Exports.destination].
  split; [reflexivity|]. split; [exact Hvia|]. split; [lia|].
  split; [|split; [|split; [|exact Hlast]]].
  - pose proof (Hlookup 0%nat ltac:(lia)) as H0. cbn [Nat.mul] in H0.
    rewrite <- H0, <- head_lookup. exact Ho.
  - intros k Hk. rewrite interior_lookup by lia.
    rewrite Hlookup by lia. f_equal. lia.
  - rewrite <- (Hlookup 22%nat) by lia. rewrite <- Hd, last_lookup_length, Hlen23.
    reflexivity.
Qed.

Lemma url_samples_long_lists_witness :
  exists u,
    Exports.google_maps_directions (Samples.meridian 100) "walking" = Some u /\
    Exports.destination u = (88, 0)%Q /\
    Exports.encoded_points u = 23%nat.
Proof.
  destruct (url_samples_long_lists (Samples.meridian 100) "walking")
    as (u & via & Hu & _ & _ & Hpoints & _ & _ & Hdest & _).
  - vm_compute. lia.
  - exists u. split; [exact Hu|]. split; [|exact Hpoints].
    assert (Hc : Some (88, 0)%Q = Some (Exports.destination u))
      by (rewrite <- Hdest; vm_compute; reflexivity).
    now injection Hc.
Defined.

(** ** routing.py: the numbering and wording of the directions *)

Section Directions.
Import Graph Routing.

Lemma merge_step_length (merged : list direction) (d : direction) :
  (length (merge_step merged d) <= S (length merged))%nat.
Proof.
  unfold merge_step. destruct (last merged) as [m|] eqn:Hlast.
  - destruct (String.eqb _ _).
    + rewrite length_app, removelast_firstn_len, length_take. cbn. lia.
    + rewrite length_app. cbn. lia.
  - rewrite length_app. cbn. lia.
Qed.

Lemma merge_fold_length (directions merged : list direction) :
  (length (fold_left merge_step directions merged)
   <= length merged + length directions)%nat.
Proof.
  revert merged. induction directions as [|d ds IH]; intros merged; cbn; [lia|].
  etransitivity; [apply IH|]. pose proof (merge_step_length merged d). lia.
Qed.

Lemma raw_directions_length (G : graph) (f : nat -> nat) (pairs : list (node * node)) :
  (length (concat (imap (fun i => raw_direction G (f i)) pairs)) <= length pairs)%nat.
Proof.
  revert f. induction pairs as [|uv pairs IH]; intros f; [reflexivity|].
  cbn [imap concat]. rewrite length_app. cbn [length].
  change (S (length pairs)) with (1 + length pairs)%nat.
  apply Nat.add_le_mono; [|exact (IH (f ∘ S))].
  unfold raw_direction. destruct (first_edge_data G (fst uv) (snd uv)); cbn; lia.
Qed.

Lemma consecutive_length (route_nodes : list node) :
  length (consecutive route_nodes) = (length route_nodes - 1)%nat.
Proof.
  unfold consecutive. rewrite length_combine.
  destruct route_nodes; cbn [tail length]; lia.
Qed.

(** A merge never touches the wording of the first step. *)
Lemma merge_step_head (merged : list direction) (d h : direction) :
  head merged = Some h ->
  exists h', head (merge_step merged d) = Some h' /\
    instruction h' = instruction h /\ street_name h' = street_name h.
Proof.
  intros Hh. unfold merge_step. destruct merged as [|a merged]; [discriminate|].
  injection Hh as ->. destruct (last (h :: merged)) as [m|] eqn:Hlast.
  - destruct (String.eqb _ _); [|exists h; cbn; auto].
    destruct merged as [|b merged].
    + injection Hlast as <-. exists (add_distance h (distance_m d)). cbn. auto.
    + exists h. cbn. auto.
  - exists h. cbn. auto.
Qed.

Lemma merge_fold_head (directions merged : list direction) (h : direction) :
  head merged = Some h ->
  exists h', head (fold_left merge_step directions merged) = Some h' /\
    instruction h' = instruction h /\ street_name h' = street_name h.
Proof.
  revert merged h. induction directions as [|d ds IH]; intros merged h Hh.
  - exists h. auto.
  - cbn [fold_left]. destruct (merge_step_head merged d h Hh) as (h1 & H1 & Hi & Hn).
    destruct (IH _ _ H1) as (h' & H' & Hi' & Hn'). exists h'.
    split; [exact H'|]. split; congruence.
Qed.

End Directions.

(** X15: the steps of generate_turn_by_turn are numbered 1, 2, ..., N
    with N at most the number of segments of the walk; every step after
    the first reads "Turn onto <street>", and the first reads
    "Start on <street>" whenever the first segment of the walk has edge
    data. *)
Theorem turn_by_turn_numbering (G : Graph.graph) (route_nodes : list Graph.node) :
  let steps := Routing.generate_turn_by_turn G route_nodes in
  map Routing.step steps = map Some (seq 1 (length steps)) /\
  (length steps <= length route_nodes - 1)%nat /\
  (forall i d, steps !! S i = Some d ->
     Routing.instruction d = ("Turn onto " ++ Routing.street_name d)%string) /\
  (forall a b rest d,
     route_nodes = a :: b :: rest ->
     is_Some (Routing.first_edge_data G a b) ->
     steps !! 0%nat = Some d ->
     Routing.instruction d = ("Start on " ++ Routing.street_name d)%string).
Proof.
  intros steps. subst steps. unfold Routing.generate_turn_by_turn.
  set (directions := concat (imap (Routing.raw_direction G)
                                  (Routing.consecutive route_nodes))).
  set (merged := fold_left Routing.merge_step directions []).
  split; [|split; [|split]].
  - apply list_eq. intros j. rewrite !list_lookup_fmap, list_lookup_imap.
    rewrite length_imap.
    destruct (merged !! j) as [d|] eqn:Hj; cbn.
    + apply lookup_lt_Some in Hj. rewrite lookup_seq_lt by exact Hj. cbn.
      do 2 f_equal. lia.
    + apply lookup_ge_None in Hj. rewrite lookup_seq_ge by exact Hj. reflexivity.
  - rewrite length_imap. subst merged.
    etransitivity; [apply merge_fold_length|]. cbn [length Nat.add].
    subst directions.
    etransitivity; [apply (raw_directions_length G (fun i => i))|].
    now rewrite consecutive_length.
  - intros i d Hd. rewrite list_lookup_imap in Hd.
    destruct (merged !! S i) as [m|]; [|discriminate]. cbn in Hd.
    injection Hd as <-. reflexivity.
  - intros a b rest d -> [ed Hed] Hd. rewrite list_lookup_imap in Hd.
    subst merged directions. unfold Routing.consecutive in Hd.
    cbn [tail combine imap concat] in Hd.
    unfold Routing.raw_direction at 1 in Hd. cbn [fst snd] in Hd. rewrite Hed in Hd.
    cbn [app fold_left Routing.merge_step last] in Hd.
    match type of Hd with context [fold_left Routing.merge_step ?ds [?h]] =>
      destruct (merge_fold_head ds [h] h eq_refl) as (h' & Hh' & Hi & Hn)
    end.
    rewrite <- head_lookup, Hh' in Hd. cbn in Hd. injection Hd as <-.
    cbn. rewrite Hi, Hn. reflexivity.
Qed.

Lemma turn_by_turn_numbering_witness :
  exists d1 d2,
    Routing.generate_turn_by_turn Samples.triangle [1; 2; 3; 1]%Z = [d1; d2] /\
    Routing.instruction d1 = "Start on Elm Street"%string /\
    Routing.instruction d2 = "Turn onto Oak Street"%string /\
    map Routing.step [d1; d2] = [Some 1%nat; Some 2%nat].
Proof.
  destruct (turn_by_turn_numbering Samples.triangle [1; 2; 3; 1]%Z)
    as (Hnum & _ & Hturn & Hstart).
  assert (Hsteps : exists d1 d2,
            Routing.generate_turn_by_turn Samples.triangle [1; 2; 3; 1]%Z = [d1; d2] /\
            Routing.street_name d1 = "Elm Street"%string /\
            Routing.street_name d2 = "Oak Street"%string).
  { eexists _, _. split; [vm_compute; reflexivity|]. split; reflexivity. }
  destruct Hsteps as (d1 & d2 & Heq & Hn1 & Hn2).
  rewrite Heq in Hnum, Hturn, Hstart. exists d1, d2.
  split; [exact Heq|]. split; [|split; [|exact Hnum]].
  - rewrite (Hstart 1%Z 2%Z [3; 1]%Z d1 eq_refl); [now rewrite Hn1| |reflexivity].
    vm_compute. eauto.
  - rewrite (Hturn 0%nat d2 eq_refl). now rewrite Hn2.
Defined.

(** ** main.py and area.py: the geometry step *)


(** ** partition.py: the zones of a partition into two or more *)

Section Zones.
Import Graph Partition.
Variable interpolate_half : list (Q * Q) -> Q * Q.
Variable fit_predict : nat -> list (Q * Q) -> list nat.

Lemma all_edge_features_ids (G : graph) (balance_priority : string)
    (es : list edge) (infos : list edge_info) :
  all_edge_features interpolate_half G balance_priority es = Returns infos ->
  map ei_edge infos = map Laws.edge_id es.
Proof.
  revert infos. induction es as [|e es IH]; intros infos; cbn [all_edge_features].
  - now intros [= <-].
  - destruct (edge_features interpolate_half G balance_priority e) as [info|] eqn:He;
      [|discriminate]. cbn [obind].
    destruct (all_edge_features interpolate_half G balance_priority es) as [rest|];
      [|discriminate]. cbn [obind]. intros [= <-]. cbn [map]. f_equal; [|now apply IH].
    unfold edge_features in He.
    destruct (match e_geometry (data e) with Some _ => _ | None => _ end) as [mid|];
      [|discriminate].
    cbn in He. now injection He as <-.
Qed.

Lemma subgraph_parts (sub : graph) (keep : gset node) :
  (forall e, In e (edges (subgraph sub keep)) -> In e (edges sub)) /\
  (forall p, In p (nodes (subgraph sub keep)) -> In p (nodes sub)).
Proof.
  split; cbn; intros x Hx; now apply filter_In in Hx as [Hx _].
Qed.

Lemma keep_largest_parts (sub : graph) :
  (forall e, In e (edges (keep_largest_component sub)) -> In e (edges sub)) /\
  (forall p, In p (nodes (keep_largest_component sub)) -> In p (nodes sub)).
Proof.
  unfold keep_largest_component.
  destruct (0 <? length (edges sub))%nat; [|auto].
  destruct (negb (is_weakly_connected sub)); [|auto].
  destruct (largest_component _) as [largest|]; [apply subgraph_parts|auto].
Qed.

Lemma edge_subgraph_parts (G : graph) (sel : list (node * node * Z)) :
  (forall e, In e (edges (edge_subgraph G sel)) ->
     In e (edges G) /\ In (Laws.edge_id e) sel) /\
  (forall p, In p (nodes (edge_subgraph G sel)) -> In p (nodes G)).
Proof.
  split; cbn.
  - intros e He. apply filter_In in He as [He Hsel]. split; [exact He|].
    apply existsb_exists in Hsel as ([[u v] k] & Hin & Hsame). cbn in Hsame.
    apply same_edge_id in Hsame. now rewrite Hsame.
  - intros p Hp. now apply filter_In in Hp as [Hp _].
Qed.

(** A zone made for a label carries that label and edges of the graph
    that were given it. *)
Lemma make_zone_spec (G : graph) (labelled : list (nat * edge_info)) (l : nat)
    (z : graph) :
  In z (make_zone G labelled l) ->
  zone_id z = Some (Z.of_nat l) /\
  (forall e, In e (edges z) ->
     In e (edges G) /\
     exists info, In (l, info) labelled /\ ei_edge info = Laws.edge_id e) /\
  (forall p, In p (nodes z) -> In p (nodes G)).
Proof.
  unfold make_zone.
  set (zedges := map (fun p => ei_edge (snd p))
                     (List.filter (fun p => Nat.eqb (fst p) l) labelled)).
  destruct zedges as [|t ts] eqn:Hz; [intros []|].
  intros [<-|[]]. rewrite <- Hz. clear Hz t ts. split; [reflexivity|]. split.
  - intros e He. cbn [edges set_zone_id] in He.
    apply (proj1 (keep_largest_parts _)) in He.
    apply (proj1 (edge_subgraph_parts G zedges)) in He as [He Hsel].
    split; [exact He|]. subst zedges.
    apply in_map_iff in Hsel as ([l' info] & Hid & Hin).
    apply filter_In in Hin as [Hin Hl]. cbn in Hl, Hid.
    apply Nat.eqb_eq in Hl. subst l'. eauto.
  - intros p Hp. cbn [nodes set_zone_id] in Hp.
    apply (proj2 (keep_largest_parts _)) in Hp.
    now apply (proj2 (edge_subgraph_parts G zedges)) in Hp.
Qed.

Lemma make_zone_length (G : graph) (labelled : list (nat * edge_info)) (l : nat) :
  (length (make_zone G labelled l) <= 1)%nat.
Proof.
  unfold make_zone. destruct (map _ _); cbn; lia.
Qed.

(** The zones come in the order of their labels. *)
Lemma make_zones_ids (G : graph) (labelled : list (nat * edge_info)) (ls : list nat) :
  exists ls',
    map zone_id (flat_map (make_zone G labelled) ls)
    = map (fun l => Some (Z.of_nat l)) ls' /\
    sublist ls' ls.
Proof.
  induction ls as [|a ls IH].
  - exists []. split; [reflexivity|constructor].
  - destruct IH as (ls' & Hids & Hsub).
    cbn [flat_map]. rewrite map_app, Hids.
    pose proof (make_zone_length G labelled a) as Hone.
    destruct (make_zone G labelled a) as [|z [|z' zs]] eqn:Hz.
    + exists ls'. split; [reflexivity|]. now constructor.
    + destruct (make_zone_spec G labelled a z) as (Hid & _); [rewrite Hz; now left|].
      exists (a :: ls'). cbn. rewrite Hid. split; [reflexivity|]. now constructor.
    + cbn in Hone. lia.
Qed.

Lemma combine_lookup {A B} (xs : list A) (ys : list B) (x : A) (y : B) :
  In (x, y) (combine xs ys) -> exists i, xs !! i = Some x /\ ys !! i = Some y.
Proof.
  revert ys. induction xs as [|a xs IH]; intros [|b ys] Hin; try destruct Hin.
  - injection H as -> ->. exists 0%nat. auto.
  - destruct (IH ys H) as (i & Hx & Hy). exists (S i). auto.
Qed.

End Zones.

(** X17: for two or more zones partition_graph_into_zones returns at
    most num_zones zones, whose zone_id values are cluster labels taken
    in order from 0, 1, ..., num_zones - 1, none of them twice; the nodes and edges of every zone are
    nodes and edges of the graph; and when no two edges of the graph
    share ends and key, no edge lies in two zones. *)
Theorem partition_zones_structure
    (interpolate_half : list (Q * Q) -> Q * Q)
    (fit_predict : nat -> list (Q * Q) -> list nat)
    (G : Graph.graph) (num_zones : nat) (balance_priority : string)
    (zones : list Graph.graph) :
  num_zones <> 1%nat ->
  Partition.partition_graph_into_zones interpolate_half fit_predict G num_zones
    balance_priority = Returns zones ->
  (length zones <= num_zones)%nat /\
  (exists labels,
     map Graph.zone_id zones = map (fun l => Some (Z.of_nat l)) labels /\
     sublist labels (seq 0 num_zones)) /\
  (forall z, In z zones ->
     (forall e, In e (Graph.edges z) -> In e (Graph.edges G)) /\
     (forall p, In p (Graph.nodes z) -> In p (Graph.nodes G))) /\
  (List.NoDup (map Laws.edge_id (Graph.edges G)) ->
   forall z1 z2 e1 e2,
     In z1 zones -> In z2 zones ->
     In e1 (Graph.edges z1) -> In e2 (Graph.edges z2) ->
     Laws.edge_id e1 = Laws.edge_id e2 -> Graph.zone_id z1 = Graph.zone_id z2).
Proof.
  intros HK Hret. unfold Partition.partition_graph_into_zones in Hret.
  destruct (Nat.eqb_spec num_zones 1) as [|_]; [contradiction|].
  destruct (Partition.all_edge_features interpolate_half G balance_priority
              (Graph.edges G)) as [edge_data|] eqn:Hfeat; [|discriminate].
  cbn [obind] in Hret. injection Hret as <-.
  set (labelled := combine (Partition.cluster_labels fit_predict num_zones edge_data)
                           edge_data).
  destruct (make_zones_ids G labelled (seq 0 num_zones)) as (ls & Hids & Hsub).
  assert (Hzone : forall z, In z (flat_map (Partition.make_zone G labelled) (seq 0 num_zones)) ->
            exists l, In z (Partition.make_zone G labelled l)).
  { intros z Hz. apply in_flat_map in Hz as (l & _ & Hz). eauto. }
  split; [|split; [|split]].
  - rewrite <- (length_map Graph.zone_id), Hids, length_map.
    apply sublist_length in Hsub. now rewrite length_seq in Hsub.
  - exists ls. split; [exact Hids|exact Hsub].
  - intros z Hz. destruct (Hzone z Hz) as [l Hl].
    destruct (make_zone_spec G labelled l z Hl) as (_ & He & Hn). split.
    + intros e Hin. now apply He.
    + exact Hn.
  - intros Hnodup z1 z2 e1 e2 Hz1 Hz2 He1 He2 Hsame.
    destruct (Hzone z1 Hz1) as [l1 Hl1]. destruct (Hzone z2 Hz2) as [l2 Hl2].
    destruct (make_zone_spec G labelled l1 z1 Hl1) as (Hid1 & Hed1 & _).
    destruct (make_zone_spec G labelled l2 z2 Hl2) as (Hid2 & Hed2 & _).
    destruct (Hed1 e1 He1) as (_ & info1 & Hin1 & Hi1).
    destruct (Hed2 e2 He2) as (_ & info2 & Hin2 & Hi2).
    apply combine_lookup in Hin1 as (i & Hli & Hdi).
    apply combine_lookup in Hin2 as (j & Hlj & Hdj).
    assert (Hij : i = j).
    { apply all_edge_features_ids in Hfeat. rewrite <- Hfeat in Hnodup.
      apply NoDup_ListNoDup in Hnodup.
      apply (NoDup_lookup _ i j (Laws.edge_id e1) Hnodup).
      - now rewrite list_lookup_fmap, Hdi, <- Hi1.
      - now rewrite list_lookup_fmap, Hdj, Hsame, <- Hi2. }
    subst j. rewrite Hid1, Hid2. congruence.
Qed.

Lemma partition_zones_structure_witness :
  exists zones,
    Partition.partition_graph_into_zones (fun _ => (0, 0)%Q)
      (fun _ points => map (fun p => if Qle_bool 3 (snd p) then 1%nat else 0%nat) points)
      Samples.two_roads 2 "density" = Returns zones /\
    map Graph.zone_id zones = [Some 0%Z; Some 1%Z] /\
    (length zones <= 2)%nat.
Proof.
  eexists. split; [vm_compute; reflexivity|]. split; [vm_compute; reflexivity|].
  match goal with |- (length ?zs <= _)%nat =>
    destruct (partition_zones_structure (fun _ => (0, 0)%Q)
                (fun _ points => map (fun p => if Qle_bool 3 (snd p) then 1%nat else 0%nat)
                                     points)
                Samples.two_roads 2 "density" zs) as (Hlen & _)
  end.
  - discriminate.
  - vm_compute. reflexivity.
  - exact Hlen.
Defined.

(** ** partition.py: the connectivity repair *)

Section Reach.
Import Graph.
Variable nbrs : node -> list node.

Lemma expand_spec (s : gset node) (v : node) :
  v ∈ expand nbrs s <-> v ∈ s \/ exists u, u ∈ s /\ In v (nbrs u).
Proof.
  unfold expand. rewrite elem_of_union, elem_of_list_to_set, list_elem_of_In, in_flat_map.
  split; (intros [H|(u & Hu & Hv)]; [now left|right; exists u; split; [|exact Hv]]).
  - now apply elem_of_elements, list_elem_of_In.
  - now apply list_elem_of_In, elem_of_elements.
Qed.

Lemma reach_S (k : nat) (u : node) :
  reach nbrs (S k) u = expand nbrs (reach nbrs k u).
Proof. reflexivity. Qed.

Lemma reach_start (k : nat) (u : node) : u ∈ reach nbrs k u.
Proof.
  induction k as [|k IH]; [now apply elem_of_singleton|].
  rewrite reach_S, expand_spec. now left.
Qed.

Lemma reach_mono (k : nat) (u : node) : reach nbrs k u ⊆ reach nbrs (S k) u.
Proof. intros v Hv. rewrite reach_S, expand_spec. now left. Qed.

(** A closed set holds all that is reached from any of its nodes. *)
Lemma reach_closed_in (c : gset node) (k : nat) (u : node) :
  u ∈ c -> Laws.closed_under nbrs c -> reach nbrs k u ⊆ c.
Proof.
  intros Hu Hc. induction k as [|k IH]; intros v Hv.
  - apply elem_of_singleton in Hv. now subst.
  - rewrite reach_S, expand_spec in Hv. destruct Hv as [Hv|(w & Hw & Hv)].
    + now apply IH.
    + eapply Hc; [apply IH, Hw|exact Hv].
Qed.

Lemma reach_stable (k : nat) (u : node) :
  reach nbrs (S k) u = reach nbrs k u ->
  forall j, reach nbrs (j + k) u = reach nbrs k u.
Proof.
  intros Hk j. induction j as [|j IH]; [reflexivity|].
  cbn [Nat.add]. rewrite reach_S, IH. exact Hk.
Qed.

Lemma reach_stable_closed (k : nat) (u : node) :
  reach nbrs (S k) u = reach nbrs k u -> Laws.closed_under nbrs (reach nbrs k u).
Proof.
  intros Hk a b Ha Hb. rewrite <- Hk, reach_S, expand_spec. right. eauto.
Qed.

(** As long as the search finds new nodes, every round adds one. *)
Lemma reach_grows (k : nat) (u : node) :
  (forall j, (j < k)%nat -> reach nbrs (S j) u <> reach nbrs j u) ->
  (k + 1 <= size (reach nbrs k u))%nat.
Proof.
  induction k as [|k IH]; intros Hne.
  - cbn. rewrite size_singleton. lia.
  - assert (Hlt : (size (reach nbrs k u) < size (reach nbrs (S k) u))%nat).
    { apply subset_size. split; [apply reach_mono|]. intros Hsub.
      apply (Hne k); [lia|]. apply set_eq. intros x. split; [apply Hsub|apply reach_mono]. }
    assert (Hk : (k + 1 <= size (reach nbrs k u))%nat) by (apply IH; intros; apply Hne; lia).
    lia.
Qed.

Lemma reach_settles (k : nat) (u : node) :
  (exists j, (j < k)%nat /\ reach nbrs (S j) u = reach nbrs j u) \/
  (forall j, (j < k)%nat -> reach nbrs (S j) u <> reach nbrs j u).
Proof.
  induction k as [|k IH].
  - right. intros j Hj. lia.
  - destruct IH as [(j & Hj & He)|Hne]; [left; exists j; split; [lia|exact He]|].
    destruct (decide (reach nbrs (S k) u = reach nbrs k u)) as [He|Hn].
    + left. exists k. split; [lia|exact He].
    + right. intros j Hj. destruct (Nat.eq_dec j k) as [->|]; [exact Hn|apply Hne; lia].
Qed.

(** A search that stays among N nodes is complete after N rounds. *)
Lemma reach_saturates (V : gset node) (N : nat) (u : node) :
  (forall k, reach nbrs k u ⊆ V) -> (size V <= N)%nat ->
  Laws.closed_under nbrs (reach nbrs N u).
Proof.
  intros Hin Hsize. destruct (reach_settles (S N) u) as [(j & Hj & He)|Hne].
  - assert (Heq : reach nbrs N u = reach nbrs j u).
    { replace N with ((N - j) + j)%nat at 1 by lia. now apply reach_stable. }
    rewrite Heq. now apply reach_stable_closed.
  - pose proof (reach_grows (S N) u Hne) as Hbig.
    pose proof (subseteq_size _ _ (Hin (S N))) as Hsmall. lia.
Qed.

(** Over a symmetric adjacency a component is the component of each of
    its nodes, also when the search is run inside the component. *)
Lemma component_of_member (nbrs' : node -> list node) (C D : gset node) (n m : node)
    (N : nat) :
  C = reach nbrs N n ->
  Laws.symmetric nbrs -> Laws.closed_under nbrs C ->
  (forall u v, u ∈ C -> In v (nbrs u) <-> In v (nbrs' u)) ->
  Laws.closed_under nbrs' D -> D ⊆ C -> m ∈ D -> D = C.
Proof.
  intros HCdef Hsym HC Hagree HD Hsub Hm.
  assert (HDn : Laws.closed_under nbrs D).
  { intros u v Hu Hv. apply (HD u v Hu). apply Hagree; [apply Hsub, Hu|exact Hv]. }
  assert (Hn : n ∈ D).
  { destruct (decide (n ∈ D)) as [|Hout]; [assumption|exfalso].
    assert (HE : Laws.closed_under nbrs (C ∖ D)).
    { intros u v Hu Hv. apply elem_of_difference in Hu as [HuC HuD].
      apply elem_of_difference. split; [eapply HC; eauto|].
      intros HvD. apply HuD. apply (HDn v u HvD). now apply Hsym. }
    assert (Hall : C ⊆ C ∖ D).
    { rewrite HCdef at 1. apply reach_closed_in; [|exact HE].
      apply elem_of_difference. split; [|exact Hout].
      rewrite HCdef. apply reach_start. }
    pose proof (Hall m (Hsub m Hm)) as Hx.
    apply elem_of_difference in Hx as [_ Hx]. exact (Hx Hm). }
  apply set_eq. intros x. split; [apply Hsub|].
  rewrite HCdef. now apply reach_closed_in.
Qed.

End Reach.


Section Repair.
Import Graph Partition.

Lemma adjacent_spec (G : graph) (u v : node) :
  In v (adjacent G u) <->
  exists e, In e (edges G) /\
            ((src e = u /\ dst e = v) \/ (src e = v /\ dst e = u)).
Proof.
  split.
  - intros Hv. exact (neighbors_edge (Undirected G) u v Hv).
  - intros (e & He & Hends). unfold adjacent.
    apply first_occurrences_In, in_map_iff. exists e. split.
    + unfold other_end. destruct Hends as [[Hs Hd]|[Hs Hd]].
      * rewrite Hs, Z.eqb_refl. exact Hd.
      * destruct (Z.eqb_spec (src e) u) as [Heq|_]; [congruence|exact Hs].
    + apply filter_In. split; [exact He|]. apply orb_true_iff.
      destruct Hends as [[Hs _]|[_ Hd]]; [left|right]; now apply Z.eqb_eq.
Qed.

Lemma adjacent_symmetric (G : graph) : Laws.symmetric (adjacent G).
Proof.
  intros u v Hv. apply adjacent_spec in Hv as (e & He & Hends).
  apply adjacent_spec. exists e. tauto.
Qed.

Lemma node_ids_filter (f : node -> bool) (l : list (node * node_data)) :
  map fst (List.filter (fun p => f (fst p)) l) = List.filter f (map fst l).
Proof.
  induction l as [|p l IH]; [reflexivity|]. cbn [List.filter map].
  destruct (f (fst p)); cbn [map]; now rewrite IH.
Qed.

Lemma subgraph_node_ids (G : graph) (keep : gset node) :
  node_ids (subgraph G keep)
  = List.filter (fun n => bool_decide (n ∈ keep)) (node_ids G).
Proof.
  exact (node_ids_filter (fun n => bool_decide (n ∈ keep)) (nodes G)).
Qed.

Lemma nodes_closed (G : graph) :
  Spec.well_formed G ->
  Laws.closed_under (adjacent G) (list_to_set (node_ids G)).
Proof.
  intros Hwf u v Hu Hv. apply elem_of_list_to_set, list_elem_of_In.
  apply adjacent_spec in Hv as (e & He & Hends). destruct (Hwf e He) as [Hs Hd].
  destruct Hends as [[_ <-]|[<- _]]; assumption.
Qed.

Lemma component_nodes (G : graph) (n : node) :
  Spec.well_formed G -> In n (node_ids G) ->
  component G n ⊆ list_to_set (node_ids G).
Proof.
  intros Hwf Hn. apply reach_closed_in; [|now apply nodes_closed].
  now apply elem_of_list_to_set, list_elem_of_In.
Qed.

(** The search for a component is complete: no edge leaves it. *)
Lemma component_closed (G : graph) (n : node) :
  Spec.well_formed G -> List.NoDup (node_ids G) -> In n (node_ids G) ->
  Laws.closed_under (adjacent G) (component G n).
Proof.
  intros Hwf Hnd Hn. apply (reach_saturates _ (list_to_set (node_ids G))).
  - intros k. apply reach_closed_in; [|now apply nodes_closed].
    now apply elem_of_list_to_set, list_elem_of_In.
  - rewrite size_list_to_set by now apply NoDup_ListNoDup.
    unfold node_ids. now rewrite length_map.
Qed.

Lemma subgraph_adjacent (G : graph) (C : gset node) (u v : node) :
  Laws.closed_under (adjacent G) C -> u ∈ C ->
  In v (adjacent G u) <-> In v (adjacent (subgraph G C) u).
Proof.
  intros HC Hu. rewrite !adjacent_spec. split; intros (e & He & Hends).
  - exists e. split; [|exact Hends]. cbn [edges subgraph]. apply filter_In.
    split; [exact He|].
    assert (Hv : v ∈ C).
    { apply (HC u v Hu). apply adjacent_spec. eauto. }
    apply andb_true_iff.
    destruct Hends as [[-> ->]|[-> ->]]; split; now apply bool_decide_eq_true_2.
  - exists e. split; [|exact Hends]. cbn [edges subgraph] in He.
    now apply filter_In in He as [He _].
Qed.

(** The subgraph on a component is weakly connected. *)
Lemma subgraph_component_connected (G : graph) (n : node) :
  Spec.well_formed G -> List.NoDup (node_ids G) -> In n (node_ids G) ->
  is_weakly_connected (subgraph G (component G n)) = true.
Proof.
  intros Hwf Hnd Hn. set (C := component G n).
  assert (HC : Laws.closed_under (adjacent G) C) by now apply component_closed.
  assert (Hids : list_to_set (node_ids (subgraph G C)) = C).
  { apply set_eq. intros x.
    rewrite elem_of_list_to_set, list_elem_of_In, subgraph_node_ids, filter_In,
      bool_decide_eq_true.
    split; [tauto|]. intros Hx. split; [|exact Hx].
    apply list_elem_of_In, (elem_of_list_to_set (C := gset node)).
    now apply (component_nodes G n Hwf Hn). }
  assert (Hnd' : NoDup (node_ids (subgraph G C))).
  { apply NoDup_ListNoDup. rewrite subgraph_node_ids. now apply List.NoDup_filter. }
  assert (Hsize : length (nodes (subgraph G C)) = size C).
  { pose proof (size_list_to_set (C := gset node) _ Hnd') as Hs.
    rewrite Hids in Hs. unfold node_ids in Hs. rewrite length_map in Hs.
    now symmetry. }
  assert (Hin : In n (node_ids (subgraph G C))).
  { rewrite subgraph_node_ids. apply filter_In. split; [exact Hn|].
    apply bool_decide_eq_true_2. apply reach_start. }
  unfold is_weakly_connected.
  destruct (node_ids (subgraph G C)) as [|m rest] eqn:Hm; [destruct Hin|].
  assert (HmC : m ∈ C).
  { rewrite <- Hids. apply elem_of_list_to_set, list_elem_of_In. now left. }
  assert (HC' : Laws.closed_under (adjacent (subgraph G C)) C).
  { intros u v Hu Hv. apply (HC u v Hu). now apply (subgraph_adjacent G C u v HC Hu). }
  assert (HD : component (subgraph G C) m = C).
  { apply (component_of_member (adjacent G) (adjacent (subgraph G C)) C _ n m
             (length (nodes G)) eq_refl (adjacent_symmetric G) HC).
    - intros u v Hu. now apply subgraph_adjacent.
    - apply (reach_saturates _ C).
      + intros k. now apply reach_closed_in.
      + rewrite Hsize. lia.
    - now apply reach_closed_in.
    - apply reach_start. }
  rewrite HD, Hsize. apply Nat.eqb_refl.
Qed.

Lemma components_step_members (G : graph) (l : list node)
    (acc : list (gset node) * gset node) (c : gset node) :
  (forall n, In n l -> In n (node_ids G)) ->
  In c (fst (fold_left (components_step G) l acc)) ->
  In c (fst acc) \/ exists n, In n (node_ids G) /\ c = component G n.
Proof.
  revert acc. induction l as [|n l IH]; intros [comps seen] Hl Hc; [now left|].
  cbn [fold_left] in Hc. apply IH in Hc; [|intros; apply Hl; now right].
  destruct Hc as [Hc|Hc]; [|now right]. unfold components_step in Hc.
  destruct (bool_decide (n ∈ seen)); [now left|]. cbn [fst] in Hc.
  apply in_app_iff in Hc as [Hc|[<-|[]]]; [now left|].
  right. exists n. split; [apply Hl; now left|reflexivity].
Qed.

Lemma components_step_keeps (G : graph) (l : list node)
    (acc : list (gset node) * gset node) :
  fst acc <> [] -> fst (fold_left (components_step G) l acc) <> [].
Proof.
  revert acc. induction l as [|n l IH]; intros [comps seen] Hacc; [exact Hacc|].
  cbn [fold_left]. apply IH. unfold components_step.
  destruct (bool_decide (n ∈ seen)); [exact Hacc|]. cbn [fst].
  now destruct comps.
Qed.

Lemma components_nonempty (G : graph) :
  node_ids G <> [] -> weakly_connected_components G <> [].
Proof.
  unfold weakly_connected_components. destruct (node_ids G) as [|n l]; [congruence|].
  intros _. cbn [fold_left]. apply components_step_keeps.
  unfold components_step. rewrite bool_decide_eq_false_2 by apply not_elem_of_empty.
  cbn. discriminate.
Qed.

Lemma largest_component_member (comps : list (gset node)) :
  comps <> [] -> exists largest, largest_component comps = Some largest /\ In largest comps.
Proof.
  destruct comps as [|c0 rest]; [congruence|]. intros _. eexists. split; [reflexivity|].
  revert c0. induction rest as [|c rest IH]; intros c0; [now left|].
  cbn [fold_left]. destruct (size c0 <? size c)%nat.
  - destruct (IH c) as [<-|Hin]; [right; now left|right; now right].
  - destruct (IH c0) as [<-|Hin]; [now left|right; now right].
Qed.

(** The repair of a zone: a graph with an edge, each of whose nodes lies
    on an edge, comes out weakly connected and keeps an edge. *)
Lemma keep_largest_connected (sub : graph) :
  Spec.well_formed sub -> List.NoDup (node_ids sub) ->
  (forall n, In n (node_ids sub) ->
     exists e, In e (edges sub) /\ (src e = n \/ dst e = n)) ->
  edges sub <> [] ->
  is_weakly_connected (keep_largest_component sub) = true /\
  edges (keep_largest_component sub) <> [].
Proof.
  intros Hwf Hnd Hinc Hedges. unfold keep_largest_component.
  assert (Hsome : exists e0, In e0 (edges sub)).
  { destruct (edges sub) as [|e0 es]; [congruence|]. exists e0. now left. }
  destruct Hsome as [e0 He0].
  assert (Hpos : (0 <? length (edges sub))%nat = true).
  { destruct (edges sub); [destruct He0|reflexivity]. }
  rewrite Hpos.
  destruct (is_weakly_connected sub) eqn:Hconn; cbn [negb].
  { split; [exact Hconn|exact Hedges]. }
  assert (Hnodes : node_ids sub <> []).
  { destruct (Hwf e0 He0) as [Hs _].
    intros Hnil. rewrite Hnil in Hs. destruct Hs. }
  destruct (largest_component_member _ (components_nonempty sub Hnodes))
    as (largest & -> & Hin).
  apply (components_step_members sub (node_ids sub) ([], ∅)) in Hin; [|auto].
  destruct Hin as [[]|(n & Hn & ->)]. split.
  - now apply subgraph_component_connected.
  - destruct (Hinc n Hn) as (e & Hin & Hends).
    assert (HC : Laws.closed_under (adjacent sub) (component sub n))
      by now apply component_closed.
    assert (Hnc : n ∈ component sub n) by apply reach_start.
    assert (Hkept : In e (edges (subgraph sub (component sub n)))).
    { cbn [edges subgraph]. apply filter_In. split; [exact Hin|].
      apply andb_true_iff.
      destruct Hends as [Hs|Hd]; split; apply bool_decide_eq_true_2;
        try (rewrite Hs; exact Hnc); try (rewrite Hd; exact Hnc).
      - apply (HC n (dst e) Hnc). apply adjacent_spec. exists e. auto.
      - apply (HC n (src e) Hnc). apply adjacent_spec. exists e. auto. }
    intros Hnil. rewrite Hnil in Hkept. destruct Hkept.
Qed.

Lemma subgraph_well_formed (G : graph) (keep : gset node) :
  Spec.well_formed G -> List.NoDup (node_ids G) ->
  Spec.well_formed (subgraph G keep) /\ List.NoDup (node_ids (subgraph G keep)).
Proof.
  intros Hwf Hnd. split.
  - intros e He. cbn [edges subgraph] in He. apply filter_In in He as [He Hkeep].
    apply andb_true_iff in Hkeep as [Hs Hd].
    destruct (Hwf e He) as [HsG HdG]. rewrite subgraph_node_ids.
    split; apply filter_In; auto.
  - rewrite subgraph_node_ids. now apply List.NoDup_filter.
Qed.

Lemma keep_largest_well_formed (sub : graph) :
  Spec.well_formed sub -> List.NoDup (node_ids sub) ->
  Spec.well_formed (keep_largest_component sub) /\
  List.NoDup (node_ids (keep_largest_component sub)).
Proof.
  intros Hwf Hnd. unfold keep_largest_component.
  destruct (0 <? length (edges sub))%nat; [|auto].
  destruct (negb (is_weakly_connected sub)); [|auto].
  destruct (largest_component _) as [largest|]; [|auto].
  now apply subgraph_well_formed.
Qed.



(** What G.edge_subgraph keeps of a well-formed graph. *)
Lemma edge_subgraph_well_formed (G : graph) (sel : list (node * node * Z)) :
  Spec.well_formed G -> List.NoDup (node_ids G) ->
  Spec.well_formed (edge_subgraph G sel) /\
  List.NoDup (node_ids (edge_subgraph G sel)) /\
  (forall n, In n (node_ids (edge_subgraph G sel)) ->
     exists e, In e (edges (edge_subgraph G sel)) /\ (src e = n \/ dst e = n)).
Proof.
  intros Hwf Hnd.
  set (chosen := fun e : edge =>
         existsb (fun t => same_edge (fst (fst t)) (snd (fst t)) (snd t) e) sel).
  set (es := List.filter chosen (edges G)).
  set (incident := fun n : node =>
         existsb (fun e => Z.eqb (src e) n || Z.eqb (dst e) n) es).
  assert (Hids : node_ids (edge_subgraph G sel) = List.filter incident (node_ids G)).
  { exact (node_ids_filter incident (nodes G)). }
  split; [|split].
  - intros e He. change (In e es) in He. rewrite Hids.
    assert (HeG : In e (edges G)) by (now apply filter_In in He as [He _]).
    destruct (Hwf e HeG) as [Hs Hd].
    split; apply filter_In; (split; [assumption|]); apply existsb_exists; exists e;
      (split; [exact He|]); rewrite Z.eqb_refl; [reflexivity|apply orb_true_r].
  - rewrite Hids. now apply List.NoDup_filter.
  - intros n Hn. rewrite Hids in Hn. apply filter_In in Hn as [_ Hn].
    apply existsb_exists in Hn as (e & He & Hends). exists e. split; [exact He|].
    apply orb_true_iff in Hends as [H|H]; apply Z.eqb_eq in H; auto.
Qed.

Lemma is_weakly_connected_zone_id (G : graph) (z : Z) :
  is_weakly_connected (set_zone_id G z) = is_weakly_connected G.
Proof. reflexivity. Qed.

End Repair.

(** Every zone of a partition into two or more is a repaired edge
    subgraph. *)
Lemma partition_zone_repaired
    (interpolate_half : list (Q * Q) -> Q * Q)
    (fit_predict : nat -> list (Q * Q) -> list nat)
    (G : Graph.graph) (num_zones : nat) (balance_priority : string)
    (zones : list Graph.graph) :
  num_zones <> 1%nat ->
  Spec.well_formed G -> List.NoDup (Graph.node_ids G) ->
  Partition.partition_graph_into_zones interpolate_half fit_predict G num_zones
    balance_priority = Returns zones ->
  forall z, In z zones ->
    (Graph.is_weakly_connected z = true /\ Graph.edges z <> []) /\
    Spec.well_formed z /\ List.NoDup (Graph.node_ids z).
Proof.
  intros HK Hwf Hnd Hret z Hz. unfold Partition.partition_graph_into_zones in Hret.
  destruct (Nat.eqb_spec num_zones 1) as [|_]; [contradiction|].
  destruct (Partition.all_edge_features interpolate_half G balance_priority
              (Graph.edges G)) as [edge_data|] eqn:Hfeat; [|discriminate].
  cbn [obind] in Hret. injection Hret as <-.
  apply all_edge_features_ids in Hfeat.
  apply in_flat_map in Hz as (l & _ & Hz). unfold Partition.make_zone in Hz.
  set (labelled := combine (Partition.cluster_labels fit_predict num_zones edge_data)
                           edge_data) in Hz.
  remember (map (fun p => Partition.ei_edge (snd p))
                (List.filter (fun p => Nat.eqb (fst p) l) labelled)) as zedges eqn:Hzedges.
  assert (Hsel : forall t, In t zedges ->
            exists e, In e (Graph.edges G) /\ Laws.edge_id e = t).
  { intros t Ht. subst zedges. apply in_map_iff in Ht as ([l' info] & <- & Hin).
    apply filter_In in Hin as [Hin _]. apply in_combine_r in Hin.
    assert (Hid : In (Partition.ei_edge info) (map Partition.ei_edge edge_data))
      by now apply in_map.
    rewrite Hfeat in Hid. apply in_map_iff in Hid as (e & Hid & He). eauto. }
  clear Hzedges. destruct zedges as [|t ts]; [destruct Hz|].
  destruct Hz as [<-|[]].
  destruct (edge_subgraph_well_formed G (t :: ts) Hwf Hnd) as (Hwf' & Hnd' & Hinc).
  split; [|exact (keep_largest_well_formed _ Hwf' Hnd')].
  rewrite is_weakly_connected_zone_id. cbn [Graph.edges Graph.set_zone_id].
  apply keep_largest_connected; try assumption.
  destruct (Hsel t) as (e & He & Hid); [now left|].
  assert (Hin : In e (Graph.edges (Graph.edge_subgraph G (t :: ts)))).
  { cbn [Graph.edges Graph.edge_subgraph]. apply filter_In. split; [exact He|].
    apply existsb_exists. exists t. split; [now left|].
    destruct t as [[u v] k]. now apply same_edge_id. }
  intros Hnil. rewrite Hnil in Hin. destruct Hin.
Qed.

(** X18: for num_zones other than 1, every zone that
    partition_graph_into_zones returns for a graph whose edges join its
    nodes has at least one edge and is weakly connected: the repair keeps
    one connected component of the edges of a cluster. *)
Theorem partition_zones_connected
    (interpolate_half : list (Q * Q) -> Q * Q)
    (fit_predict : nat -> list (Q * Q) -> list nat)
    (G : Graph.graph) (num_zones : nat) (balance_priority : string)
    (zones : list Graph.graph) :
  num_zones <> 1%nat ->
  Spec.well_formed G -> List.NoDup (Graph.node_ids G) ->
  Partition.partition_graph_into_zones interpolate_half fit_predict G num_zones
    balance_priority = Returns zones ->
  forall z, In z zones ->
    Graph.is_weakly_connected z = true /\ Graph.edges z <> [].
Proof.
  intros HK Hwf Hnd Hret z Hz.
  exact (proj1 (partition_zone_repaired interpolate_half fit_predict G num_zones
                  balance_priority zones HK Hwf Hnd Hret z Hz)).
Qed.

Lemma partition_zones_connected_witness :
  Graph.is_weakly_connected Samples.two_roads = false /\
  exists zones,
    Partition.partition_graph_into_zones (fun _ => (0, 0)%Q)
      (fun _ points => map (fun _ => 0%nat) points)
      Samples.two_roads 2 "density" = Returns zones /\
    zones <> [] /\
    forall z, In z zones ->
      Graph.is_weakly_connected z = true /\ Graph.edges z <> [].
Proof.
  split; [vm_compute; reflexivity|].
  eexists. split; [vm_compute; reflexivity|]. split; [discriminate|].
  apply (partition_zones_connected (fun _ => (0, 0)%Q)
           (fun _ points => map (fun _ => 0%nat) points)
           Samples.two_roads 2 "density").
  - discriminate.
  - intros e [<-|[<-|[]]]; vm_compute; split;
      repeat (first [left; reflexivity|right]).
  - apply NoDup_ListNoDup, (bool_decide_unpack _). vm_compute. exact I.
  - vm_compute. reflexivity.
Defined.

(** ** partition.py and routing.py: the zones are walked in full *)



(** ** partition.py: the majority vote *)

Section Votes.
Import Graph Partition.

Lemma add_label_fold (votes acc : list nat) (c : nat) :
  In c (fold_left add_label votes acc) <-> In c acc \/ In c votes.
Proof.
  revert acc. induction votes as [|v votes IH]; intros acc; cbn [fold_left].
  - cbn. tauto.
  - rewrite IH. unfold add_label.
    destruct (existsb (Nat.eqb v) acc) eqn:Hex.
    + apply existsb_exists in Hex as (v' & Hv' & Heq).
      apply Nat.eqb_eq in Heq. subst v'. cbn. intuition (subst; auto).
    + rewrite in_app_iff. cbn. intuition (subst; auto).
Qed.

Lemma count_votes_absent (votes : list nat) (c : nat) :
  ~ In c votes -> count_votes votes c = 0%nat.
Proof.
  unfold count_votes. induction votes as [|v votes IH]; intros Hc; [reflexivity|].
  cbn [List.filter]. destruct (Nat.eqb_spec c v) as [->|_].
  - exfalso. apply Hc. now left.
  - apply IH. intros H. apply Hc. now right.
Qed.

(** The scan for the largest count keeps the first label among equals. *)
Lemma most_counted_fold (votes rest : list nat) (c0 : nat) :
  In (fold_left (fun best c =>
                   if (count_votes votes best <? count_votes votes c)%nat
                   then c else best) rest c0) (c0 :: rest) /\
  forall c, In c (c0 :: rest) ->
    (count_votes votes c
     <= count_votes votes
          (fold_left (fun best c =>
                        if (count_votes votes best <? count_votes votes c)%nat
                        then c else best) rest c0))%nat.
Proof.
  revert c0. induction rest as [|a rest IH]; intros c0; cbn [fold_left].
  - split; [now left|]. intros c [<-|[]]. lia.
  - destruct (Nat.ltb_spec (count_votes votes c0) (count_votes votes a)) as [Hlt|Hge].
    + destruct (IH a) as [Hin Hmax]. split; [right; exact Hin|].
      intros c [<-|[<-|Hc]].
      * specialize (Hmax a (or_introl eq_refl)). lia.
      * apply Hmax. now left.
      * apply Hmax. now right.
    + destruct (IH c0) as [Hin Hmax]. split.
      * destruct Hin as [<-|Hin]; [now left|right; now right].
      * intros c [<-|[<-|Hc]].
        -- apply Hmax. now left.
        -- specialize (Hmax c0 (or_introl eq_refl)). lia.
        -- apply Hmax. now right.
Qed.

(** Counter(votes).most_common(1): a vote that no label outnumbers. *)
Lemma most_common_spec (votes : list nat) :
  votes <> [] ->
  In (most_common votes) votes /\
  forall c, (count_votes votes c <= count_votes votes (most_common votes))%nat.
Proof.
  intros Hne. unfold most_common.
  destruct (fold_left add_label votes []) as [|c0 rest] eqn:Hl.
  - exfalso. destruct votes as [|v vs]; [congruence|].
    assert (H : In v (fold_left add_label (v :: vs) []))
      by (apply add_label_fold; right; now left).
    rewrite Hl in H. destruct H.
  - destruct (most_counted_fold votes rest c0) as [Hin Hmax].
    assert (Hlabels : forall c, In c (c0 :: rest) <-> In c votes).
    { intros c. rewrite <- Hl, add_label_fold. cbn. tauto. }
    split; [now apply Hlabels|]. intros c.
    destruct (in_dec Nat.eq_dec c votes) as [Hc|Hc].
    + now apply Hmax, Hlabels.
    + rewrite count_votes_absent by exact Hc. lia.
Qed.

Lemma combine_seq_lookup {A} (l : list A) (a i : nat) (x : A) :
  l !! i = Some x -> In ((a + i)%nat, x) (combine (seq a (length l)) l).
Proof.
  revert a i. induction l as [|y l IH]; intros a i Hx; [discriminate|].
  destruct i as [|i]; cbn in Hx |- *.
  - injection Hx as ->. left. f_equal. lia.
  - right. replace (a + S i)%nat with (S a + i)%nat by lia. now apply IH.
Qed.

Lemma combine_lookup_in {A B} (xs : list A) (ys : list B) (j : nat) (x : A) (y : B) :
  xs !! j = Some x -> ys !! j = Some y -> In (x, y) (combine xs ys).
Proof.
  revert ys j. induction xs as [|a xs IH]; intros [|b ys] [|j] Hx Hy;
    try discriminate; cbn in *.
  - left. congruence.
  - right. eauto.
Qed.

(** Every edge has a copy among the replicated points. *)
Lemma replicate_points_copy (edge_data : list edge_info) (i : nat) (info : edge_info) :
  edge_data !! i = Some info ->
  In (i, (ei_x info, ei_y info)) (replicate_points edge_data).
Proof.
  intros Hi. unfold replicate_points. apply in_flat_map. exists (i, info). split.
  - exact (combine_seq_lookup edge_data 0 i info Hi).
  - cbn [fst snd]. apply list_elem_of_In, elem_of_replicate. split; [reflexivity|].
    lia.
Qed.

Section Labels.
Variable fit_predict : nat -> list (Q * Q) -> list nat.
Variable num_zones : nat.
Variable edge_data : list edge_info.

(** The label of an edge is the label of one of its copies, and no label
    has more of its copies. *)
Lemma cluster_labels_vote (i : nat) :
  let weighted := replicate_points edge_data in
  let labels_weighted := fit_predict num_zones (map snd weighted) in
  let votes := map snd (List.filter (fun v => Nat.eqb (fst v) i)
                          (combine (map fst weighted) labels_weighted)) in
  length labels_weighted = length weighted ->
  (i < length edge_data)%nat ->
  cluster_labels fit_predict num_zones edge_data !! i = Some (most_common votes) /\
  (exists j p, weighted !! j = Some (i, p) /\
               labels_weighted !! j = Some (most_common votes)) /\
  forall c, (count_votes votes c <= count_votes votes (most_common votes))%nat.
Proof.
  intros weighted labels_weighted votes Hlen Hi.
  assert (Hne : votes <> []).
  { destruct (lookup_lt_is_Some_2 edge_data i Hi) as [info Hinfo].
    pose proof (replicate_points_copy edge_data i info Hinfo) as Hcopy.
    fold weighted in Hcopy.
    apply list_elem_of_In, list_elem_of_lookup in Hcopy as [j Hj].
    destruct (lookup_lt_is_Some_2 labels_weighted j) as [l Hl].
    { rewrite Hlen. now apply lookup_lt_Some in Hj. }
    assert (Hin : In (i, l) (combine (map fst weighted) labels_weighted)).
    { apply (combine_lookup_in _ _ j); [|exact Hl].
      now rewrite list_lookup_fmap, Hj. }
    intros Hnil.
    assert (Hv : In l votes).
    { unfold votes. apply in_map_iff. exists (i, l). split; [reflexivity|].
      apply filter_In. split; [exact Hin|]. cbn. apply Nat.eqb_refl. }
    rewrite Hnil in Hv. destruct Hv. }
  destruct (most_common_spec votes Hne) as [Hin Hmax].
  split; [|split; [|exact Hmax]].
  - unfold cluster_labels. rewrite list_lookup_fmap, lookup_seq_lt by exact Hi.
    reflexivity.
  - unfold votes in Hin at 2. apply in_map_iff in Hin as ([i' l] & Hl & Hin).
    apply filter_In in Hin as [Hin Heq]. cbn in Hl, Heq.
    apply Nat.eqb_eq in Heq. subst i'.
    apply combine_lookup in Hin as (j & Hi' & Hj).
    rewrite list_lookup_fmap in Hi'.
    destruct (weighted !! j) as [[i' p]|] eqn:Hw; [|discriminate].
    cbn in Hi'. injection Hi' as ->.
    exists j, p. split; [exact Hw|]. now rewrite Hj, Hl.
Qed.

End Labels.

Lemma all_edge_features_total (interpolate_half : list (Q * Q) -> Q * Q)
    (G : graph) (balance_priority : string) (es : list edge) :
  (forall e, In e es -> In (src e) (node_ids G) /\ In (dst e) (node_ids G)) ->
  exists infos,
    all_edge_features interpolate_half G balance_priority es = Returns infos.
Proof.
  induction es as [|e es IH]; intros Hwf; cbn [all_edge_features]; [eauto|].
  destruct (Hwf e (or_introl eq_refl)) as [Hs Hd].
  destruct (node_attrs_total G (src e) Hs) as [du Hdu].
  destruct (node_attrs_total G (dst e) Hd) as [dv Hdv].
  destruct IH as [infos Hinfos]; [intros; apply Hwf; now right|].
  unfold edge_features. rewrite Hdu, Hdv, Hinfos.
  destruct (e_geometry (data e)); cbn [obind]; eauto.
Qed.

End Votes.

(** X20: the majority vote of partition_graph_into_zones: when KMeans
    labels every replicated point, the cluster label of edge i is the
    label of one of the copies of edge i, and no label was given to more
    of its copies. *)
Theorem cluster_labels_majority
    (fit_predict : nat -> list (Q * Q) -> list nat)
    (num_zones : nat) (edge_data : list Partition.edge_info) (i : nat) :
  let weighted := Partition.replicate_points edge_data in
  let labels_weighted := fit_predict num_zones (map snd weighted) in
  let votes := map snd (List.filter (fun v => Nat.eqb (fst v) i)
                          (combine (map fst weighted) labels_weighted)) in
  length labels_weighted = length weighted ->
  (i < length edge_data)%nat ->
  exists l,
    Partition.cluster_labels fit_predict num_zones edge_data !! i = Some l /\
    (exists j p, weighted !! j = Some (i, p) /\ labels_weighted !! j = Some l) /\
    forall c, (Partition.count_votes votes c <= Partition.count_votes votes l)%nat.
Proof.
  intros weighted labels_weighted votes Hlen Hi.
  exists (Partition.most_common votes).
  exact (cluster_labels_vote fit_predict num_zones edge_data i Hlen Hi).
Qed.

Lemma cluster_labels_majority_witness :
  exists l,
    Partition.cluster_labels
      (fun _ points => map (fun p => if Qle_bool 3 (fst p) then 1%nat else 0%nat) points)
      2
      [ {| Partition.ei_edge := (1, 2, 0)%Z; Partition.ei_x := 0; Partition.ei_y := 0;
           Partition.ei_weight := 1 |};
        {| Partition.ei_edge := (3, 4, 0)%Z; Partition.ei_x := 5; Partition.ei_y := 0;
           Partition.ei_weight := 5 |} ] !! 1%nat = Some l /\
    l = 1%nat.
Proof.
  destruct (cluster_labels_majority
              (fun _ points => map (fun p => if Qle_bool 3 (fst p) then 1%nat else 0%nat)
                                   points)
              2
              [ {| Partition.ei_edge := (1, 2, 0)%Z; Partition.ei_x := 0;
                   Partition.ei_y := 0; Partition.ei_weight := 1 |};
                {| Partition.ei_edge := (3, 4, 0)%Z; Partition.ei_x := 5;
                   Partition.ei_y := 0; Partition.ei_weight := 5 |} ] 1%nat)
    as (l & Hl & _).
  - vm_compute. reflexivity.
  - cbn. lia.
  - exists l. split; [exact Hl|].
    vm_compute in Hl. congruence.
Defined.

(** X21: on a graph with an edge whose edges join its nodes, and with a
    KMeans that gives every point a label below num_zones,
    partition_graph_into_zones raises nothing and returns at least one
    zone. *)
Theorem partition_returns_a_zone
    (interpolate_half : list (Q * Q) -> Q * Q)
    (fit_predict : nat -> list (Q * Q) -> list nat)
    (G : Graph.graph) (num_zones : nat) (balance_priority : string) :
  Spec.well_formed G -> Graph.edges G <> [] ->
  (forall points,
     length (fit_predict num_zones points) = length points /\
     Forall (fun l => (l < num_zones)%nat) (fit_predict num_zones points)) ->
  exists zones,
    Partition.partition_graph_into_zones interpolate_half fit_predict G num_zones
      balance_priority = Returns zones /\
    zones <> [].
Proof.
  intros Hwf Hedges Hfit. unfold Partition.partition_graph_into_zones.
  destruct (Nat.eqb_spec num_zones 1) as [_|_]; [eexists; split; [reflexivity|discriminate]|].
  destruct (all_edge_features_total interpolate_half G balance_priority
              (Graph.edges G) Hwf) as [edge_data Hfeat].
  rewrite Hfeat. cbn [obind]. eexists. split; [reflexivity|].
  pose proof (all_edge_features_ids interpolate_half G balance_priority _ _ Hfeat) as Hids.
  assert (Hpos : (0 < length edge_data)%nat).
  { apply (f_equal (@length _)) in Hids. rewrite !length_map in Hids.
    destruct (Graph.edges G); [congruence|]. cbn in Hids. lia. }
  destruct (Hfit (map snd (Partition.replicate_points edge_data))) as [Hlen Hrange].
  rewrite length_map in Hlen.
  destruct (cluster_labels_vote fit_predict num_zones edge_data 0 Hlen Hpos)
    as (Hlabel & (j & p & _ & Hj) & _).
  set (labels := Partition.cluster_labels fit_predict num_zones edge_data) in *.
  match type of Hlabel with _ = Some ?v => set (l := v) in * end.
  assert (Hl : (l < num_zones)%nat).
  { rewrite Forall_lookup in Hrange. exact (Hrange j l Hj). }
  destruct (lookup_lt_is_Some_2 edge_data 0 Hpos) as [info Hinfo].
  assert (Hin : In (l, info) (combine labels edge_data)).
  { now apply (combine_lookup_in _ _ 0%nat). }
  assert (Hzone : Partition.make_zone G (combine labels edge_data) l <> []).
  { unfold Partition.make_zone. cbv zeta.
    set (zedges := map (fun p => Partition.ei_edge (snd p))
                     (List.filter (fun p => Nat.eqb (fst p) l)
                        (combine labels edge_data))).
    assert (Ht : In (Partition.ei_edge info) zedges).
    { apply in_map_iff. exists (l, info). split; [reflexivity|].
      apply filter_In. split; [exact Hin|]. cbn. apply Nat.eqb_refl. }
    destruct zedges; [destruct Ht|discriminate]. }
  destruct (Partition.make_zone G (combine labels edge_data) l) as [|z zs] eqn:Hz;
    [congruence|].
  intros Hnil.
  assert (Hz' : In z (flat_map (Partition.make_zone G (combine labels edge_data))
                        (seq 0 num_zones))).
  { apply in_flat_map. exists l. split; [apply in_seq; lia|]. rewrite Hz. now left. }
  rewrite Hnil in Hz'. destruct Hz'.
Qed.

Lemma partition_returns_a_zone_witness :
  exists zones,
    Partition.partition_graph_into_zones (fun _ => (0, 0)%Q)
      (fun _ points => map (fun _ => 0%nat) points)
      Samples.two_roads 2 "density" = Returns zones /\
    zones <> [].
Proof.
  apply (partition_returns_a_zone (fun _ => (0, 0)%Q)
           (fun _ points => map (fun _ => 0%nat) points)
           Samples.two_roads 2 "density").
  - intros e [<-|[<-|[]]]; vm_compute; split;
      repeat (first [left; reflexivity|right]).
  - discriminate.
  - intros points. rewrite length_map. split; [reflexivity|].
    apply List.Forall_forall. intros l Hl. apply in_map_iff in Hl as (_ & <- & _). lia.
Defined.

(** ** area.py: the circle *)

Section CircleRadius.
Local Open Scope R_scope.

Lemma Polygon_returns (points ring : list (R * R)) :
  Area.Polygon points = Returns ring -> ring = points.
Proof.
  destruct points as [|a [|b [|c l]]]; cbn; intros H; try discriminate;
    now injection H as <-.
Qed.

(** Vertex [i] lies at radius_m from the centre, in metres along the
    meridian and along the parallel of the centre. *)
Lemma circle_vertex_radius (center_lat center_lng radius_m : R)
    (num_points i : nat) :
  cos (Area.radians center_lat) <> 0 ->
  let p := Area.circle_vertex center_lat center_lng radius_m num_points i in
  let north := (snd p - center_lat) * 111320 in
  let east := (fst p - center_lng) * (111320 * cos (Area.radians center_lat)) in
  north * north + east * east = radius_m * radius_m.
Proof.
  intros Hcos. unfold Area.circle_vertex. cbn [fst snd].
  set (angle := 2 * PI * INR i / INR num_points).
  set (C := cos (Area.radians center_lat)) in *.
  pose proof (sin2_cos2 angle) as Hunit. unfold Rsqr in Hunit.
  replace ((center_lat + radius_m * sin angle * (1 / 111320) - center_lat) * 111320)
    with (radius_m * sin angle) by (field).
  replace ((center_lng + radius_m * cos angle * (1 / (111320 * C)) - center_lng)
           * (111320 * C))
    with (radius_m * cos angle) by (field; exact Hcos).
  transitivity (radius_m * radius_m * (sin angle * sin angle + cos angle * cos angle));
    [ring|]. rewrite Hunit. ring.
Qed.

End CircleRadius.

(** X22: away from the poles every vertex of create_circle_polygon lies
    at exactly radius_m from the centre, its offset measured in metres
    along the meridian (111320 m per degree) and along the parallel of
    the centre (111320 cos(lat) m per degree); vertex 0 lies due east. *)
Theorem circle_vertices_at_radius (center_lat center_lng radius_m : R)
    (num_points : nat) (points : list (R * R)) :
  cos (Area.radians center_lat) <> 0%R ->
  Area.create_circle_polygon center_lat center_lng radius_m num_points
  = Returns points ->
  Forall (fun p =>
            let north := ((snd p - center_lat) * 111320)%R in
            let east := ((fst p - center_lng)
                         * (111320 * cos (Area.radians center_lat)))%R in
            (north * north + east * east = radius_m * radius_m)%R) points /\
  forall p, points !! 0%nat = Some p ->
    snd p = center_lat /\
    ((fst p - center_lng) * (111320 * cos (Area.radians center_lat)))%R = radius_m.
Proof.
  intros Hcos Hret. unfold Area.create_circle_polygon in Hret.
  apply Polygon_returns in Hret. subst points. split.
  - apply List.Forall_forall. intros p Hp. apply in_map_iff in Hp as (i & <- & _).
    exact (circle_vertex_radius center_lat center_lng radius_m num_points i Hcos).
  - intros p Hp. rewrite list_lookup_fmap in Hp.
    destruct (seq 0 num_points !! 0%nat) as [i|] eqn:Hi; [|discriminate].
    cbn in Hp. injection Hp as <-.
    assert (i = 0%nat) as ->.
    { destruct num_points; [discriminate|]. cbn in Hi. congruence. }
    unfold Area.circle_vertex. cbn [fst snd INR].
    replace (2 * PI * 0 / INR num_points)%R with 0%R by (unfold Rdiv; ring).
    rewrite sin_0, cos_0. split; [ring|]. field. exact Hcos.
Qed.

Lemma circle_vertices_at_radius_witness :
  exists points,
    Area.create_circle_polygon 0 0 1000 64 = Returns points /\
    points !! 0%nat = Some ((0 + 1000 * cos (2 * PI * 0 / INR 64)
                                 * (1 / (111320 * cos (Area.radians 0))))%R,
                            (0 + 1000 * sin (2 * PI * 0 / INR 64) * (1 / 111320))%R) /\
    forall p, points !! 0%nat = Some p -> snd p = 0%R.
Proof.
  eexists. split; [|split].
  - unfold Area.create_circle_polygon. apply Polygon_accepts.
    rewrite length_map, length_seq. lia.
  - reflexivity.
  - intros p Hp.
    refine (proj1 (proj2 (circle_vertices_at_radius 0 0 1000 64 _ _ _) p Hp)).
    + unfold Area.radians. replace (0 * PI / 180)%R with 0%R by (unfold Rdiv; ring).
      rewrite cos_0. lra.
    + unfold Area.create_circle_polygon. apply Polygon_accepts.
      rewrite length_map, length_seq. lia.
Defined.

(** ** main.py: the export of a route *)

Section RouteLookup.
Import Main.

(** In a list numbered from [base + 1] the search by number finds the
    route at that place, and nothing for a number out of range. *)
Lemma find_route_numbered (routes : list route) (base : nat) :
  (forall j r, routes !! j = Some r -> route_id r = (base + j + 1)%nat) ->
  (forall j r, routes !! j = Some r ->
     find_route routes (Z.of_nat (base + j + 1)) = Some r) /\
  (forall k, (k < Z.of_nat base + 1 \/ Z.of_nat base + Z.of_nat (length routes) < k)%Z ->
     find_route routes k = None).
Proof.
  revert base. induction routes as [|r0 routes IH]; intros base Hids.
  - split; [intros j r Hj; discriminate|reflexivity].
  - assert (H0 : route_id r0 = (base + 1)%nat).
    { rewrite (Hids 0%nat r0 eq_refl). lia. }
    destruct (IH (S base)) as [Hfound Hnone].
    { intros j r Hj. rewrite (Hids (S j) r Hj). lia. }
    unfold find_route in *. cbn [List.find]. rewrite H0. split.
    + intros [|j] r Hj.
      * injection Hj as <-.
        replace (Z.of_nat (base + 0 + 1)) with (Z.of_nat (base + 1)) by lia.
        now rewrite Z.eqb_refl.
      * destruct (Z.eqb_spec (Z.of_nat (base + 1)) (Z.of_nat (base + S j + 1)))
          as [Heq|_]; [lia|].
        replace (base + S j + 1)%nat with (S base + j + 1)%nat by lia.
        now apply Hfound.
    + intros k Hk. cbn [length] in Hk.
      destruct (Z.eqb_spec (Z.of_nat (base + 1)) k) as [Heq|_]; [lia|].
      apply Hnone. lia.
Qed.

End RouteLookup.

(** X23: the GPX export of one route.  Once the routes of an answer are
    stored under a job id, asking for route number j + 1 of that job
    returns the GPX of the route at place j under the file name
    route_<j+1>.gpx; a number below 1 or above the number of routes is
    the 404 "Route not found"; and a job id that was never stored is the
    404 "Job not found". *)
Theorem export_gpx_route
    (shortest_path : Graph.route_graph -> Graph.node -> Graph.node -> list Graph.node)
    (iter_set : gset Graph.node -> list Graph.node)
    (generate_gpx : Main.route -> string)
    (generate_gpx_for_all_routes : list Main.route -> string)
    (str : Z -> string)
    (total_flyers : Z) (start_pt : option (Q * Q)) (return_to_start : bool)
    (travel_mode : string) (zones : list Graph.graph) (routes : list Main.route)
    (store : Main.jobs) (job_id : string) :
  Main.routes_for_zones shortest_path iter_set total_flyers start_pt
    return_to_start travel_mode zones = Returns routes ->
  let export := Main.export_gpx generate_gpx generate_gpx_for_all_routes str
                  (Main.store_job store job_id routes) in
  (forall j r, routes !! j = Some r ->
     export job_id (Some (Z.of_nat j + 1)%Z)
     = Returns {| Main.content := generate_gpx r;
                  Main.media_type := "application/gpx+xml";
                  Main.filename := ("route_" ++ str (Z.of_nat j + 1)%Z ++ ".gpx")%string |}) /\
  (forall k, (k < 1 \/ Z.of_nat (length routes) < k)%Z ->
     export job_id (Some k) = Raises (HTTPException 404 "Route not found")) /\
  (forall other wanted, other <> job_id -> store !! other = None ->
     export other wanted = Raises (HTTPException 404 "Job not found")).
Proof.
  unfold Main.routes_for_zones. destruct (Nat.eqb _ 0); [discriminate|].
  intros Hret.
  apply make_routes_records in Hret as [_ Hrec]; [|apply allocate_flyers_length].
  destruct (find_route_numbered routes 0) as [Hfound Hnone].
  { intros j r Hj. now destruct (Hrec j r Hj) as (Hid & _). }
  unfold Main.export_gpx, Main.store_job, Main.jobs in *. split; [|split].
  - intros j r Hj. rewrite lookup_insert_eq.
    replace (Z.of_nat j + 1)%Z with (Z.of_nat (0 + j + 1)) by lia.
    now rewrite (Hfound j r Hj).
  - intros k Hk. rewrite lookup_insert_eq, Hnone by (cbn; lia). reflexivity.
  - intros other wanted Hother Hstore.
    rewrite lookup_insert_ne by congruence. now rewrite Hstore.
Qed.

Lemma export_gpx_route_witness :
  exists routes,
    Main.routes_for_zones Reference.shortest_path Reference.iter_set 10 None false
      "walking" [Samples.street_zone 2; Samples.street_zone 1] = Returns routes /\
    (forall k, (k < 1 \/ Z.of_nat (length routes) < k)%Z ->
       Main.export_gpx (fun _ => "gpx"%string) (fun _ => "all"%string) (fun _ => "n"%string)
         (Main.store_job ∅ "job_1" routes) "job_1" (Some k)
       = Raises (HTTPException 404 "Route not found")).
Proof.
  eexists. split; [vm_compute; reflexivity|].
  refine (proj1 (proj2 (export_gpx_route Reference.shortest_path Reference.iter_set
                          (fun _ => "gpx"%string) (fun _ => "all"%string)
                          (fun _ => "n"%string) 10 None false "walking"
                          [Samples.street_zone 2; Samples.street_zone 1]
                          _ ∅ "job_1" _))).
  vm_compute. reflexivity.
Defined.
